(** * Tentative-load classification and dead-store elimination (LLPE / integrator)

    A shallow embedding of

    - [llpe/main/TentativeLoads.cpp]: the per-object byte-range store
      ([TLMapPointer::mergeStores], [TLMapPointer::getReadableCopy],
      [markGoodBytes], [updateTLStore]), the path conditions
      ([walkPathCondition], [walkPathConditions]), the
      check classifier ([shouldCheckRead], [shouldCheckCopy],
      [shouldCheckLoadFrom], [shouldCheckLoad], [TLAnalyseInstruction]), the
      two-phase walk of an unbounded loop
      ([findTentativeLoadsInUnboundedLoop]), availability patching
      ([squashUnavailableObjects], [replaceUnavailableObjects]) and the
      bookkeeping of contexts ([resetTentativeLoads], [rerunTentativeLoads],
      [requiresRuntimeCheck]);
    - [llvm-3.2.src/lib/Analysis/Integrator/DSE.cpp]: the dead-store prover
      ([DSEHandleWrite], [noteBytesWrittenBy], [isLifetimeEnd],
      [WriterUsedWalker], [tryKillWriterTo]) and its entry points
      ([tryKillStore], [tryKillMemset], [tryKillRead], [tryKillMTI],
      [tryKillAlloc]).

    64-bit unsigned quantities are [Z] with the wrap-around written out. *)

From stdpp Require Import gmap list.
From Stdlib Require Import ZArith Lia.

Open Scope Z_scope.

(** ** Machine integers *)

Definition two64 : Z := 2 ^ 64.
Definition two63 : Z := 2 ^ 63.

(** Conversion to [uint64_t]. *)
Definition to_u64 (z : Z) : Z := z mod two64.

(** Conversion to [int64_t] (two's complement). *)
Definition to_i64 (z : Z) : Z :=
  let u := z mod two64 in if u <? two63 then u else u - two64.

(** ** The interval map behind a byte-range set

    [TLMapTy] is an [llvm::IntervalMap] from half-open [uint64_t] intervals to
    [bool]; every value stored is [true], so an interval map is represented
    by the ordered list of its intervals. *)

Module IntervalMap.

Definition t : Type := list (Z * Z).

(** A byte is covered when it lies in one of the half-open intervals. *)
Fixpoint covers (m : t) (x : Z) : Prop :=
  match m with
  | [] => False
  | (s, e) :: m' => (s <= x < e) \/ covers m' x
  end.

Fixpoint coversb (m : t) (x : Z) : bool :=
  match m with
  | [] => false
  | (s, e) :: m' => ((s <=? x) && (x <? e)) || coversb m' x
  end.

(** Modelled from the spec: the interval-map type itself is not among the
    source files.  "ByteRangeSet: a set of non-overlapping, non-adjacent
    half-open intervals [start,stop) ... intervals are always minimal and
    merged -- two touching intervals are coalesced, never left split."
    [wfb lo hi m]: the intervals of [m] are non-empty, increasing, separated
    by at least one byte, and lie between [lo] and [hi]. *)
Fixpoint wfb (lo hi : Z) (m : t) : Prop :=
  match m with
  | [] => True
  | (s, e) :: m' => lo <= s /\ s < e /\ e <= hi /\ wfb (e + 1) hi m'
  end.

(** Well-formed over [uint64_t]. *)
Definition wf (m : t) : Prop := wfb 0 (two64 - 1) m.

Fixpoint wfbb (lo hi : Z) (m : t) : bool :=
  match m with
  | [] => true
  | (s, e) :: m' => (lo <=? s) && (s <? e) && (e <=? hi) && wfbb (e + 1) hi m'
  end.

(** Modelled from the spec: [IntervalMap::find(x)] positions an iterator at
    the first interval whose stop lies beyond [x] (half-open intervals: the
    first interval with [stop > x]), or at the end.  An iterator is the
    list of the intervals from its position on. *)
Fixpoint find (x : Z) (m : t) : t :=
  match m with
  | [] => []
  | (s, e) :: m' => if e <=? x then find x m' else m
  end.

(** Modelled from the spec: [IntervalMap::insert(a, b, true)] adds the
    interval [a,b), which the caller guarantees non-empty and disjoint from
    the intervals present, and coalesces it with an interval it touches on
    either side. *)
Fixpoint insert (a b : Z) (m : t) : t :=
  match m with
  | [] => [(a, b)]
  | (s, e) :: m' =>
      if b <? s then (a, b) :: m
      else if b =? s then (a, e) :: m'
      else if e =? a then insert s b m'
      else (s, e) :: insert a b m'
  end.

Definition clear (m : t) : t := [].

End IntervalMap.

(** ** [TLMapPointer::mergeStores] *)

Module TLMap.
Import IntervalMap.

(** The inner loop of [mergeStores]: starting at [toit], while the interval
    under [toit] starts before [e], keep its overlap with [s, e). *)
Fixpoint overlapsFrom (s e : Z) (toit : IntervalMap.t) : list (Z * Z) :=
  match toit with
  | [] => []
  | (ts, te) :: rest =>
      if ts <? e
      then (Z.max ts s, Z.min te e) :: overlapsFrom s e rest
      else []
  end.

(** The outer loop: [keepRanges] after the walk over [mergeFrom]. *)
Fixpoint keepRanges (mergeFrom mergeTo : IntervalMap.t) : list (Z * Z) :=
  match mergeFrom with
  | [] => []
  | (s, e) :: from' =>
      overlapsFrom s e (find s mergeTo) ++ keepRanges from' mergeTo
  end.

Definition insertAll (rs : list (Z * Z)) (m : IntervalMap.t) : IntervalMap.t :=
  fold_left (fun acc r => insert (fst r) (snd r) acc) rs m.

(** [mergeStores mergeFrom mergeTo] is the new content of [mergeTo->M]:
    the map is cleared and the kept ranges are inserted one by one. *)
Definition mergeStores (mergeFrom mergeTo : IntervalMap.t) : IntervalMap.t :=
  insertAll (keepRanges mergeFrom mergeTo) (clear mergeTo).

End TLMap.

(** ** Values, instructions and snapshots of the tentative-load analysis *)

Module TL.
Import IntervalMap.

(** [ThreadLocalState], the check requirement of a memory-reading
    instruction. *)
Inductive ThreadLocalState : Type :=
| TLS_NEVERCHECK
| TLS_NOCHECK
| TLS_MUSTCHECK.

#[global] Instance ThreadLocalState_eq_dec : EqDecision ThreadLocalState.
Proof. solve_decision. Defined.

Inductive ValSetType : Type :=
| ValSetTypeUnknown
| ValSetTypePB
| ValSetTypeScalar
| ValSetTypeFD
| ValSetTypeVarArg.

#[global] Instance ValSetType_eq_dec : EqDecision ValSetType.
Proof. solve_decision. Defined.

(** A [ShadowValue], as far as the analysis looks into it: the null
    pointer, a global (with [G->isConstant()]), an allocation named by frame
    and index (frame [-1] is the heap), a file descriptor, an instruction or
    any other value.  Equality of objects is equality of handles. *)
Inductive ShadowValue : Type :=
| SV_Null
| SV_GV (idx : nat) (isConstant : bool)
| SV_PtrIdx (frameNo : Z) (idx : nat)
| SV_FdIdx (fd : nat)
| SV_Inst (id : nat)
| SV_Other (id : nat).

#[global] Instance ShadowValue_eq_dec : EqDecision ShadowValue.
Proof. solve_decision. Defined.

Definition ShadowValue_enc (v : ShadowValue) :
  unit + (nat * bool) + (Z * nat) + nat + nat + nat :=
  match v with
  | SV_Null => inl (inl (inl (inl (inl tt))))
  | SV_GV i c => inl (inl (inl (inl (inr (i, c)))))
  | SV_PtrIdx f i => inl (inl (inl (inr (f, i))))
  | SV_FdIdx fd => inl (inl (inr fd))
  | SV_Inst i => inl (inr i)
  | SV_Other i => inr i
  end.

Definition ShadowValue_dec (x : unit + (nat * bool) + (Z * nat) + nat + nat + nat) :
  ShadowValue :=
  match x with
  | inl (inl (inl (inl (inl _)))) => SV_Null
  | inl (inl (inl (inl (inr (i, c))))) => SV_GV i c
  | inl (inl (inl (inr (f, i)))) => SV_PtrIdx f i
  | inl (inl (inr fd)) => SV_FdIdx fd
  | inl (inr i) => SV_Inst i
  | inr i => SV_Other i
  end.

#[global] Instance ShadowValue_countable : Countable ShadowValue.
Proof.
  apply (inj_countable' ShadowValue_enc ShadowValue_dec).
  intros []; reflexivity.
Defined.

Definition isNullPointer (v : ShadowValue) : bool :=
  match v with SV_Null => true | _ => false end.

(** [V.isGV() && V.u.GV->G->isConstant()] *)
Definition isConstantGV (v : ShadowValue) : bool :=
  match v with SV_GV _ c => c | _ => false end.

(** Modelled from the spec: [ShadowValue::isNullOrConst] is declared outside
    the source files; "read of a null pointer or of a provably-constant
    global" (4.3). *)
Definition isNullOrConst (v : ShadowValue) : bool :=
  isNullPointer v || isConstantGV v.

Definition isPtrIdx (v : ShadowValue) : bool :=
  match v with SV_PtrIdx _ _ => true | _ => false end.

Definition getFrameNo (v : ShadowValue) : Z :=
  match v with SV_PtrIdx f _ => f | _ => -1 end.

Definition isFdIdx (v : ShadowValue) : bool :=
  match v with SV_FdIdx _ => true | _ => false end.

(** [ImprovedVal]: a pointer target and a signed 64-bit offset. *)
Record ImprovedVal : Type := mkIV { V : ShadowValue; Offset : Z }.

(** [ImprovedValSetSingle]; [whollyUnknown] is what [isWhollyUnknown()]
    answers. *)
Record ImprovedValSetSingle : Type := mkIVS {
  SetType : ValSetType;
  Values : list ImprovedVal;
  whollyUnknown : bool
}.

(** [setOverdef]: the set forgets its values. *)
Definition setOverdef (s : ImprovedValSetSingle) : ImprovedValSetSingle :=
  {| SetType := SetType s; Values := []; whollyUnknown := true |}.

(** A range of bytes [first, second) with the value set read there. *)
Definition IVSRange : Type := (Z * Z) * ImprovedValSetSingle.

(** [ImprovedValSet]: a single set, or a multi-set mapping byte ranges of
    the result to sets. *)
Inductive ImprovedValSet : Type :=
| IVSingle (s : ImprovedValSetSingle)
| IVMulti (m : list IVSRange).

(** What the value-propagation phase knows of an operand:
    [getIVOrSingleVal] yields either a value set or a single value, and
    [tryGetConstantInt] a constant. *)
Inductive OperandVal : Type :=
| OpIV (s : ImprovedValSetSingle)
| OpSingle (ty : ValSetType) (iv : ImprovedVal).

Record Operand : Type := mkOperand {
  opVal : OperandVal;
  opConstInt : option Z
}.

Definition unknownOperand : Operand :=
  {| opVal := OpIV {| SetType := ValSetTypeUnknown; Values := []; whollyUnknown := true |};
     opConstInt := None |}.

Definition tryGetConstantInt (op : Operand) : option Z := opConstInt op.

(** Modelled from the spec: [tryGetUniqueIV] is declared outside the source
    files; a speculated value is "known pointer target + offset, or
    unknown" (6).  It succeeds when the operand has one value: a single
    value, or a set of exactly one. *)
Definition tryGetUniqueIV (op : Operand) : option (ValSetType * ImprovedVal) :=
  match opVal op with
  | OpSingle ty iv => Some (ty, iv)
  | OpIV s =>
      match Values s with
      | [iv] => Some (SetType s, iv)
      | _ => None
      end
  end.

(** [getImprovedValSetSingle]: the operand's values as one set. *)
Definition getImprovedValSetSingle (op : Operand) : ImprovedValSetSingle :=
  match opVal op with
  | OpIV s => s
  | OpSingle ty iv => {| SetType := ty; Values := [iv]; whollyUnknown := false |}
  end.

Inductive InstKind : Type :=
| KAlloca | KLoad | KStore | KAtomicRMW | KAtomicCmpXchg | KFence
| KMemSet | KMemTransfer | KCall | KInvoke | KPHI | KOther.

#[global] Instance InstKind_eq_dec : EqDecision InstKind.
Proof. solve_decision. Defined.

(** [inst_is<CallInst>]: the memory intrinsics are calls. *)
Definition is_CallInst (k : InstKind) : bool :=
  match k with KMemSet | KMemTransfer | KCall => true | _ => false end.

Inductive specialfunctions : Type :=
| SF_MALLOC | SF_REALLOC | SF_FREE | SF_VASTART | SF_VACOPY | SF_SAMEOBJECT.

(** A [ShadowInstruction] with the facts the analysis asks of it.  Lookups
    in the pass-wide tables keyed by the instruction ([memcpyValues],
    [lockDomains], [pessimisticLocks], [SpecialFunctionMap],
    [yieldFunctions], the resolved file reads) are fields of the
    instruction. *)
Record ShadowInstruction : Type := mkSI {
  kind : InstKind;
  isThreadLocal : ThreadLocalState;
  PB : option ImprovedValSet;               (* SI.i.PB, possibly null *)
  readsMemoryDirectly : bool;
  hasOrderingConstraint : bool;
  isVolatile : bool;
  atomicOpIsSimple : bool;
  operands : list Operand;                  (* getOperand / getCallArgOperand *)
  self : Operand;                           (* ShadowValue(SI) *)
  typeStoreSize : Z;                        (* getTypeStoreSize(SI->getType()) *)
  valueStoreSize : Z;                       (* a store's value operand type *)
  allocStoreSize : Z;                       (* storeSize of the allocation SI makes *)
  calledFunction : option nat;              (* getCalledFunction(SI) *)
  specialFunction : option specialfunctions;
  readFile : option Z;                      (* tryGetReadFile(SI)->readSize *)
  isYieldFunction : bool;                   (* yieldFunctions.count(F) *)
  inPessimisticLocks : bool;                (* pessimisticLocks.count(CallI) *)
  lockDomain : option (list ShadowValue);   (* lockDomains.find(CallI) *)
  memcpyValues : option (list IVSRange);    (* memcpyValues.find(&SI) *)
  parentCertain : bool;                     (* parent->status == BBSTATUS_CERTAIN *)
  resultBase : option (ShadowValue * Z);    (* getBaseAndConstantOffset(SI) *)
  typeIsPointer : bool
}.

Definition getOperand (SI : ShadowInstruction) (i : nat) : Operand :=
  default unknownOperand (operands SI !! i).

Definition getCallArgOperand := getOperand.

(** A snapshot: per object the trusted byte ranges, and the flag. *)
Record TLLocalStore : Type := mkStore {
  store : gmap ShadowValue IntervalMap.t;
  allOthersClobbered : bool
}.

Definition getReadableStoreFor (s : TLLocalStore) (O : ShadowValue) :
  option IntervalMap.t := store s !! O.

(** [getEmptyMap] followed by setting the flag. *)
Definition emptyClobbered : TLLocalStore :=
  {| store := ∅; allOthersClobbered := true |}.

(** [ShadowBB::getWritableTLStore]: the object's map, created empty on
    first touch. *)
Definition getWritableTLStore (s : TLLocalStore) (O : ShadowValue) :
  TLLocalStore * IntervalMap.t :=
  match store s !! O with
  | Some M => (s, M)
  | None => ({| store := <[O := []]> (store s);
                allOthersClobbered := allOthersClobbered s |}, [])
  end.

Definition setMap (s : TLLocalStore) (O : ShadowValue) (M : IntervalMap.t) :
  TLLocalStore :=
  {| store := <[O := M]> (store s); allOthersClobbered := allOthersClobbered s |}.

(** What the block and its context carry through the walk. *)
Record TLState : Type := mkState {
  tlStore : TLLocalStore;
  barrierHere : bool;          (* IA->yieldState == BARRIER_HERE *)
  readsTentativeData : bool
}.

Definition withStore (st : TLState) (s : TLLocalStore) : TLState :=
  {| tlStore := s; barrierHere := barrierHere st;
     readsTentativeData := readsTentativeData st |}.

Definition markAllObjectsTentative (st : TLState) : TLState :=
  {| tlStore := emptyClobbered; barrierHere := true;
     readsTentativeData := readsTentativeData st |}.

(** *** [markGoodBytes] *)

(** The loop over the extents overlapping [start, stop): the gap to the
    right of each extent that stops early. *)
Fixpoint gapsFrom (stop : Z) (it : IntervalMap.t) : list (Z * Z) :=
  match it with
  | [] => []
  | (s, e) :: nextit =>
      if s <? stop then
        (if e <? stop then
           let gapend :=
             match nextit with
             | [] => stop
             | (ns, _) :: _ => Z.min stop ns
             end in
           if e =? gapend then [] else [(e, gapend)]
         else [])
        ++ gapsFrom stop nextit
      else []
  end.

Definition addRanges (start stop : Z) (M : option IntervalMap.t) : list (Z * Z) :=
  match M with
  | None => [(start, stop)]
  | Some M =>
      match find start M with
      | [] => [(start, stop)]
      | (s, e) :: rest =>
          if stop <=? s then [(start, stop)]
          else (if start <? s then [(start, s)] else [])
               ++ gapsFrom stop ((s, e) :: rest)
      end
  end.

(** The second half of [markGoodBytes], once the target is known: the
    ranges to add are computed on the readable map and, if there are any,
    inserted into the writable one. *)
Definition markRange (s : TLLocalStore) (O : ShadowValue) (start stop : Z) :
    TLLocalStore :=
  let add := addRanges start stop (getReadableStoreFor s O) in
  match add with
  | [] => s
  | _ =>
      let '(s', M) := getWritableTLStore s O in
      setMap s' O (TLMap.insertAll add M)
  end.

Definition markGoodBytes (GoodPtr : Operand) (Len : Z) (contextEnabled : bool)
    (s : TLLocalStore) (Offset : Z) : TLLocalStore :=
  if negb contextEnabled then s
  else if negb (allOthersClobbered s) then s
  else
    match tryGetUniqueIV GoodPtr with
    | None => s
    | Some (ty, PtrTarget) =>
        if negb (bool_decide (ty = ValSetTypePB)) then s
        else if isConstantGV (V PtrTarget) then s
        else
          let start := to_u64 (TL.Offset PtrTarget + Offset) in
          let stop := to_u64 (TL.Offset PtrTarget + Offset + Len) in
          markRange s (V PtrTarget) start stop
    end.

(** *** [updateTLStore] *)

(** The pass-wide settings: single-threaded mode, and the integer values
    of the [ThreadLocalState] enumerators, which are declared outside the
    source files and compared by [std::min] in [shouldCheckLoad]. *)
Record Globals : Type := mkGlobals {
  programSingleThreaded : bool;
  tlsValue : ThreadLocalState -> Z
}.

Definition walkCopyInst (CopyFrom CopyTo LenSV : Operand) (contextEnabled : bool)
    (s : TLLocalStore) : TLLocalStore :=
  match tryGetConstantInt LenSV with
  | None => s
  | Some Len =>
      let s1 := markGoodBytes CopyTo Len contextEnabled s 0 in
      markGoodBytes CopyFrom Len contextEnabled s1 0
  end.

(** "Mark whole object tentative": the object's map is made writable and
    cleared, for every global of the lock domain. *)
Definition clobberDomain (dom : list ShadowValue) (s : TLLocalStore) : TLLocalStore :=
  fold_left (fun acc g => setMap (fst (getWritableTLStore acc g)) g
                            (clear (snd (getWritableTLStore acc g))))
            dom s.

Definition updateTLStore (G : Globals) (SI : ShadowInstruction)
    (contextEnabled : bool) (st : TLState) : TLState :=
  let mark ptr len := withStore st (markGoodBytes ptr len contextEnabled (tlStore st) 0) in
  match kind SI with
  | KAlloca => mark (self SI) (allocStoreSize SI)
  | KLoad =>
      if (isVolatile SI || hasOrderingConstraint SI) && negb (atomicOpIsSimple SI)
      then markAllObjectsTentative st
      else mark (getOperand SI 0) (typeStoreSize SI)
  | KStore => mark (getOperand SI 1) (valueStoreSize SI)
  | k =>
      if readsMemoryDirectly SI && hasOrderingConstraint SI then
        if bool_decide (isThreadLocal SI = TLS_MUSTCHECK) && negb (atomicOpIsSimple SI)
        then markAllObjectsTentative st
        else mark (getOperand SI 0) (typeStoreSize SI)
      else if bool_decide (k = KFence) then markAllObjectsTentative st
      else if is_CallInst k || bool_decide (k = KInvoke) then
        if bool_decide (k = KMemSet) then
          match tryGetConstantInt (getCallArgOperand SI 2) with
          | None => st
          | Some MemSize => mark (getCallArgOperand SI 0) MemSize
          end
        else if bool_decide (k = KMemTransfer) then
          withStore st (walkCopyInst (getCallArgOperand SI 0) (getCallArgOperand SI 1)
                          (getCallArgOperand SI 2) contextEnabled (tlStore st))
        else
          match readFile SI with
          | Some readSize => mark (getCallArgOperand SI 1) readSize
          | None =>
              match specialFunction SI with
              | Some SF_REALLOC =>
                  let s1 := walkCopyInst (self SI) (getCallArgOperand SI 0)
                              (getCallArgOperand SI 1) contextEnabled (tlStore st) in
                  (* falls through to the allocation case *)
                  withStore st (markGoodBytes (self SI) (allocStoreSize SI)
                                  contextEnabled s1 0)
              | Some SF_MALLOC => mark (self SI) (allocStoreSize SI)
              | Some _ => st
              | None =>
                  if is_CallInst k &&
                     ((bool_decide (calledFunction SI = None)
                         && negb (programSingleThreaded G))
                      || isYieldFunction SI)
                  then
                    if inPessimisticLocks SI then st
                    else
                      match lockDomain SI with
                      | Some dom => withStore st (clobberDomain dom (tlStore st))
                      | None => markAllObjectsTentative st
                      end
                  else st
              end
          end
      else st
  end.

(** *** The classifier *)

Definition shouldCheckRead (Ptr : ImprovedVal) (Size : Z) (s : TLLocalStore) : bool :=
  if isNullPointer (V Ptr) then false
  else if isConstantGV (V Ptr) then false
  else
    match getReadableStoreFor s (V Ptr) with
    | None => allOthersClobbered s
    | Some M =>
        let coveredByMap :=
          match find (to_u64 (Offset Ptr)) M with
          | [] => false
          | (start, stop) :: _ =>
              (to_i64 start <=? Offset Ptr)
              && (to_i64 (Offset Ptr + to_i64 Size) <=? to_i64 stop)
          end in
        negb coveredByMap
    end.

(** [ReadPtr = Ptr; ReadPtr.Offset += off] *)
Definition addOffset (Ptr : ImprovedVal) (off : Z) : ImprovedVal :=
  {| V := V Ptr; Offset := to_i64 (Offset Ptr + off) |}.

(** The loop over the concrete values read: a check is needed as soon as
    one value that is not wholly unknown reads tentative bytes. *)
Definition anyRangeNeedsCheck (Ptr : ImprovedVal) (vals : list IVSRange)
    (s : TLLocalStore) : bool :=
  existsb (fun r : IVSRange =>
             negb (whollyUnknown (snd r))
             && shouldCheckRead (addOffset Ptr (fst (fst r)))
                  (to_u64 (snd (fst r) - fst (fst r))) s)
          vals.

Definition shouldCheckCopy (SI : ShadowInstruction) (PtrOp LenSV : Operand)
    (s : TLLocalStore) : ThreadLocalState :=
  match tryGetConstantInt LenSV, tryGetUniqueIV PtrOp with
  | Some Len, Some (ty, Ptr) =>
      if negb (bool_decide (ty = ValSetTypePB)) then TLS_NEVERCHECK
      else if Len =? 0 then TLS_NEVERCHECK
      else
        match memcpyValues SI with
        | None | Some [] => TLS_NEVERCHECK
        | Some vals =>
            if anyRangeNeedsCheck Ptr vals s then TLS_MUSTCHECK else TLS_NOCHECK
        end
  | _, _ => TLS_NEVERCHECK
  end.

Definition shouldCheckLoadFrom (SI : ShadowInstruction) (Ptr : ImprovedVal)
    (LoadSize : Z) (s : TLLocalStore) : ThreadLocalState :=
  if isNullOrConst (V Ptr) then TLS_NEVERCHECK
  else
    match PB SI with
    | Some (IVMulti vals) =>
        if anyRangeNeedsCheck Ptr vals s then TLS_MUSTCHECK else TLS_NOCHECK
    | _ => if shouldCheckRead Ptr LoadSize s then TLS_MUSTCHECK else TLS_NOCHECK
    end.

(** [std::min] on the enumerators. *)
Definition tlsMin (G : Globals) (a b : ThreadLocalState) : ThreadLocalState :=
  if tlsValue G b <? tlsValue G a then b else a.

(** The loop over the pointer's possible targets, which stops once the
    result is [TLS_MUSTCHECK]. *)
Fixpoint checkEachTarget (G : Globals) (SI : ShadowInstruction)
    (vals : list ImprovedVal) (LoadSize : Z) (s : TLLocalStore)
    (result : ThreadLocalState) : ThreadLocalState :=
  match vals with
  | [] => result
  | v :: vals' =>
      if bool_decide (result = TLS_MUSTCHECK) then result
      else checkEachTarget G SI vals' LoadSize s
             (tlsMin G (shouldCheckLoadFrom SI v LoadSize s) result)
  end.

(** [MemTransferInst], or a call to [va_copy] or [realloc]. *)
Definition isCopyInst (SI : ShadowInstruction) : bool :=
  if bool_decide (kind SI = KMemTransfer) then true
  else if is_CallInst (kind SI) then
    match specialFunction SI with
    | Some SF_VACOPY | Some SF_REALLOC => true
    | _ => false
    end
  else false.

Definition isSingleWhollyUnknown (pb : option ImprovedValSet) : bool :=
  match pb with
  | Some (IVSingle IVS) => whollyUnknown IVS
  | _ => false
  end.

Definition shouldCheckLoad (G : Globals) (SI : ShadowInstruction)
    (s : TLLocalStore) : ThreadLocalState :=
  if programSingleThreaded G then TLS_NEVERCHECK
  else if readsMemoryDirectly SI && negb (isCopyInst SI)
          && isSingleWhollyUnknown (PB SI)
  then TLS_NEVERCHECK
  else
    match kind SI with
    | KLoad =>
        if hasOrderingConstraint SI then TLS_MUSTCHECK
        else
          let LoadSize := typeStoreSize SI in
          match opVal (getOperand SI 0) with
          | OpIV IVS =>
              if whollyUnknown IVS || negb (bool_decide (SetType IVS = ValSetTypePB))
              then TLS_NEVERCHECK
              else checkEachTarget G SI (Values IVS) LoadSize s TLS_NEVERCHECK
          | OpSingle ty iv =>
              if negb (bool_decide (ty = ValSetTypePB)) then TLS_NEVERCHECK
              else shouldCheckLoadFrom SI iv LoadSize s
          end
    | KMemTransfer =>
        shouldCheckCopy SI (getCallArgOperand SI 1) (getCallArgOperand SI 2) s
    | KAtomicRMW | KAtomicCmpXchg => TLS_MUSTCHECK
    | _ =>
        (* the realloc instruction *)
        shouldCheckCopy SI (getCallArgOperand SI 0) (getCallArgOperand SI 1) s
    end.

(** *** Availability patching *)

(** The materialization registry, as far as the patching reads and writes
    it: per allocation whether its [allocValue] is an instruction, whether
    it [isCommitted] and whether it has a [committedVal]; the same per file
    descriptor. *)
Record AllocData : Type := mkAD {
  allocValueIsInst : bool;
  AD_isCommitted : bool;
  AD_hasCommittedVal : bool
}.

Record FDGlobalState : Type := mkFDGS {
  FD_isCommitted : bool;
  FD_hasCommittedVal : bool
}.

Record Registry : Type := mkRegistry {
  getAllocData : ShadowValue -> AllocData;
  fds : nat -> FDGlobalState
}.

Definition setIsThreadLocal (SI : ShadowInstruction) (t : ThreadLocalState) :
  ShadowInstruction :=
  {| kind := kind SI; isThreadLocal := t; PB := PB SI;
     readsMemoryDirectly := readsMemoryDirectly SI;
     hasOrderingConstraint := hasOrderingConstraint SI;
     isVolatile := isVolatile SI; atomicOpIsSimple := atomicOpIsSimple SI;
     operands := operands SI; self := self SI;
     typeStoreSize := typeStoreSize SI; valueStoreSize := valueStoreSize SI;
     allocStoreSize := allocStoreSize SI; calledFunction := calledFunction SI;
     specialFunction := specialFunction SI; readFile := readFile SI;
     isYieldFunction := isYieldFunction SI;
     inPessimisticLocks := inPessimisticLocks SI; lockDomain := lockDomain SI;
     memcpyValues := memcpyValues SI; parentCertain := parentCertain SI;
     resultBase := resultBase SI; typeIsPointer := typeIsPointer SI |}.

Definition setPB (SI : ShadowInstruction) (pb : option ImprovedValSet) :
  ShadowInstruction :=
  {| kind := kind SI; isThreadLocal := isThreadLocal SI; PB := pb;
     readsMemoryDirectly := readsMemoryDirectly SI;
     hasOrderingConstraint := hasOrderingConstraint SI;
     isVolatile := isVolatile SI; atomicOpIsSimple := atomicOpIsSimple SI;
     operands := operands SI; self := self SI;
     typeStoreSize := typeStoreSize SI; valueStoreSize := valueStoreSize SI;
     allocStoreSize := allocStoreSize SI; calledFunction := calledFunction SI;
     specialFunction := specialFunction SI; readFile := readFile SI;
     isYieldFunction := isYieldFunction SI;
     inPessimisticLocks := inPessimisticLocks SI; lockDomain := lockDomain SI;
     memcpyValues := memcpyValues SI; parentCertain := parentCertain SI;
     resultBase := resultBase SI; typeIsPointer := typeIsPointer SI |}.

Definition setMemcpyValues (SI : ShadowInstruction) (v : option (list IVSRange)) :
  ShadowInstruction :=
  {| kind := kind SI; isThreadLocal := isThreadLocal SI; PB := PB SI;
     readsMemoryDirectly := readsMemoryDirectly SI;
     hasOrderingConstraint := hasOrderingConstraint SI;
     isVolatile := isVolatile SI; atomicOpIsSimple := atomicOpIsSimple SI;
     operands := operands SI; self := self SI;
     typeStoreSize := typeStoreSize SI; valueStoreSize := valueStoreSize SI;
     allocStoreSize := allocStoreSize SI; calledFunction := calledFunction SI;
     specialFunction := specialFunction SI; readFile := readFile SI;
     isYieldFunction := isYieldFunction SI;
     inPessimisticLocks := inPessimisticLocks SI; lockDomain := lockDomain SI;
     memcpyValues := v; parentCertain := parentCertain SI;
     resultBase := resultBase SI; typeIsPointer := typeIsPointer SI |}.

(** One round of the loop of [squashUnavailableObject]: does the value name
    an allocation or descriptor that was committed and has no committed
    value? *)
Definition isUnavailable (R : Registry) (ty : ValSetType) (IV : ImprovedVal) : bool :=
  match ty with
  | ValSetTypePB =>
      isPtrIdx (V IV) && (getFrameNo (V IV) =? -1)
      && allocValueIsInst (getAllocData R (V IV))
      && AD_isCommitted (getAllocData R (V IV))
      && negb (AD_hasCommittedVal (getAllocData R (V IV)))
  | ValSetTypeFD =>
      match V IV with
      | SV_FdIdx fd => FD_isCommitted (fds R fd) && negb (FD_hasCommittedVal (fds R fd))
      | _ => false
      end
  | _ => false
  end.

(** [squashUnavailableObject]: [None] is a failed [release_assert];
    otherwise whether the value was squashed.  The write of "unknown" to the
    symbolic memory ([executeWriteInst]) belongs to the value-propagation
    engine and is not part of the snapshot. *)
Definition squashUnavailableObject (R : Registry) (IVS : ImprovedValSetSingle)
    (inLoopAnalyser : bool) (ReadPtr : Operand) : option bool :=
  if existsb (isUnavailable R (SetType IVS)) (Values IVS) then
    if inLoopAnalyser then None
    else
      let ReadP := getImprovedValSetSingle ReadPtr in
      if bool_decide (SetType ReadP = ValSetTypePB)
         && negb (bool_decide (Values ReadP = []))
      then Some true else None
  else Some false.

(** The loop over the ranges of a multi-valued result or of the values a
    copy read.  [WritePtr], when given, is the copy destination, asserted
    to be a pointer set as well. *)
Fixpoint squashRanges (R : Registry) (inLoopAnalyser : bool) (ReadPtr : Operand)
    (WritePtr : option Operand) (vals : list IVSRange) :
    option (list IVSRange * bool) :=
  match vals with
  | [] => Some ([], false)
  | r :: rest =>
      match squashUnavailableObject R (snd r) inLoopAnalyser ReadPtr with
      | None => None
      | Some sq =>
          let destOk :=
            match WritePtr with
            | None => true
            | Some wp =>
                bool_decide (SetType (getImprovedValSetSingle wp) = ValSetTypePB)
                && negb (bool_decide (Values (getImprovedValSetSingle wp) = []))
            end in
          if sq && negb destOk then None
          else
            match squashRanges R inLoopAnalyser ReadPtr WritePtr rest with
            | None => None
            | Some (rest', any) =>
                Some ((fst r, if sq then setOverdef (snd r) else snd r) :: rest',
                      sq || any)
            end
      end
  end.

Definition getCopySource (SI : ShadowInstruction) : Operand :=
  if bool_decide (kind SI = KMemTransfer) then getCallArgOperand SI 1
  else if is_CallInst (kind SI) then
    match calledFunction SI, specialFunction SI with
    | Some _, Some SF_VACOPY => getCallArgOperand SI 1
    | Some _, Some SF_REALLOC => getCallArgOperand SI 0
    | _, _ => unknownOperand
    end
  else unknownOperand.

Definition getCopyDest (SI : ShadowInstruction) : Operand :=
  if bool_decide (kind SI = KMemTransfer) then getCallArgOperand SI 0
  else if is_CallInst (kind SI) then
    match calledFunction SI, specialFunction SI with
    | Some _, Some SF_VACOPY => getCallArgOperand SI 0
    | Some _, Some SF_REALLOC => self SI
    | _, _ => unknownOperand
    end
  else unknownOperand.

(** [squashUnavailableObjects(SI, inLoopAnalyser)]: a squashed instruction
    is "no longer checkable" and becomes [TLS_NEVERCHECK]. *)
Definition squashUnavailableObjects (R : Registry) (SI : ShadowInstruction)
    (inLoopAnalyser : bool) : option ShadowInstruction :=
  let squashed (SI' : ShadowInstruction) (sq : bool) :=
    if sq then setIsThreadLocal SI' TLS_NEVERCHECK else SI' in
  if bool_decide (kind SI = KLoad) || bool_decide (kind SI = KAtomicCmpXchg) then
    match PB SI with
    | None => Some SI
    | Some (IVSingle IVS) =>
        match squashUnavailableObject R IVS inLoopAnalyser (getOperand SI 0) with
        | None => None
        | Some sq =>
            Some (squashed (if sq then setPB SI (Some (IVSingle (setOverdef IVS)))
                            else SI) sq)
        end
    | Some (IVMulti vals) =>
        match squashRanges R inLoopAnalyser (getOperand SI 0) None vals with
        | None => None
        | Some (vals', sq) => Some (squashed (setPB SI (Some (IVMulti vals'))) sq)
        end
    end
  else
    match memcpyValues SI with
    | None => Some SI
    | Some vals =>
        match squashRanges R inLoopAnalyser (getCopySource SI)
                (Some (getCopyDest SI)) vals with
        | None => None
        | Some (vals', sq) => Some (squashed (setMemcpyValues SI (Some vals')) sq)
        end
    end.

Definition setAllocData (R : Registry) (O : ShadowValue) (AD : AllocData) : Registry :=
  {| getAllocData := fun v => if bool_decide (v = O) then AD else getAllocData R v;
     fds := fds R |}.

Definition setFD (R : Registry) (fd : nat) (S : FDGlobalState) : Registry :=
  {| getAllocData := getAllocData R;
     fds := fun n => if bool_decide (n = fd) then S else fds R n |}.

(** [replaceUnavailableObjects]: a read proven safe steps up as the new
    canonical reference of an allocation or descriptor that lacks one. *)
Definition replaceUnavailableObjects (R : Registry) (SI : ShadowInstruction)
    (inLoopAnalyser : bool) : option Registry :=
  if inLoopAnalyser then Some R
  else if bool_decide (kind SI = KLoad) || is_CallInst (kind SI)
          || bool_decide (kind SI = KInvoke) then
    if negb (parentCertain SI) then Some R
    else
      match resultBase SI with
      | Some (Base, _) =>
          if isPtrIdx Base && (getFrameNo Base =? -1) then
            let AD := getAllocData R Base in
            if AD_isCommitted AD && negb (AD_hasCommittedVal AD) then
              if typeIsPointer SI then
                Some (setAllocData R Base
                        {| allocValueIsInst := true; AD_isCommitted := false;
                           AD_hasCommittedVal := AD_hasCommittedVal AD |})
              else None
            else Some R
          else Some R
      | None =>
          match PB SI with
          | Some (IVSingle IVS) =>
              match Values IVS with
              | [iv] =>
                  match V iv with
                  | SV_FdIdx fd =>
                      if bool_decide (SetType IVS = ValSetTypeFD)
                         && FD_isCommitted (fds R fd)
                         && negb (FD_hasCommittedVal (fds R fd))
                      then Some (setFD R fd
                                   {| FD_isCommitted := false;
                                      FD_hasCommittedVal := FD_hasCommittedVal (fds R fd) |})
                      else Some R
                  | _ => Some R
                  end
              | _ => Some R
              end
          | _ => Some R
          end
      end
  else Some R.

(** *** [TLAnalyseInstruction] *)

Definition setReadsTentativeData (st : TLState) : TLState :=
  {| tlStore := tlStore st; barrierHere := barrierHere st;
     readsTentativeData := true |}.

Definition TLAnalyseInstruction (G : Globals) (R : Registry)
    (SI : ShadowInstruction) (commitDisabledHere secondPass inLoopAnalyser : bool)
    (st : TLState) : option (ShadowInstruction * TLState * Registry) :=
  if readsMemoryDirectly SI then
    if secondPass && bool_decide (isThreadLocal SI = TLS_MUSTCHECK)
    then Some (SI, st, R)
    else
      let SI1 :=
        if bool_decide (isThreadLocal SI = TLS_NEVERCHECK) then SI
        else setIsThreadLocal SI (shouldCheckLoad G SI (tlStore st)) in
      if bool_decide (isThreadLocal SI1 = TLS_MUSTCHECK) then
        match squashUnavailableObjects R SI1 inLoopAnalyser with
        | None => None
        | Some SI2 =>
            Some (SI2,
                  updateTLStore G SI2 (negb commitDisabledHere)
                    (setReadsTentativeData st),
                  R)
        end
      else
        match replaceUnavailableObjects R SI1 inLoopAnalyser with
        | None => None
        | Some R' => Some (SI1, updateTLStore G SI1 (negb commitDisabledHere) st, R')
        end
  else if is_CallInst (kind SI) || bool_decide (kind SI = KInvoke) then
    match replaceUnavailableObjects R SI inLoopAnalyser with
    | None => None
    | Some R' => Some (SI, updateTLStore G SI (negb commitDisabledHere) st, R')
    end
  else if bool_decide (isThreadLocal SI = TLS_NEVERCHECK) then Some (SI, st, R)
  else Some (SI, updateTLStore G SI (negb commitDisabledHere) st, R).

(** *** The walk of a loop that is not fully peeled *)

(** [findTentativeLoadsInLoop] over a body whose blocks form a chain, without
    nested loops or calls into expanded functions: every block takes over
    the snapshot its only predecessor leaves, so the walk is the instruction
    loop over the instructions of the blocks in walk order, each analysed in
    turn with the state handed on.  The early return of a context already
    analysed, the merge at a block with several predecessors and the path
    conditions of a block are not part of it. *)
Fixpoint findTentativeLoadsInLoop (G : Globals) (insts : list ShadowInstruction)
    (commitDisabledHere secondPass : bool) (st : TLState) (R : Registry) :
    option (list ShadowInstruction * TLState * Registry) :=
  match insts with
  | [] => Some ([], st, R)
  | SI :: rest =>
      match TLAnalyseInstruction G R SI commitDisabledHere secondPass false st with
      | None => None
      | Some (SI', st', R') =>
          match findTentativeLoadsInLoop G rest commitDisabledHere secondPass st' R' with
          | None => None
          | Some (rest', st'', R'') => Some (SI' :: rest', st'', R'')
          end
      end
  end.

(** What [findTentativeLoadsInUnboundedLoop] leaves behind: the snapshot
    the header is given in each phase, the instructions after phase 1 (when
    it runs) and at the end, and the state that leaves the latch. *)
Record LoopWalk : Type := mkLoopWalk {
  headerPhase1 : option TLLocalStore;
  instsPhase1 : option (list ShadowInstruction);
  headerFinal : TLLocalStore;
  instsFinal : list ShadowInstruction;
  latchFinal : TLState;
  registryFinal : Registry
}.

Definition findTentativeLoadsInUnboundedLoop (G : Globals)
    (latchEdgeDead : bool) (body : list ShadowInstruction)
    (commitDisabledHere secondPass : bool) (preheader : TLState) (R : Registry) :
    option LoopWalk :=
  (* Give header its store: *)
  let header := preheader in
  if negb latchEdgeDead then
    if negb secondPass then
      match findTentativeLoadsInLoop G body commitDisabledHere false header R with
      | None => None
      | Some (body1, latch1, R1) =>
          (* BB->tlStore = getBB(UL->latchIdx)->tlStore *)
          let header2 := latch1 in
          match findTentativeLoadsInLoop G body1 commitDisabledHere true header2 R1 with
          | None => None
          | Some (body2, latch2, R2) =>
              Some {| headerPhase1 := Some (tlStore header);
                      instsPhase1 := Some body1;
                      headerFinal := tlStore header2;
                      instsFinal := body2;
                      latchFinal := latch2;
                      registryFinal := R2 |}
          end
      end
    else
      match findTentativeLoadsInLoop G body commitDisabledHere true header R with
      | None => None
      | Some (body2, latch2, R2) =>
          Some {| headerPhase1 := None; instsPhase1 := None;
                  headerFinal := tlStore header; instsFinal := body2;
                  latchFinal := latch2; registryFinal := R2 |}
      end
  else
    match findTentativeLoadsInLoop G body commitDisabledHere secondPass header R with
    | None => None
    | Some (body2, latch2, R2) =>
        Some {| headerPhase1 := None; instsPhase1 := None;
                headerFinal := tlStore header; instsFinal := body2;
                latchFinal := latch2; registryFinal := R2 |}
    end.

(** *** Trust *)

(** A byte of an object is trusted in a snapshot when it lies in a range
    listed for the object, or the object is absent and the snapshot is not
    clobbered; it is tentative otherwise. *)
Definition trusted (s : TLLocalStore) (O : ShadowValue) (x : Z) : Prop :=
  match store s !! O with
  | Some M => covers M x
  | None => allOthersClobbered s = false
  end.

Definition trustedb (s : TLLocalStore) (O : ShadowValue) (x : Z) : bool :=
  match store s !! O with
  | Some M => coversb M x
  | None => negb (allOthersClobbered s)
  end.

Definition tentative (s : TLLocalStore) (O : ShadowValue) (x : Z) : Prop :=
  trustedb s O x = false.

(** Every listed byte-range set is well formed. *)
Definition wfStore (s : TLLocalStore) : Prop :=
  forall O M, store s !! O = Some M -> wf M.

End TL.

(** ** Merging snapshots *)

Module Merge.
Import IntervalMap TLMap TL.

(** Modelled from the spec: [TLMerger::doMerge], which drives
    [mergeStores] over the objects of the incoming snapshots, is not among
    the source files.  "Output: one snapshot where, per object, a byte is
    marked trusted only if it is trusted on every incoming edge (set
    intersection); allOthersClobbered of the result is the logical OR
    across inputs (any untrusted-by-default edge makes an absent object
    untrusted in the result)."  For an object listed on both sides the
    byte ranges are merged by [mergeStores]; an object listed on one side
    only keeps its ranges when the other side trusts absent objects, and
    loses them all otherwise. *)
Definition mergeObject (fromClobbered toClobbered : bool)
    (mergeFrom mergeTo : option IntervalMap.t) : option IntervalMap.t :=
  match mergeFrom, mergeTo with
  | Some f, Some t => Some (mergeStores f t)
  | Some f, None => if toClobbered then Some [] else Some f
  | None, Some t => if fromClobbered then Some [] else Some t
  | None, None => None
  end.

Definition mergeSnapshots (mergeFrom mergeTo : TLLocalStore) : TLLocalStore :=
  {| store := merge (mergeObject (allOthersClobbered mergeFrom)
                                 (allOthersClobbered mergeTo))
                    (store mergeFrom) (store mergeTo);
     allOthersClobbered := allOthersClobbered mergeFrom || allOthersClobbered mergeTo |}.

(** The merge over all incoming snapshots: the first one is the target and
    the others are merged into it in turn; there is no result without an
    input. *)
Definition doMerge (inputs : list TLLocalStore) : option TLLocalStore :=
  match inputs with
  | [] => None
  | first :: others =>
      Some (fold_left (fun mergeTo mergeFrom => mergeSnapshots mergeFrom mergeTo)
                      others first)
  end.

(** One step of the fold of [doMerge]. *)
Definition mergeInto (mergeTo mergeFrom : TLLocalStore) : TLLocalStore :=
  mergeSnapshots mergeFrom mergeTo.

End Merge.

(** ** The dead-store prover *)

Module DSE.

Inductive WalkInstructionResult : Type :=
| WIRContinue
| WIRStopThisPath
| WIRStopWholeWalk.

#[global] Instance WalkInstructionResult_eq_dec : EqDecision WalkInstructionResult.
Proof. solve_decision. Defined.

Inductive SVAAResult : Type :=
| SVNoAlias
| SVMayAlias
| SVPartialAlias
| SVMustAlias.

#[global] Instance SVAAResult_eq_dec : EqDecision SVAAResult.
Proof. solve_decision. Defined.

(** [AliasAnalysis::UnknownSize] is [~UINT64_C(0)]. *)
Definition UnknownSize : Z := two64 - 1.

(** A value as the prover sees it: its identity, whether it is an
    [AllocaInst] or the result of a malloc-like call, and the function root
    of the context it lives in. *)
Record Value : Type := mkValue {
  vid : nat;
  isAlloca : bool;
  isMallocLike : bool;
  functionRoot : nat
}.

#[global] Instance Value_eq_dec : EqDecision Value.
Proof. solve_decision. Defined.

Inductive InstKind : Type :=
| KMemTransfer      (* a MemIntrinsic that is a MemTransferInst *)
| KMemSet           (* any other MemIntrinsic *)
| KCall
| KLoad
| KStore
| KTerminator
| KOther.

#[global] Instance InstKind_eq_dec : EqDecision InstKind.
Proof. solve_decision. Defined.

(** An instruction met by the forward walk, with what the walk asks of
    it. *)
Record Inst : Type := mkInst {
  kind : InstKind;
  ctx : nat;                      (* the context [this] the instruction is walked in *)
  args : list Value;              (* getOperand / getCallArgOperand *)
  constSize : option Z;           (* the constant size operand of a MemIntrinsic *)
  unusedWriter : bool;            (* dieStatus & INSTSTATUS_UNUSED_WRITER *)
  resolvedRead : option Z;        (* resolvedReadCalls: readSize *)
  accessSize : Z;                 (* type store size of a load or a stored value *)
  mayBeReplaced : bool;
  ctxAvailable : bool;            (* isAvailable() *)
  resultIsPtrOrFd : bool;         (* i.PB.Type is ValSetTypePB or ValSetTypeFD *)
  resultBaseAvailable : bool;     (* no context, or isAvailableFromCtx *)
  numSuccessors : nat;
  isFreeCall : bool;
  callUsesPtr : bool;             (* getCSModRefInfo(...) & Ref *)
  expanded : bool                 (* the call has an InlineAttempt *)
}.

Definition invalidValue : Value :=
  {| vid := 0; isAlloca := false; isMallocLike := false; functionRoot := 0 |}.

Definition getOperand (I : Inst) (i : nat) : Value := default invalidValue (args I !! i).
Definition getCallArgOperand := getOperand.

Section Prover.

(** The answers of the alias analysis and of the value-propagation
    engine, which live outside the prover. *)
Variable aliasSVs : Value -> Z -> Value -> Z -> SVAAResult.
Variable getBaseAndConstantOffset : Value -> option (Value * Z).
Variable getBaseObject : Value -> option Value.
(** [GetDefinedRange]: the sub-range [FirstDef, FirstNotDef) of the
    candidate's bytes that a write of [WriteSize] bytes at
    [WriteBase + WriteOffset] defines. *)
Variable GetDefinedRange :
  Value -> Z -> Z -> Value -> Z -> Z -> option (Z * Z).

(** [copyContext]: a null context stays null. *)
Definition copyContext (V : option (list bool)) : option (list bool) :=
  match V with
  | Some Ctx => Some Ctx
  | None => None
  end.

Definition isLifetimeEnd (Alloc : Value) (I : Inst) : bool :=
  if isAlloca Alloc then
    if bool_decide (kind I = KTerminator)
    then bool_decide (numSuccessors I = 0%nat)
         && bool_decide (functionRoot Alloc = ctx I)
    else false
  else if isMallocLike Alloc then
    if isFreeCall I then
      match getBaseObject (getCallArgOperand I 0) with
      | Some FreeBase => bool_decide (FreeBase = Alloc)
      | None => false
      end
    else false
  else false.

(** The marking loop of [DSEHandleWrite]:
    [for(i = 0; i < Size && Finished; ++i)].  [n] counts the rounds
    left; the result is the bitmap and [Finished]. *)
Fixpoint markLoop (n : nat) (i FirstDef FirstNotDef : Z) (deadBytes : list bool) :
    list bool * bool :=
  match n with
  | O => (deadBytes, true)
  | S n' =>
      if (FirstDef <=? i) && (i <? FirstNotDef) then
        markLoop n' (i + 1) FirstDef FirstNotDef (<[Z.to_nat i := true]> deadBytes)
      else if negb (default false (deadBytes !! Z.to_nat i)) then
        (* Finished = false ends the loop *)
        (deadBytes, false)
      else markLoop n' (i + 1) FirstDef FirstNotDef deadBytes
  end.

(** [DSEHandleWrite]: the bitmap after the call and whether the path is
    finished. *)
Definition DSEHandleWrite (Writer : Value) (WriteSize : Z) (StorePtr : Value)
    (Size : Z) (StoreBase : Value) (StoreOffset : Z)
    (deadBytes : option (list bool)) : option (list bool) * bool :=
  match deadBytes with
  | None => (None, false)
  | Some bits =>
      let R := aliasSVs Writer WriteSize StorePtr Size in
      match getBaseAndConstantOffset Writer with
      | None => (Some bits, false)
      | Some (WriteBase, WriteOffset) =>
          let '(FirstDef, FirstNotDef) :=
            match R with
            | SVMayAlias | SVPartialAlias =>
                match GetDefinedRange StoreBase StoreOffset Size
                        WriteBase WriteOffset WriteSize with
                | Some r => r
                | None => (0, 0)
                end
            | SVMustAlias => (0, Z.min WriteSize Size)
            | SVNoAlias => (0, 0)
            end in
          if negb (FirstDef =? FirstNotDef) then
            let '(bits', Finished) :=
              markLoop (Z.to_nat Size) 0 FirstDef FirstNotDef bits in
            (Some bits', Finished)
          else (Some bits, false)
      end
  end.

Definition stopOrContinue (r : option (list bool) * bool) :
    WalkInstructionResult * option (list bool) :=
  (if snd r then WIRStopThisPath else WIRContinue, fst r).

Definition noteBytesWrittenBy (I : Inst) (StorePtr StoreBase : Value)
    (StoreOffset Size : Z) (writtenBytes : option (list bool)) :
    WalkInstructionResult * option (list bool) :=
  if isLifetimeEnd StoreBase I then (WIRStopThisPath, writtenBytes)
  else
    match kind I with
    | KMemTransfer | KMemSet =>
        let MISize := default UnknownSize (constSize I) in
        if bool_decide (kind I = KMemTransfer) && negb (unusedWriter I)
           && negb (bool_decide (aliasSVs (getCallArgOperand I 1) MISize StorePtr Size
                                 = SVNoAlias))
        then (WIRStopWholeWalk, writtenBytes)
        else if negb (MISize =? UnknownSize) then
          stopOrContinue (DSEHandleWrite (getCallArgOperand I 0) MISize StorePtr Size
                            StoreBase StoreOffset writtenBytes)
        else (WIRContinue, writtenBytes)
    | KCall =>
        match resolvedRead I with
        | Some readSize =>
            stopOrContinue (DSEHandleWrite (getCallArgOperand I 1) readSize StorePtr
                              Size StoreBase StoreOffset writtenBytes)
        | None => (WIRContinue, writtenBytes)
        end
    | KLoad =>
        if mayBeReplaced I && ctxAvailable I
           && (negb (resultIsPtrOrFd I) || resultBaseAvailable I)
        then (WIRContinue, writtenBytes)
        else if negb (bool_decide (aliasSVs (getOperand I 0) (accessSize I) StorePtr Size
                                   = SVNoAlias))
        then (WIRStopWholeWalk, writtenBytes)
        else (WIRContinue, writtenBytes)
    | KStore =>
        stopOrContinue (DSEHandleWrite (getOperand I 1) (accessSize I) StorePtr Size
                          StoreBase StoreOffset writtenBytes)
    | _ => (WIRContinue, writtenBytes)
    end.

(** The walker of one candidate write. *)
Record WriterUsedWalker : Type := mkWalker {
  StorePtr : Value;
  StoreBase : Value;
  StoreOffset : Z;
  StoreSize : Z;
  writeUsed : bool
}.

Definition setWriteUsed (W : WriterUsedWalker) : WriterUsedWalker :=
  {| StorePtr := StorePtr W; StoreBase := StoreBase W;
     StoreOffset := StoreOffset W; StoreSize := StoreSize W; writeUsed := true |}.

Definition walkInstruction (W : WriterUsedWalker) (I : Inst)
    (Ctx : option (list bool)) :
    WriterUsedWalker * WalkInstructionResult * option (list bool) :=
  let '(Res, Ctx') :=
    noteBytesWrittenBy I (StorePtr W) (StoreBase W) (StoreOffset W) (StoreSize W) Ctx in
  (if bool_decide (Res = WIRStopWholeWalk) then setWriteUsed W else W, Res, Ctx').

Definition shouldEnterCall (W : WriterUsedWalker) (CI : Inst) : bool := callUsesPtr CI.

Definition blockedByUnexpandedCall (W : WriterUsedWalker) : WriterUsedWalker * bool :=
  (setWriteUsed W, true).

(** What lies ahead of a write: the instructions of a block, forks to
    the successors of a block, and calls, which the walk either enters
    ([entered]: the callee's instructions and then what follows the call)
    or steps over ([skipped]). *)
#[warnings="-register-all"]
Inductive Path : Type :=
| PEnd
| PStep (I : Inst) (rest : Path)
| PCall (CI : Inst) (entered skipped : Path)
| PFork (succs : list Path).

(** The successors of a block are walked one after the other, each
    with its own copy of the context, until one of them stops the whole
    walk. *)
Definition walkSuccs
    (walk : WriterUsedWalker -> Path -> WriterUsedWalker * bool) :
    WriterUsedWalker -> list Path -> WriterUsedWalker * bool :=
  fix go (W : WriterUsedWalker) (ps : list Path) : WriterUsedWalker * bool :=
    match ps with
    | [] => (W, false)
    | p :: ps' =>
        match walk W p with
        | (W', true) => (W', true)
        | (W', false) => go W' ps'
        end
    end.

(** Modelled from the spec: [ForwardIAWalker::walk], the driver of the
    forward search, is not among the source files.  "run a forward
    reachability search starting immediately after W, threading a
    DSEContext bitmap along each path"; "A call is entered only if a
    conservative effect query proves it may reference W's target address;
    otherwise it is skipped entirely without descending; an opaque call
    that cannot be so proven safe aborts the search"; the context is
    cloned "at path forks", and "once one path disproves a property --
    remaining paths need not be visited".  The driver reaches the walker
    through its callbacks only, and [writeUsed] is assigned nowhere but in
    [walkInstruction] and [blockedByUnexpandedCall]: a path on which
    nothing is left to walk ends with the walker as it is.  The result is
    the walker (with [writeUsed]) and whether the whole walk was stopped. *)
Fixpoint walkFrom (W : WriterUsedWalker) (p : Path) (Ctx : option (list bool)) :
    WriterUsedWalker * bool :=
  match p with
  | PEnd => (W, false)
  | PStep SI rest =>
      match walkInstruction W SI Ctx with
      | (W', WIRContinue, Ctx') => walkFrom W' rest Ctx'
      | (W', WIRStopThisPath, _) => (W', false)
      | (W', WIRStopWholeWalk, _) => (W', true)
      end
  | PCall CI entered skipped =>
      match walkInstruction W CI Ctx with
      | (W', WIRContinue, Ctx') =>
          if shouldEnterCall W' CI then
            if expanded CI then walkFrom W' entered Ctx'
            else blockedByUnexpandedCall W'
          else walkFrom W' skipped Ctx'
      | (W', WIRStopThisPath, _) => (W', false)
      | (W', WIRStopWholeWalk, _) => (W', true)
      end
  | PFork succs =>
      walkSuccs (fun W' p' => walkFrom W' p' (copyContext Ctx)) W succs
  end.

(** No path ahead aborts the search.  Every path is followed to its
    end, whatever happens on the others: a path aborts when an instruction
    on it stops the whole walk ([writeUsed] is raised in [walkInstruction])
    or a call it has to enter is not expanded ([writeUsed] is raised in
    [blockedByUnexpandedCall]); it does not when it is stopped as dead, or
    when nothing is left to walk on it. *)
Fixpoint noPathAborts (W : WriterUsedWalker) (p : Path)
    (Ctx : option (list bool)) : bool :=
  match p with
  | PEnd => true
  | PStep SI rest =>
      match noteBytesWrittenBy SI (StorePtr W) (StoreBase W) (StoreOffset W)
              (StoreSize W) Ctx with
      | (WIRContinue, Ctx') => noPathAborts W rest Ctx'
      | (WIRStopThisPath, _) => true
      | (WIRStopWholeWalk, _) => false
      end
  | PCall CI entered skipped =>
      match noteBytesWrittenBy CI (StorePtr W) (StoreBase W) (StoreOffset W)
              (StoreSize W) Ctx with
      | (WIRContinue, Ctx') =>
          if callUsesPtr CI then
            if expanded CI then noPathAborts W entered Ctx' else false
          else noPathAborts W skipped Ctx'
      | (WIRStopThisPath, _) => true
      | (WIRStopWholeWalk, _) => false
      end
  | PFork succs =>
      forallb (fun p' => noPathAborts W p' (copyContext Ctx)) succs
  end.

(** Modelled from the spec: "if all bits become set, that path succeeds
    (dead on this path)"; "If I marks the end of W's object's lifetime
    ... that path succeeds without requiring full coverage"; "Writes of
    unknown size never reach full coverage and can only succeed via
    lifetime end"; "W is eliminated only if every forward path succeeds
    with none aborting".  A path succeeds when an instruction on it stops
    it as dead; a path on which nothing is left to walk has not
    succeeded, and neither has one that aborts. *)
Fixpoint everyPathSucceeds (W : WriterUsedWalker) (p : Path)
    (Ctx : option (list bool)) : bool :=
  match p with
  | PEnd => false
  | PStep SI rest =>
      match noteBytesWrittenBy SI (StorePtr W) (StoreBase W) (StoreOffset W)
              (StoreSize W) Ctx with
      | (WIRContinue, Ctx') => everyPathSucceeds W rest Ctx'
      | (WIRStopThisPath, _) => true
      | (WIRStopWholeWalk, _) => false
      end
  | PCall CI entered skipped =>
      match noteBytesWrittenBy CI (StorePtr W) (StoreBase W) (StoreOffset W)
              (StoreSize W) Ctx with
      | (WIRContinue, Ctx') =>
          if callUsesPtr CI then
            if expanded CI then everyPathSucceeds W entered Ctx' else false
          else everyPathSucceeds W skipped Ctx'
      | (WIRStopThisPath, _) => true
      | (WIRStopWholeWalk, _) => false
      end
  | PFork succs =>
      negb (bool_decide (length succs = 0%nat))
      && forallb (fun p' => everyPathSucceeds W p' (copyContext Ctx)) succs
  end.

(** The context a walk starts with: a bitmap of [Size] unset bits, or a
    null pointer "to indicate that the store size is unknown". *)
Definition initialContext (Size : Z) : option (list bool) :=
  if negb (Size =? UnknownSize)
  then Some (replicate (Z.to_nat Size) false)
  else None.

Definition newWalker (StorePtr StoreBase : Value) (StoreOffset Size : Z) :
    WriterUsedWalker :=
  {| StorePtr := StorePtr; StoreBase := StoreBase;
     StoreOffset := StoreOffset; StoreSize := Size; writeUsed := false |}.

(** [tryKillWriterTo]: the verdict and whether the writer's
    [INSTSTATUS_UNUSED_WRITER] bit is set on return. *)
Definition tryKillWriterTo (ahead : Path) (StorePtr : Value) (Size : Z) :
    bool * bool :=
  let initialCtx := initialContext Size in
  match getBaseAndConstantOffset StorePtr with
  | None => (false, false)
  | Some (StoreBase, StoreOffset) =>
      let Walk := newWalker StorePtr StoreBase StoreOffset Size in
      let '(Walk', _) := walkFrom Walk ahead initialCtx in
      (negb (writeUsed Walk'), negb (writeUsed Walk'))
  end.

End Prover.

End DSE.

(** ** Predicates on instructions and snapshots *)

Module TLProps.
Import IntervalMap TLMap TL.

(** Snapshots whose ranges stay below [2^63], where the signed and the
    unsigned reading of a bound agree. *)
Definition wfStore63 (s : TLLocalStore) : Prop :=
  forall O M, store s !! O = Some M -> wfb 0 (two63 - 1) M.

(** An atomic read-modify-write or compare-and-swap. *)
Definition isAtomicRMWOrCmpXchg (SI : ShadowInstruction) : Prop :=
  kind SI = KAtomicRMW \/ kind SI = KAtomicCmpXchg.

(** The objects a pointer operand may name. *)
Definition operandTargets (op : Operand) : list ShadowValue :=
  match opVal op with
  | OpIV IVS => map V (Values IVS)
  | OpSingle _ iv => [V iv]
  end.

Definition instTargets (SI : ShadowInstruction) : list ShadowValue :=
  flat_map operandTargets (operands SI).

(** Two snapshots that agree on the flag and on the objects of [Os]. *)
Definition agreeOn (Os : list ShadowValue) (s s' : TLLocalStore) : Prop :=
  allOthersClobbered s = allOthersClobbered s'
  /\ forall O, O ∈ Os -> store s !! O = store s' !! O.

(** A call that is neither a memory intrinsic, nor a resolved file read,
    nor a call to a special function, and for which a lock domain is
    declared. *)
Definition callWithDomain (SI : ShadowInstruction) (dom : list ShadowValue) : Prop :=
  kind SI = KCall /\ readsMemoryDirectly SI = false /\ readFile SI = None
  /\ specialFunction SI = None /\ lockDomain SI = Some dom.

(** The operand names one target, and the marked range stays within the
    signed 64-bit range. *)
Definition validMark (GoodPtr : Operand) (Len Off : Z) : Prop :=
  forall ty iv, tryGetUniqueIV GoodPtr = Some (ty, iv) ->
    0 <= Offset iv + Off /\ 0 < Len /\ Offset iv + Off + Len < two63.

(** The ranges of a multi-valued result, or of the values a copy read, lie
    within the [Size] bytes read. *)
Definition rangesWithin (vals : list IVSRange) (Size : Z) : Prop :=
  forall r, r ∈ vals -> whollyUnknown (snd r) = false ->
    0 <= fst (fst r) /\ fst (fst r) < snd (fst r) /\ snd (fst r) <= Size.

(** A plain load through a pointer with the single target [ptr]. *)
Definition plainLoad (SI : ShadowInstruction) (ptr : ImprovedVal) : Prop :=
  kind SI = KLoad /\ readsMemoryDirectly SI = true /\ isVolatile SI = false
  /\ hasOrderingConstraint SI = false
  /\ opVal (getOperand SI 0) = OpSingle ValSetTypePB ptr.

(** A memory transfer of [Len] bytes from the single target [src]. *)
Definition memoryCopy (SI : ShadowInstruction) (src : ImprovedVal) (Len : Z) : Prop :=
  kind SI = KMemTransfer /\ readsMemoryDirectly SI = true
  /\ hasOrderingConstraint SI = false
  /\ tryGetUniqueIV (getCallArgOperand SI 1) = Some (ValSetTypePB, src)
  /\ tryGetConstantInt (getCallArgOperand SI 2) = Some Len
  /\ validMark (getCallArgOperand SI 0) Len 0.

(** The instruction reads the [Size] bytes at [ptr]. *)
Definition readsBytes (SI : ShadowInstruction) (ptr : ImprovedVal) (Size : Z) : Prop :=
  (plainLoad SI ptr /\ typeStoreSize SI = Size) \/ memoryCopy SI ptr Size.

(** The read produced a usable value, whose pieces lie within the bytes
    read. *)
Definition usableResult (SI : ShadowInstruction) (Size : Z) : Prop :=
  match kind SI with
  | KLoad =>
      isSingleWhollyUnknown (PB SI) = false
      /\ forall vals, PB SI = Some (IVMulti vals) -> rangesWithin vals Size
  | _ =>
      exists r vals, memcpyValues SI = Some (r :: vals)
                     /\ rangesWithin (r :: vals) Size
  end.

(** The check requirement [TLAnalyseInstruction] leaves on the instruction,
    and the snapshot it leaves in the block. *)
Definition assignedRequirement (r : option (ShadowInstruction * TLState * Registry)) :
    option ThreadLocalState :=
  match r with
  | Some (SI', _, _) => Some (isThreadLocal SI')
  | None => None
  end.

Definition storeAfter (r : option (ShadowInstruction * TLState * Registry)) :
    option TLLocalStore :=
  match r with
  | Some (_, st', _) => Some (tlStore st')
  | None => None
  end.

End TLProps.

(** ** Concrete instructions and snapshots *)

Module Examples.
Import IntervalMap TLMap TL Merge TLProps.

Definition G0 : Globals :=
  {| programSingleThreaded := false;
     tlsValue := fun t =>
       match t with
       | TLS_MUSTCHECK => 0
       | TLS_NOCHECK => 1
       | TLS_NEVERCHECK => 2
       end |}.

Definition GSingleThreaded : Globals :=
  {| programSingleThreaded := true; tlsValue := tlsValue G0 |}.

Definition R0 : Registry :=
  {| getAllocData := fun _ => {| allocValueIsInst := false; AD_isCommitted := false;
                                 AD_hasCommittedVal := false |};
     fds := fun _ => {| FD_isCommitted := false; FD_hasCommittedVal := false |} |}.

(** Two globals and pointers to their first byte. *)
Definition X : ShadowValue := SV_GV 0 false.
Definition Y : ShadowValue := SV_GV 1 false.
Definition ptrX : ImprovedVal := {| V := X; Offset := 0 |}.
Definition opX : Operand := {| opVal := OpSingle ValSetTypePB ptrX; opConstInt := None |}.
Definition ptrY : ImprovedVal := {| V := Y; Offset := 0 |}.
Definition opY : Operand := {| opVal := OpSingle ValSetTypePB ptrY; opConstInt := None |}.

Definition scalarResult : ImprovedValSet :=
  IVSingle {| SetType := ValSetTypeScalar; Values := []; whollyUnknown := false |}.

Definition unknownResult : ImprovedValSet :=
  IVSingle {| SetType := ValSetTypeUnknown; Values := []; whollyUnknown := true |}.

(** An instruction of kind [k] over the operands [ops], reading memory
    directly, with a 4-byte result. *)
Definition inst (k : InstKind) (t : ThreadLocalState) (pb : ImprovedValSet)
    (ops : list Operand) : ShadowInstruction :=
  {| kind := k; isThreadLocal := t; PB := Some pb;
     readsMemoryDirectly := true; hasOrderingConstraint := false;
     isVolatile := false; atomicOpIsSimple := false;
     operands := ops; self := unknownOperand;
     typeStoreSize := 4; valueStoreSize := 4; allocStoreSize := 0;
     calledFunction := None; specialFunction := None; readFile := None;
     isYieldFunction := false; inPessimisticLocks := false; lockDomain := None;
     memcpyValues := None; parentCertain := false; resultBase := None;
     typeIsPointer := false |}.

Definition loadX (t : ThreadLocalState) : ShadowInstruction :=
  inst KLoad t scalarResult [opX].

(** A call to a yield function whose lock domain is [dom]. *)
Definition lockCall (dom : list ShadowValue) : ShadowInstruction :=
  {| kind := KCall; isThreadLocal := TLS_NOCHECK; PB := None;
     readsMemoryDirectly := false; hasOrderingConstraint := false;
     isVolatile := false; atomicOpIsSimple := false;
     operands := []; self := unknownOperand;
     typeStoreSize := 0; valueStoreSize := 0; allocStoreSize := 0;
     calledFunction := Some 7%nat; specialFunction := None; readFile := None;
     isYieldFunction := true; inPessimisticLocks := false; lockDomain := Some dom;
     memcpyValues := None; parentCertain := false; resultBase := None;
     typeIsPointer := false |}.

Definition state (s : TLLocalStore) : TLState :=
  {| tlStore := s; barrierHere := false; readsTentativeData := false |}.

(** The snapshot at the root: nothing is tentative. *)
Definition rootStore : TLLocalStore := {| store := ∅; allOthersClobbered := false |}.

(** [X] is trusted on its first eight bytes under full clobber. *)
Definition storeX8 : TLLocalStore :=
  {| store := {[ X := [(0, 8)] ]}; allOthersClobbered := true |}.

Definition storeX4to12 : TLLocalStore :=
  {| store := {[ X := [(4, 12)] ]}; allOthersClobbered := true |}.

(** [X] is listed with no trusted byte, and absent objects are trusted:
    the snapshot after a call with lock domain [X] at the root. *)
Definition storeXClobbered : TLLocalStore :=
  {| store := {[ X := [] ]}; allOthersClobbered := false |}.

Definition atomicRMW (pb : ImprovedValSet) : ShadowInstruction :=
  inst KAtomicRMW TLS_NOCHECK pb [opX].

(** *** The dead-store prover on one stack slot *)

(** A four-byte stack slot [A] of the function with root context 0, a
    pointer to its first byte and a pointer to its third byte. *)
Definition A : DSE.Value :=
  {| DSE.vid := 1; DSE.isAlloca := true; DSE.isMallocLike := false;
     DSE.functionRoot := 0 |}.
Definition pA : DSE.Value :=
  {| DSE.vid := 10; DSE.isAlloca := false; DSE.isMallocLike := false;
     DSE.functionRoot := 0 |}.
Definition pA2 : DSE.Value :=
  {| DSE.vid := 12; DSE.isAlloca := false; DSE.isMallocLike := false;
     DSE.functionRoot := 0 |}.
(** A pointer the engine could not resolve. *)
Definition pUnknown : DSE.Value :=
  {| DSE.vid := 99; DSE.isAlloca := false; DSE.isMallocLike := false;
     DSE.functionRoot := 0 |}.

Definition exGetBase (v : DSE.Value) : option (DSE.Value * Z) :=
  match DSE.vid v with
  | 1%nat | 10%nat => Some (A, 0)
  | 12%nat => Some (A, 2)
  | _ => None
  end.

Definition exGetBaseObject (v : DSE.Value) : option DSE.Value :=
  fst <$> exGetBase v.

(** Two resolved accesses alias when they share their base and their byte
    ranges meet; an unresolved one may alias anything. *)
Definition exAlias (p1 : DSE.Value) (s1 : Z) (p2 : DSE.Value) (s2 : Z) :
    DSE.SVAAResult :=
  match exGetBase p1, exGetBase p2 with
  | Some (b1, o1), Some (b2, o2) =>
      if bool_decide (b1 = b2) then
        if (o1 =? o2) && (s1 =? s2) then DSE.SVMustAlias
        else if (o1 <? o2 + s2) && (o2 <? o1 + s1) then DSE.SVPartialAlias
        else DSE.SVNoAlias
      else DSE.SVNoAlias
  | _, _ => DSE.SVMayAlias
  end.

(** The bytes of the candidate that a write defines. *)
Definition exGetDefinedRange (DefinedBase : DSE.Value) (DefinedOffset DefinedSize : Z)
    (DefinerBase : DSE.Value) (DefinerOffset DefinerSize : Z) : option (Z * Z) :=
  if bool_decide (DefinedBase = DefinerBase) then
    let FirstDef := Z.max 0 (DefinerOffset - DefinedOffset) in
    let FirstNotDef := Z.min DefinedSize (DefinerOffset + DefinerSize - DefinedOffset) in
    if FirstDef <? FirstNotDef then Some (FirstDef, FirstNotDef) else None
  else None.

Definition dinst (k : DSE.InstKind) (ops : list DSE.Value) (size : Z) : DSE.Inst :=
  {| DSE.kind := k; DSE.ctx := 0; DSE.args := ops; DSE.constSize := None;
     DSE.unusedWriter := false; DSE.resolvedRead := None; DSE.accessSize := size;
     DSE.mayBeReplaced := false; DSE.ctxAvailable := false;
     DSE.resultIsPtrOrFd := false; DSE.resultBaseAvailable := false;
     DSE.numSuccessors := 0; DSE.isFreeCall := false; DSE.callUsesPtr := false;
     DSE.expanded := false |}.

(** [store i16 _, A+2], [store i16 _, A], [load i32, A] and [ret]. *)
Definition storeHigh : DSE.Inst := dinst DSE.KStore [pA; pA2] 2.
Definition storeLow : DSE.Inst := dinst DSE.KStore [pA; pA] 2.
Definition storeAll : DSE.Inst := dinst DSE.KStore [pA; pA] 4.
Definition loadAll : DSE.Inst := dinst DSE.KLoad [pA] 4.
Definition ret : DSE.Inst := dinst DSE.KTerminator [] 0.
(** A call that may read the slot and was not expanded. *)
Definition opaqueCall : DSE.Inst :=
  {| DSE.kind := DSE.KCall; DSE.ctx := 0; DSE.args := [pA]; DSE.constSize := None;
     DSE.unusedWriter := false; DSE.resolvedRead := None; DSE.accessSize := 0;
     DSE.mayBeReplaced := false; DSE.ctxAvailable := false;
     DSE.resultIsPtrOrFd := false; DSE.resultBaseAvailable := false;
     DSE.numSuccessors := 0; DSE.isFreeCall := false; DSE.callUsesPtr := true;
     DSE.expanded := false |}.

End Examples.

(** ** Progress counters *)

Module Progress.

Definition two32 : Z := 2 ^ 32.

(** Conversion to [uint32_t]. *)
Definition to_u32 (z : Z) : Z := z mod two32.

Definition TLProgressLimit : Z := 1000.
Definition DSEProgressLimit : Z := 1000.

(** [TLProgress] in [TentativeLoads.cpp]: the counter [TLProgressN] after the
    call, and whether a dot was printed. *)
Definition TLProgress (TLProgressN : Z) : Z * bool :=
  let N := to_u32 (TLProgressN + 1) in
  if N =? TLProgressLimit then (0, true) else (N, false).

(** [DSEProgress] in [DSE.cpp]. *)
Definition DSEProgress (DSEProgressN : Z) : Z * bool :=
  let N := to_u32 (DSEProgressN + 1) in
  if N =? DSEProgressLimit then (0, true) else (N, false).

(** [n] calls in a row: the counter at the end and the number of dots
    printed. *)
Fixpoint calls (progress : Z -> Z * bool) (n : nat) (N : Z) : Z * Z :=
  match n with
  | O => (N, 0)
  | S n' =>
      let '(N1, dot) := progress N in
      let '(N2, dots) := calls progress n' N1 in
      (N2, (if dot then 1 else 0) + dots)
  end.

End Progress.

(** ** Copies of a byte-range set, and path conditions *)

Module PathConditions.
Import IntervalMap TLMap TL.

(** [TLMapPointer::getReadableCopy]: every interval of the map is inserted
    into a new, empty map. *)
Definition getReadableCopy (M : IntervalMap.t) : IntervalMap.t :=
  insertAll M [].

(** The kinds of path condition [walkPathCondition] tells apart: the two
    it handles, and every other enumerator, which it rejects. *)
Inductive PathConditionTypes : Type :=
| PathConditionTypeIntmem
| PathConditionTypeString
| PathConditionTypeOther.

(** A [PathCondition] with what the walk asks of it. *)
Record PathCondition : Type := mkPathCondition {
  fromStackIdx : Z;
  fromBB : nat;
  offset : Z;
  condSV : Operand;           (* getPathConditionSV(Cond) *)
  valTypeStoreSize : Z;       (* getTypeStoreSize(Cond.u.val->getType()) *)
  valNumElements : Z          (* the ConstantDataArray's getNumElements() *)
}.

(** The number of bytes a condition of kind [Ty] asserts. *)
Definition assertedLength (Ty : PathConditionTypes) (Cond : PathCondition) : Z :=
  match Ty with
  | PathConditionTypeIntmem => valTypeStoreSize Cond
  | _ => valNumElements Cond
  end.

(** [walkPathCondition]; [None] is the failed [release_assert] on a kind of
    condition that asserts nothing about memory. *)
Definition walkPathCondition (Ty : PathConditionTypes) (Cond : PathCondition)
    (contextEnabled : bool) (s : TLLocalStore) : option TLLocalStore :=
  match Ty with
  | PathConditionTypeIntmem =>
      Some (markGoodBytes (condSV Cond) (valTypeStoreSize Cond) contextEnabled s
              (offset Cond))
  | PathConditionTypeString =>
      Some (markGoodBytes (condSV Cond) (valNumElements Cond) contextEnabled s
              (offset Cond))
  | PathConditionTypeOther => None
  end.

(** [walkPathConditions]: the conditions asserted at another stack depth or
    in another block than [BB] are passed over. *)
Fixpoint walkPathConditions (Ty : PathConditionTypes) (Conds : list PathCondition)
    (contextEnabled : bool) (BB : nat) (stackDepth : Z) (s : TLLocalStore) :
    option TLLocalStore :=
  match Conds with
  | [] => Some s
  | it :: rest =>
      if negb (stackDepth =? fromStackIdx it) || negb (bool_decide (BB = fromBB it))
      then walkPathConditions Ty rest contextEnabled BB stackDepth s
      else
        match walkPathCondition Ty it contextEnabled s with
        | None => None
        | Some s' => walkPathConditions Ty rest contextEnabled BB stackDepth s'
        end
  end.

End PathConditions.

(** ** Predicates on the instructions the analysis visits *)

Module AnalysisProps.
Import TL.

(** The instructions at which [updateTLStore] assumes that another thread
    ran: a volatile or ordered load, a fence, a call that may yield for which
    neither a pessimistic lock nor a lock domain is declared, and any other
    ordered memory reader that must be checked; the atomic operations the
    pass holds for simple are excepted. *)
Definition yieldPoint (G : Globals) (SI : ShadowInstruction) : Prop :=
  (kind SI = KLoad
   /\ (isVolatile SI = true \/ hasOrderingConstraint SI = true)
   /\ atomicOpIsSimple SI = false)
  \/ (kind SI <> KAlloca /\ kind SI <> KLoad /\ kind SI <> KStore
      /\ readsMemoryDirectly SI = true /\ hasOrderingConstraint SI = true
      /\ isThreadLocal SI = TLS_MUSTCHECK /\ atomicOpIsSimple SI = false)
  \/ (kind SI = KFence
      /\ (readsMemoryDirectly SI = false \/ hasOrderingConstraint SI = false))
  \/ (kind SI = KCall
      /\ (readsMemoryDirectly SI = false \/ hasOrderingConstraint SI = false)
      /\ readFile SI = None /\ specialFunction SI = None
      /\ ((calledFunction SI = None /\ programSingleThreaded G = false)
          \/ isYieldFunction SI = true)
      /\ inPessimisticLocks SI = false /\ lockDomain SI = None).

(** Two instructions that differ at most in what the analysis writes: the
    check requirement and the value sets read. *)
Definition sameButResults (SI SI' : ShadowInstruction) : Prop :=
  kind SI' = kind SI
  /\ readsMemoryDirectly SI' = readsMemoryDirectly SI
  /\ hasOrderingConstraint SI' = hasOrderingConstraint SI
  /\ isVolatile SI' = isVolatile SI
  /\ atomicOpIsSimple SI' = atomicOpIsSimple SI
  /\ operands SI' = operands SI
  /\ self SI' = self SI
  /\ typeStoreSize SI' = typeStoreSize SI
  /\ valueStoreSize SI' = valueStoreSize SI
  /\ allocStoreSize SI' = allocStoreSize SI
  /\ calledFunction SI' = calledFunction SI
  /\ specialFunction SI' = specialFunction SI
  /\ readFile SI' = readFile SI
  /\ isYieldFunction SI' = isYieldFunction SI
  /\ inPessimisticLocks SI' = inPessimisticLocks SI
  /\ lockDomain SI' = lockDomain SI
  /\ parentCertain SI' = parentCertain SI
  /\ resultBase SI' = resultBase SI
  /\ typeIsPointer SI' = typeIsPointer SI.

End AnalysisProps.

(** ** Contexts: resetting, re-running and the interface to other passes *)

Module Contexts.
Import TL.

(** An [IntegrationAttempt] as far as the bookkeeping of the analysis goes:
    its flags, the calls inlined into it and the loops peeled in it; a
    [PeelAttempt] with its iterations. *)
#[warnings="-register-all"]
Inductive IntegrationAttempt : Type :=
| mkIA (tentativeLoadsRun readsTentativeData isEnabled : bool)
       (child_calls : list IntegrationAttempt)
       (peelChildren : list PeelAttempt)
with PeelAttempt : Type :=
| mkPA (isTerminated isEnabled : bool) (Iterations : list IntegrationAttempt).

Definition tentativeLoadsRun (IA : IntegrationAttempt) : bool :=
  match IA with mkIA r _ _ _ _ => r end.

Definition IA_readsTentativeData (IA : IntegrationAttempt) : bool :=
  match IA with mkIA _ t _ _ _ => t end.

Definition IA_isEnabled (IA : IntegrationAttempt) : bool :=
  match IA with mkIA _ _ e _ _ => e end.

Definition child_calls (IA : IntegrationAttempt) : list IntegrationAttempt :=
  match IA with mkIA _ _ _ c _ => c end.

Definition peelChildren (IA : IntegrationAttempt) : list PeelAttempt :=
  match IA with mkIA _ _ _ _ p => p end.

Definition isTerminated (LPA : PeelAttempt) : bool :=
  match LPA with mkPA t _ _ => t end.

Definition PA_isEnabled (LPA : PeelAttempt) : bool :=
  match LPA with mkPA _ e _ => e end.

Definition Iterations (LPA : PeelAttempt) : list IntegrationAttempt :=
  match LPA with mkPA _ _ its => its end.

(** [IntegrationAttempt::resetTentativeLoads]: the flag is cleared in the
    attempt, in every inlined call and in every iteration of every
    terminated peel attempt, recursively. *)
Fixpoint resetTentativeLoads (IA : IntegrationAttempt) : IntegrationAttempt :=
  match IA with
  | mkIA _ t e calls peels =>
      mkIA false t e
        (map resetTentativeLoads calls)
        (map (fun LPA =>
                match LPA with
                | mkPA term en its =>
                    if negb term then LPA
                    else mkPA term en (map resetTentativeLoads its)
                end) peels)
  end.

(** [IntegrationAttempt::containsTentativeLoads] *)
Definition containsTentativeLoads (IA : IntegrationAttempt) : bool :=
  IA_readsTentativeData IA.

(** [PeelAttempt::containsTentativeLoads] *)
Definition PA_containsTentativeLoads (LPA : PeelAttempt) : bool :=
  existsb containsTentativeLoads (Iterations LPA).

(** The attempts [resetTentativeLoads] visits. *)
Fixpoint visited (IA : IntegrationAttempt) : list IntegrationAttempt :=
  match IA with
  | mkIA _ _ _ calls peels =>
      IA :: flat_map visited calls
         ++ flat_map (fun LPA =>
                        match LPA with
                        | mkPA term _ its =>
                            if negb term then [] else flat_map visited its
                        end) peels
  end.

(** [squashUnavailableObjects(SI, PB, inLoopAnalyser)], the overload that
    works on a given value set: the instruction and the value set after the
    call. *)
Definition squashUnavailableObjectsPB (R : Registry) (SI : ShadowInstruction)
    (PB : ImprovedValSet) (inLoopAnalyser : bool) :
    option (ShadowInstruction * ImprovedValSet) :=
  match PB with
  | IVSingle IVS =>
      match squashUnavailableObject R IVS inLoopAnalyser (getOperand SI 0) with
      | None => None
      | Some sq =>
          Some (if sq then setIsThreadLocal SI TLS_NEVERCHECK else SI,
                IVSingle (if sq then setOverdef IVS else IVS))
      end
  | IVMulti vals =>
      match squashRanges R inLoopAnalyser (getOperand SI 0) None vals with
      | None => None
      | Some (vals', sq) =>
          Some (if sq then setIsThreadLocal SI TLS_NEVERCHECK else SI, IVMulti vals')
      end
  end.

(** The inlined call [rerunTentativeLoads] is given: whether it read
    tentative data, the snapshot saved before it was analysed, and its
    return value. *)
Record InlineAttempt : Type := mkInlineAttempt {
  calleeReadsTentativeData : bool;            (* IA->readsTentativeData *)
  backupTlStore : option TLLocalStore;
  returnValue : option ImprovedValSet
}.

(** [rerunTentativeLoads], for the call [SI] to a disabled context:
    the call, the snapshot of its block and the return value of the
    context afterwards.  [None] is a failed [release_assert] or the use of a
    backup snapshot that is not there.  Reference counts are not part of a
    snapshot. *)
Definition rerunTentativeLoads (R : Registry) (SI : ShadowInstruction)
    (tlStore : option TLLocalStore) (IA : InlineAttempt) (inLoopAnalyser : bool) :
    option (ShadowInstruction * option TLLocalStore * option ImprovedValSet) :=
  match tlStore with
  | None => Some (SI, None, returnValue IA)
  | Some s =>
      if calleeReadsTentativeData IA then
        match backupTlStore IA with
        | None => None
        | Some _ =>
            match returnValue IA with
            | None => Some (SI, Some emptyClobbered, None)
            | Some PB =>
                match squashUnavailableObjectsPB R SI PB inLoopAnalyser with
                | None => None
                | Some (SI', PB') => Some (SI', Some emptyClobbered, Some PB')
                end
            end
        end
      else
        match backupTlStore IA with
        | None => None
        | Some backup => Some (SI, Some backup, returnValue IA)
        end
  end.

(** *** [requiresRuntimeCheck] *)

Inductive RuntimeCheckType : Type :=
| RUNTIME_CHECK_NONE
| RUNTIME_CHECK_AS_EXPECTED
| RUNTIME_CHECK_READ_LLIOWD
| RUNTIME_CHECK_READ_MEMCMP.

#[global] Instance RuntimeCheckType_eq_dec : EqDecision RuntimeCheckType.
Proof. solve_decision. Defined.

(** A predecessor block of a PHI node, as [requiresRuntimeCheck2] looks at
    it. *)
Record Predecessor : Type := mkPredecessor {
  inChildLoop : bool;
    (* predBBI->naturalScope != L && ((!L) || L->contains(predBBI->naturalScope)) *)
  peelAttempt : option PeelAttempt
    (* getPeelAttempt(immediateChildLoop(L, predBBI->naturalScope)) *)
}.

(** An instruction with what [requiresRuntimeCheck2] asks of it beyond
    the analysis' own facts. *)
Record CheckedValue : Type := mkCheckedValue {
  checkedInst : ShadowInstruction;
  isVoidTy : bool;                            (* SI->getType()->isVoidTy() *)
  needsRuntimeCheck : RuntimeCheckType;
  PBisWhollyUnknown : bool;                   (* SI->i.PB->isWhollyUnknown() *)
  inlineAttempt : option IntegrationAttempt;  (* getInlineAttempt(SI) *)
  predecessors : list Predecessor
}.

(** The loop over the predecessors of a PHI node. *)
Fixpoint checkPredecessors (preds : list Predecessor) (whollyUnknown : bool) : bool :=
  match preds with
  | [] => false
  | p :: rest =>
      if inChildLoop p then
        match peelAttempt p with
        | Some LPA =>
            if isTerminated LPA && negb (PA_isEnabled LPA)
               && PA_containsTentativeLoads LPA
            then negb whollyUnknown
            else checkPredecessors rest whollyUnknown
        | None => checkPredecessors rest whollyUnknown
        end
      else checkPredecessors rest whollyUnknown
  end.

Definition requiresRuntimeCheck2 (V : CheckedValue) (includeSpecialChecks : bool) :
    bool :=
  let SI := checkedInst V in
  if isVoidTy V then false
  else
    match PB SI with
    | None => false
    | Some _ =>
        if bool_decide (needsRuntimeCheck V = RUNTIME_CHECK_AS_EXPECTED) then true
        else if includeSpecialChecks
                && (bool_decide (needsRuntimeCheck V = RUNTIME_CHECK_READ_LLIOWD)
                    || bool_decide (needsRuntimeCheck V = RUNTIME_CHECK_READ_MEMCMP))
        then true
        else if bool_decide (kind SI = KMemTransfer)
                || (negb (is_CallInst (kind SI)) && readsMemoryDirectly SI)
        then bool_decide (isThreadLocal SI = TLS_MUSTCHECK)
        else
          match inlineAttempt V with
          | Some IA =>
              if negb (IA_isEnabled IA) && containsTentativeLoads IA
              then negb (PBisWhollyUnknown V)
              else false
          | None =>
              if bool_decide (kind SI = KPHI)
              then checkPredecessors (predecessors V) (PBisWhollyUnknown V)
              else false
          end
    end.

(** [requiresRuntimeCheck]: [None] is a value that is not an instruction. *)
Definition requiresRuntimeCheck (omitChecks : bool) (V : option CheckedValue)
    (includeSpecialChecks : bool) : bool :=
  if omitChecks then false
  else
    match V with
    | None => false
    | Some SI => requiresRuntimeCheck2 SI includeSpecialChecks
    end.

(** The value [V] with the check requirement of its instruction replaced. *)
Definition withRequirement (V : CheckedValue) (t : ThreadLocalState) : CheckedValue :=
  {| checkedInst := setIsThreadLocal (checkedInst V) t; isVoidTy := isVoidTy V;
     needsRuntimeCheck := needsRuntimeCheck V;
     PBisWhollyUnknown := PBisWhollyUnknown V;
     inlineAttempt := inlineAttempt V; predecessors := predecessors V |}.

End Contexts.

(** ** The entry points of the dead-store prover *)

Module DSEEntry.
Import DSE.

Section Entry.

Variable aliasSVs : Value -> Z -> Value -> Z -> SVAAResult.
Variable getBaseAndConstantOffset : Value -> option (Value * Z).
Variable getBaseObject : Value -> option Value.
Variable GetDefinedRange :
  Value -> Z -> Z -> Value -> Z -> Z -> option (Z * Z).

Local Abbreviation tryKillWriterTo :=
  (DSE.tryKillWriterTo aliasSVs getBaseAndConstantOffset getBaseObject
     GetDefinedRange).

(** [tryKillStore]; [valueSizeInBits] is [getTypeSizeInBits] of the type of
    the stored value. *)
Definition tryKillStore (ahead : Path) (SI : Inst) (valueSizeInBits : Z) :
    bool * bool :=
  let Size := to_u64 (valueSizeInBits + 7) / 8 in
  tryKillWriterTo ahead (getOperand SI 1) Size.

Definition tryKillMemset (ahead : Path) (MI : Inst) : bool * bool :=
  let MemSize :=
    match constSize MI with
    | Some SizeCst => SizeCst
    | None => UnknownSize
    end in
  tryKillWriterTo ahead (getCallArgOperand MI 0) MemSize.

Definition tryKillRead (ahead : Path) (CI : Inst) (readSize : Z) : bool * bool :=
  tryKillWriterTo ahead (getCallArgOperand CI 1) readSize.

Definition tryKillMTI (ahead : Path) (MTI : Inst) : bool * bool :=
  let MISize :=
    match constSize MTI with
    | Some SizeC => SizeC
    | None => UnknownSize
    end in
  tryKillWriterTo ahead (getCallArgOperand MTI 0) MISize.

(** [tryKillAlloc]; [Alloc] is the allocation instruction as a value. *)
Definition tryKillAlloc (ahead : Path) (Alloc : Value) : bool * bool :=
  tryKillWriterTo ahead Alloc UnknownSize.

(** The bytes [FirstDef, FirstNotDef) of the candidate that
    [DSEHandleWrite] takes a write to define, from the alias verdict. *)
Definition definedRange (Writer : Value) (WriteSize : Z) (StorePtr : Value)
    (Size : Z) (StoreBase : Value) (StoreOffset : Z) (WriteBase : Value)
    (WriteOffset : Z) : Z * Z :=
  match aliasSVs Writer WriteSize StorePtr Size with
  | SVMayAlias | SVPartialAlias =>
      match GetDefinedRange StoreBase StoreOffset Size WriteBase WriteOffset
              WriteSize with
      | Some r => r
      | None => (0, 0)
      end
  | SVMustAlias => (0, Z.min WriteSize Size)
  | SVNoAlias => (0, 0)
  end.

End Entry.

(** The instruction [I] taken for a memory intrinsic that is not a
    transfer. *)
Definition asMemSet (I : Inst) : Inst :=
  {| kind := KMemSet; ctx := ctx I; args := args I; constSize := constSize I;
     unusedWriter := unusedWriter I; resolvedRead := resolvedRead I;
     accessSize := accessSize I; mayBeReplaced := mayBeReplaced I;
     ctxAvailable := ctxAvailable I; resultIsPtrOrFd := resultIsPtrOrFd I;
     resultBaseAvailable := resultBaseAvailable I;
     numSuccessors := numSuccessors I; isFreeCall := isFreeCall I;
     callUsesPtr := callUsesPtr I; expanded := expanded I |}.

End DSEEntry.

(** ** More concrete instructions, snapshots and contexts *)

Module MoreExamples.
Import IntervalMap TLMap TL TLProps Examples PathConditions Contexts.

(** A constant length of four bytes. *)
Definition len4 : Operand :=
  {| opVal := OpIV {| SetType := ValSetTypeScalar; Values := [];
                      whollyUnknown := false |};
     opConstInt := Some 4 |}.

(** An instruction of kind [k] over the operands [ops] that does not read
    memory directly. *)
Definition plain (k : InstKind) (ops : list Operand) : ShadowInstruction :=
  {| kind := k; isThreadLocal := TLS_NOCHECK; PB := None;
     readsMemoryDirectly := false; hasOrderingConstraint := false;
     isVolatile := false; atomicOpIsSimple := false;
     operands := ops; self := unknownOperand;
     typeStoreSize := 0; valueStoreSize := 4; allocStoreSize := 0;
     calledFunction := None; specialFunction := None; readFile := None;
     isYieldFunction := false; inPessimisticLocks := false; lockDomain := None;
     memcpyValues := None; parentCertain := false; resultBase := None;
     typeIsPointer := false |}.

(** [store i32 _, X] and [fence]. *)
Definition storeToX : ShadowInstruction := plain KStore [unknownOperand; opX].
Definition fence : ShadowInstruction := plain KFence [].

(** [load atomic i32, X]. *)
Definition orderedLoadX : ShadowInstruction :=
  {| kind := KLoad; isThreadLocal := TLS_NOCHECK; PB := Some scalarResult;
     readsMemoryDirectly := true; hasOrderingConstraint := true;
     isVolatile := false; atomicOpIsSimple := false;
     operands := [opX]; self := unknownOperand;
     typeStoreSize := 4; valueStoreSize := 4; allocStoreSize := 0;
     calledFunction := None; specialFunction := None; readFile := None;
     isYieldFunction := false; inPessimisticLocks := false; lockDomain := None;
     memcpyValues := None; parentCertain := false; resultBase := None;
     typeIsPointer := false |}.

(** A constant global and a load of it. *)
Definition K : ShadowValue := SV_GV 2 true.
Definition opK : Operand :=
  {| opVal := OpSingle ValSetTypePB {| V := K; Offset := 0 |}; opConstInt := None |}.
Definition loadK : ShadowInstruction := inst KLoad TLS_NOCHECK scalarResult [opK].

(** [X] is trusted on its first eight bytes and on the four bytes from
    byte 12 on. *)
Definition twoRanges : IntervalMap.t := [(0, 8); (12, 16)].

(** A heap allocation that was committed and has no committed value, in
    the registry [R1]; a load from [X] that read a pointer to it, and the
    same load in a certain block, resolved to the allocation. *)
Definition H : ShadowValue := SV_PtrIdx (-1) 0.
Definition ptrH : ImprovedVal := {| V := H; Offset := 0 |}.

Definition R1 : Registry :=
  {| getAllocData := fun v =>
       if bool_decide (v = H)
       then {| allocValueIsInst := true; AD_isCommitted := true;
               AD_hasCommittedVal := false |}
       else getAllocData R0 v;
     fds := fds R0 |}.

Definition pointerToH : ImprovedValSet :=
  IVSingle {| SetType := ValSetTypePB; Values := [ptrH]; whollyUnknown := false |}.

Definition loadOfH : ShadowInstruction := inst KLoad TLS_MUSTCHECK pointerToH [opX].

Definition certainLoadOfH : ShadowInstruction :=
  {| kind := KLoad; isThreadLocal := TLS_NOCHECK; PB := Some pointerToH;
     readsMemoryDirectly := true; hasOrderingConstraint := false;
     isVolatile := false; atomicOpIsSimple := false;
     operands := [opX]; self := unknownOperand;
     typeStoreSize := 8; valueStoreSize := 8; allocStoreSize := 0;
     calledFunction := None; specialFunction := None; readFile := None;
     isYieldFunction := false; inPessimisticLocks := false; lockDomain := None;
     memcpyValues := None; parentCertain := true; resultBase := Some (H, 0);
     typeIsPointer := true |}.

(** Two path conditions on memory: four bytes of [X] asserted in block 0 at
    stack depth 0, and four bytes of [Y] asserted in block 1. *)
Definition condX : PathCondition :=
  {| fromStackIdx := 0; fromBB := 0; offset := 0; condSV := opX;
     valTypeStoreSize := 4; valNumElements := 0 |}.
Definition condY : PathCondition :=
  {| fromStackIdx := 0; fromBB := 1; offset := 0; condSV := opY;
     valTypeStoreSize := 4; valNumElements := 0 |}.

(** A disabled context that read tentative data, with the snapshot saved
    before it was analysed. *)
Definition tentativeCallee : InlineAttempt :=
  {| calleeReadsTentativeData := true; backupTlStore := Some storeX8;
     returnValue := None |}.

(** A checked load of [X], and a call to [realloc] marked [TLS_NOCHECK]. *)
Definition checkedLoadX : CheckedValue :=
  {| checkedInst := loadX TLS_MUSTCHECK; isVoidTy := false;
     needsRuntimeCheck := RUNTIME_CHECK_NONE; PBisWhollyUnknown := false;
     inlineAttempt := None; predecessors := [] |}.
Definition reallocCall : CheckedValue :=
  {| checkedInst := inst KCall TLS_NOCHECK scalarResult [opX; len4];
     isVoidTy := false; needsRuntimeCheck := RUNTIME_CHECK_NONE;
     PBisWhollyUnknown := false; inlineAttempt := None; predecessors := [] |}.

(** A two-byte memory transfer to [A] from [A+2] that is already marked an
    unused writer. *)
Definition deadTransfer : DSE.Inst :=
  {| DSE.kind := DSE.KMemTransfer; DSE.ctx := 0; DSE.args := [pA; pA2];
     DSE.constSize := Some 2; DSE.unusedWriter := true; DSE.resolvedRead := None;
     DSE.accessSize := 0; DSE.mayBeReplaced := false; DSE.ctxAvailable := false;
     DSE.resultIsPtrOrFd := false; DSE.resultBaseAvailable := false;
     DSE.numSuccessors := 0; DSE.isFreeCall := false; DSE.callUsesPtr := false;
     DSE.expanded := false |}.

(** A global [Gv], which is neither a stack slot nor a heap allocation, and
    a pointer to it; the answers of the engine and of the alias analysis
    with that pointer resolved; and [store i16 _, Gv]. *)
Definition Gv : DSE.Value :=
  {| DSE.vid := 2; DSE.isAlloca := false; DSE.isMallocLike := false;
     DSE.functionRoot := 0 |}.
Definition pG : DSE.Value :=
  {| DSE.vid := 20; DSE.isAlloca := false; DSE.isMallocLike := false;
     DSE.functionRoot := 0 |}.

Definition gvGetBase (v : DSE.Value) : option (DSE.Value * Z) :=
  if bool_decide (DSE.vid v = 20%nat) then Some (Gv, 0) else exGetBase v.

Definition gvGetBaseObject (v : DSE.Value) : option DSE.Value :=
  fst <$> gvGetBase v.

Definition gvAlias (p1 : DSE.Value) (s1 : Z) (p2 : DSE.Value) (s2 : Z) :
    DSE.SVAAResult :=
  match gvGetBase p1, gvGetBase p2 with
  | Some (b1, o1), Some (b2, o2) =>
      if bool_decide (b1 = b2) then
        if (o1 =? o2) && (s1 =? s2) then DSE.SVMustAlias
        else if (o1 <? o2 + s2) && (o2 <? o1 + s1) then DSE.SVPartialAlias
        else DSE.SVNoAlias
      else DSE.SVNoAlias
  | _, _ => DSE.SVMayAlias
  end.

Definition storeLowG : DSE.Inst := dinst DSE.KStore [pG; pG] 2.

End MoreExamples.

(** ** Facts about machine integers *)

Lemma to_u64_id z : 0 <= z < two64 -> to_u64 z = z.
Proof. intros H. unfold to_u64. apply Z.mod_small. exact H. Qed.

Lemma to_i64_id z : - two63 <= z < two63 -> to_i64 z = z.
Proof.
  intros H. unfold to_i64, two64, two63 in *.
  destruct (Z_lt_le_dec z 0) as [Hn | Hp].
  - replace (z mod 2 ^ 64) with (z + 2 ^ 64).
    + destruct (Z.ltb_spec (z + 2 ^ 64) (2 ^ 63)); lia.
    + apply Z.mod_unique with (q := -1); lia.
  - rewrite Z.mod_small by lia.
    destruct (Z.ltb_spec z (2 ^ 63)); lia.
Qed.

(** ** Facts about interval maps *)

Module IntervalMapFacts.
Import IntervalMap.

Lemma coversb_spec m x : coversb m x = true <-> covers m x.
Proof.
  induction m as [| [s e] m IH]; simpl.
  - split; [discriminate | tauto].
  - rewrite orb_true_iff, andb_true_iff, Z.leb_le, Z.ltb_lt, IH. tauto.
Qed.

Lemma wfbb_spec m : forall lo hi, wfbb lo hi m = true <-> wfb lo hi m.
Proof.
  induction m as [| [s e] m IH]; intros lo hi; simpl.
  - tauto.
  - rewrite !andb_true_iff, Z.leb_le, Z.ltb_lt, Z.leb_le, IH. tauto.
Qed.

Lemma wfb_weaken m : forall lo lo' hi hi',
  wfb lo hi m -> lo' <= lo -> hi <= hi' -> wfb lo' hi' m.
Proof.
  induction m as [| [s e] m IH]; simpl; intros lo lo' hi hi' H Hlo Hhi.
  - exact I.
  - destruct H as (H1 & H2 & H3 & H4).
    repeat split; try lia. apply IH with (lo := e + 1) (hi := hi); auto; lia.
Qed.

Lemma wfb_covers_bounds m : forall lo hi x,
  wfb lo hi m -> covers m x -> lo <= x < hi.
Proof.
  induction m as [| [s e] m IH]; simpl; intros lo hi x H Hc.
  - contradiction.
  - destruct H as (H1 & H2 & H3 & H4). destruct Hc as [Hc | Hc].
    + lia.
    + specialize (IH _ _ _ H4 Hc). lia.
Qed.

Lemma wfb_app p : forall q lo mid hi,
  wfb lo mid p -> wfb (mid + 1) hi q -> lo <= mid + 1 -> mid <= hi ->
  wfb lo hi (p ++ q).
Proof.
  induction p as [| [s e] p IH]; simpl; intros q lo mid hi Hp Hq Hlo Hle.
  - apply wfb_weaken with (lo := mid + 1) (hi := hi); auto; lia.
  - destruct Hp as (H1 & H2 & H3 & H4).
    repeat split; try lia. apply IH with (mid := mid); auto; lia.
Qed.

Lemma covers_app p q x : covers (p ++ q) x <-> covers p x \/ covers q x.
Proof.
  induction p as [| [s e] p IH]; simpl.
  - tauto.
  - rewrite IH. tauto.
Qed.

(** [find] keeps exactly the part of the map that lies beyond [x]. *)
Lemma find_covers m : forall lo hi x y,
  wfb lo hi m -> x <= y -> (covers (find x m) y <-> covers m y).
Proof.
  induction m as [| [s e] m IH]; simpl; intros lo hi x y H Hxy.
  - tauto.
  - destruct H as (H1 & H2 & H3 & H4).
    destruct (Z.leb_spec e x) as [Hle | Hgt]; simpl.
    + rewrite (IH _ _ _ _ H4 Hxy). split; [tauto |].
      intros [Hc | Hc]; [lia | exact Hc].
    + tauto.
Qed.

Lemma find_wfb m : forall lo hi x,
  wfb lo hi m -> wfb lo hi (find x m).
Proof.
  induction m as [| [s e] m IH]; simpl; intros lo hi x H.
  - exact I.
  - destruct H as (H1 & H2 & H3 & H4).
    destruct (Z.leb_spec e x) as [Hle | Hgt]; simpl.
    + apply wfb_weaken with (lo := e + 1) (hi := hi); auto; lia.
    + auto.
Qed.

(** The interval under the iterator returned by [find x] stops beyond [x]. *)
Lemma find_head m x s e rest : find x m = (s, e) :: rest -> x < e.
Proof.
  induction m as [| [s' e'] m IH]; simpl; [discriminate |].
  destruct (Z.leb_spec e' x) as [Hle | Hgt]; [exact IH |].
  intros [= -> -> ->]. exact Hgt.
Qed.

(** Inserting beyond the last interval, without touching it, appends. *)
Lemma insert_append m : forall lo hi a b,
  wfb lo hi m -> hi < a -> a < b -> insert a b m = m ++ [(a, b)].
Proof.
  induction m as [| [s e] m IH]; simpl; intros lo hi a b H Ha Hab.
  - reflexivity.
  - destruct H as (H1 & H2 & H3 & H4).
    destruct (Z.ltb_spec b s); [lia |].
    destruct (Z.eqb_spec b s); [lia |].
    destruct (Z.eqb_spec e a); [lia |].
    f_equal. apply IH with (lo := e + 1) (hi := hi); auto.
Qed.

(** Two well-formed maps covering the same bytes are the same list. *)
Lemma wfb_ext a : forall b lo hi lo' hi',
  wfb lo hi a -> wfb lo' hi' b ->
  (forall x, covers a x <-> covers b x) -> a = b.
Proof.
  induction a as [| [s e] a IH]; intros [| [s' e'] b] lo hi lo' hi' Ha Hb Hext.
  - reflexivity.
  - simpl in Hb. destruct Hb as (H1 & H2 & H3 & H4).
    exfalso. apply (Hext s'). simpl. left. lia.
  - simpl in Ha. destruct Ha as (H1 & H2 & H3 & H4).
    exfalso. apply (Hext s). simpl. left. lia.
  - simpl in Ha, Hb.
    destruct Ha as (A1 & A2 & A3 & A4). destruct Hb as (B1 & B2 & B3 & B4).
    assert (Hs : s = s').
    { assert (Hc1 : covers ((s', e') :: b) s) by (apply Hext; simpl; left; lia).
      assert (Hc2 : covers ((s, e) :: a) s') by (apply Hext; simpl; left; lia).
      simpl in Hc1, Hc2.
      destruct Hc1 as [Hc1 | Hc1]; [| apply (wfb_covers_bounds _ _ _ _ B4) in Hc1];
      destruct Hc2 as [Hc2 | Hc2]; [| apply (wfb_covers_bounds _ _ _ _ A4) in Hc2 | |
        apply (wfb_covers_bounds _ _ _ _ A4) in Hc2]; lia. }
    subst s'.
    assert (He : e = e').
    { destruct (Z.lt_trichotomy e e') as [Hlt | [Heq | Hgt]]; [| exact Heq |].
      - assert (Hc : covers ((s, e) :: a) e) by (apply Hext; simpl; left; lia).
        simpl in Hc. destruct Hc as [Hc | Hc]; [lia |].
        apply (wfb_covers_bounds _ _ _ _ A4) in Hc. lia.
      - assert (Hc : covers ((s, e') :: b) e') by (apply Hext; simpl; left; lia).
        simpl in Hc. destruct Hc as [Hc | Hc]; [lia |].
        apply (wfb_covers_bounds _ _ _ _ B4) in Hc. lia. }
    subst e'. f_equal.
    apply (IH b _ _ _ _ A4 B4). intros x. split; intros Hc.
    + pose proof (wfb_covers_bounds _ _ _ _ A4 Hc) as Hx.
      assert (Hc' : covers ((s, e) :: b) x) by (apply Hext; simpl; right; exact Hc).
      simpl in Hc'. destruct Hc' as [Hc' | Hc']; [lia | exact Hc'].
    + pose proof (wfb_covers_bounds _ _ _ _ B4 Hc) as Hx.
      assert (Hc' : covers ((s, e) :: a) x) by (apply Hext; simpl; right; exact Hc).
      simpl in Hc'. destruct Hc' as [Hc' | Hc']; [lia | exact Hc'].
Qed.

End IntervalMapFacts.

(** ** [mergeStores] computes the intersection *)

Module TLMapFacts.
Import IntervalMap IntervalMapFacts TLMap.

Lemma overlapsFrom_wfb s e t : forall lb hi,
  wfb lb hi t -> s < e ->
  (forall ts te rest, t = (ts, te) :: rest -> s < te) ->
  wfb (Z.max lb s) e (overlapsFrom s e t).
Proof.
  induction t as [| [ts te] t IH]; simpl; intros lb hi H Hse Hhd.
  - exact I.
  - destruct H as (H1 & H2 & H3 & H4).
    pose proof (Hhd ts te t eq_refl) as Hte.
    destruct (Z.ltb_spec ts e) as [Hlt | Hge]; simpl; [| exact I].
    repeat split; try lia.
    apply wfb_weaken with (lo := Z.max (te + 1) s) (hi := e); try lia.
    apply IH with (hi := hi); auto.
    intros ts' te' rest ->. simpl in H4. lia.
Qed.

Lemma overlapsFrom_covers s e t x : forall lb hi,
  wfb lb hi t ->
  (covers (overlapsFrom s e t) x <-> s <= x < e /\ covers t x).
Proof.
  induction t as [| [ts te] t IH]; simpl; intros lb hi H.
  - tauto.
  - destruct H as (H1 & H2 & H3 & H4).
    destruct (Z.ltb_spec ts e) as [Hlt | Hge]; simpl.
    + rewrite (IH _ _ H4). split.
      * intros [Hc | Hc]; [split; [lia | left; lia] | tauto].
      * intros [Hx [Hc | Hc]]; [left; lia | tauto].
    + split; [tauto |]. intros [Hx [Hc | Hc]]; [lia |].
      apply (wfb_covers_bounds _ _ _ _ H4) in Hc. lia.
Qed.

Lemma keepRanges_wfb from : forall to lo hi lo' hi',
  wfb lo hi from -> wfb lo' hi' to -> wfb lo hi (keepRanges from to).
Proof.
  induction from as [| [s e] from IH]; simpl; intros to lo hi lo' hi' Hf Ht.
  - exact I.
  - destruct Hf as (H1 & H2 & H3 & H4).
    apply wfb_app with (mid := e); try lia.
    + apply wfb_weaken with (lo := Z.max lo' s) (hi := e); try lia.
      apply overlapsFrom_wfb with (hi := hi'); auto.
      * apply find_wfb. exact Ht.
      * intros ts te rest Heq. eapply find_head. exact Heq.
    + eapply IH; eauto.
Qed.

Lemma keepRanges_covers from : forall to lo hi lo' hi' x,
  wfb lo hi from -> wfb lo' hi' to ->
  (covers (keepRanges from to) x <-> covers from x /\ covers to x).
Proof.
  induction from as [| [s e] from IH]; simpl; intros to lo hi lo' hi' x Hf Ht.
  - tauto.
  - destruct Hf as (H1 & H2 & H3 & H4).
    rewrite covers_app.
    rewrite (overlapsFrom_covers s e (find s to) x lo' hi' (find_wfb _ _ _ _ Ht)).
    rewrite (IH to _ _ _ _ x H4 Ht).
    split.
    + intros [[Hx Hc] | [Hc1 Hc2]]; [| tauto].
      split; [left; exact Hx |].
      apply (find_covers to lo' hi' s x Ht); [lia | exact Hc].
    + intros [[Hx | Hc1] Hc2]; [left | right; tauto].
      split; [exact Hx |].
      apply (find_covers to lo' hi' s x Ht); [lia | exact Hc2].
Qed.

Lemma insertAll_append rs : forall m lo mid hi,
  wfb lo mid m -> wfb (mid + 1) hi rs -> lo <= mid + 1 ->
  insertAll rs m = m ++ rs.
Proof.
  unfold insertAll.
  induction rs as [| [a b] rs IH]; simpl; intros m lo mid hi Hm Hrs Hlo.
  - rewrite app_nil_r. reflexivity.
  - destruct Hrs as (H1 & H2 & H3 & H4).
    rewrite (insert_append m lo mid a b Hm) by lia.
    rewrite (IH (m ++ [(a, b)]) lo b hi); try lia.
    + rewrite <- app_assoc. reflexivity.
    + apply wfb_app with (mid := mid); simpl; auto; lia.
    + exact H4.
Qed.

(** On well-formed inputs the insertions of [mergeStores] never coalesce:
    the result is the list of kept ranges. *)
Lemma mergeStores_keepRanges from to :
  wf from -> wf to -> mergeStores from to = keepRanges from to.
Proof.
  intros Hf Ht. unfold mergeStores, clear.
  rewrite (insertAll_append _ [] 0 (-1) (two64 - 1)); simpl; auto; try lia.
  apply (keepRanges_wfb from to 0 (two64 - 1) 0 (two64 - 1) Hf Ht).
Qed.

Lemma mergeStores_wf from to : wf from -> wf to -> wf (mergeStores from to).
Proof.
  intros Hf Ht. rewrite mergeStores_keepRanges by assumption.
  apply (keepRanges_wfb from to 0 (two64 - 1) 0 (two64 - 1) Hf Ht).
Qed.

Lemma mergeStores_covers from to x :
  wf from -> wf to ->
  (covers (mergeStores from to) x <-> covers from x /\ covers to x).
Proof.
  intros Hf Ht. rewrite mergeStores_keepRanges by assumption.
  apply (keepRanges_covers from to 0 (two64 - 1) 0 (two64 - 1) x Hf Ht).
Qed.

Lemma wf_ext a b : wf a -> wf b -> (forall x, covers a x <-> covers b x) -> a = b.
Proof. intros Ha Hb. exact (wfb_ext a b _ _ _ _ Ha Hb). Qed.

Lemma mergeStores_comm a b : wf a -> wf b -> mergeStores a b = mergeStores b a.
Proof.
  intros Ha Hb.
  apply wf_ext; [apply mergeStores_wf; assumption .. |].
  intros x. rewrite !mergeStores_covers by assumption. tauto.
Qed.

Lemma mergeStores_assoc a b c :
  wf a -> wf b -> wf c ->
  mergeStores a (mergeStores b c) = mergeStores (mergeStores a b) c.
Proof.
  intros Ha Hb Hc.
  pose proof (mergeStores_wf b c Hb Hc) as Hbc.
  pose proof (mergeStores_wf a b Ha Hb) as Hab.
  apply wf_ext; [apply mergeStores_wf; assumption .. |].
  intros x. rewrite !mergeStores_covers by assumption. tauto.
Qed.

Lemma mergeStores_idem a : wf a -> mergeStores a a = a.
Proof.
  intros Ha.
  apply wf_ext; [apply mergeStores_wf; assumption | assumption |].
  intros x. rewrite mergeStores_covers by assumption. tauto.
Qed.

Lemma wf_nil : wf [].
Proof. exact I. Qed.

Lemma mergeStores_nil_l a : mergeStores [] a = [].
Proof. reflexivity. Qed.

Lemma mergeStores_nil_r a : wf a -> mergeStores a [] = [].
Proof.
  intros Ha.
  apply wf_ext; [apply mergeStores_wf; [assumption | exact wf_nil] | exact wf_nil |].
  intros x. rewrite mergeStores_covers by (assumption || exact wf_nil).
  simpl. tauto.
Qed.

End TLMapFacts.

(** ** Properties of the merge *)

Module MergeFacts.
Import IntervalMap IntervalMapFacts TLMap TLMapFacts TL Merge.

Lemma lookup_mergeSnapshots a b O :
  store (mergeSnapshots a b) !! O =
  mergeObject (allOthersClobbered a) (allOthersClobbered b) (store a !! O) (store b !! O).
Proof.
  unfold mergeSnapshots. simpl. rewrite lookup_merge.
  destruct (store a !! O), (store b !! O); reflexivity.
Qed.

Lemma mergeSnapshots_wf a b : wfStore a -> wfStore b -> wfStore (mergeSnapshots a b).
Proof.
  intros Ha Hb O M. rewrite lookup_mergeSnapshots.
  destruct (store a !! O) as [f |] eqn:Ef, (store b !! O) as [t |] eqn:Et; simpl.
  - intros [= <-]. apply mergeStores_wf; eauto.
  - destruct (allOthersClobbered b); intros [= <-]; [exact wf_nil | eauto].
  - destruct (allOthersClobbered a); intros [= <-]; [exact wf_nil | eauto].
  - discriminate.
Qed.

Lemma mergeSnapshots_trusted a b O x :
  wfStore a -> wfStore b ->
  (trusted (mergeSnapshots a b) O x <-> trusted a O x /\ trusted b O x).
Proof.
  intros Ha Hb. unfold trusted. rewrite lookup_mergeSnapshots.
  destruct (store a !! O) as [f |] eqn:Ef, (store b !! O) as [t |] eqn:Et; simpl.
  - apply mergeStores_covers; eauto.
  - destruct (allOthersClobbered b); simpl; intuition discriminate.
  - destruct (allOthersClobbered a); simpl; intuition discriminate.
  - destruct (allOthersClobbered a), (allOthersClobbered b); simpl;
      intuition discriminate.
Qed.

Lemma fold_merge_trusted others : forall acc,
  wfStore acc -> Forall wfStore others ->
  wfStore (fold_left (fun mergeTo mergeFrom => mergeSnapshots mergeFrom mergeTo)
             others acc)
  /\ forall O x,
      trusted (fold_left (fun mergeTo mergeFrom => mergeSnapshots mergeFrom mergeTo)
                 others acc) O x
      <-> trusted acc O x /\ forall s, s ∈ others -> trusted s O x.
Proof.
  induction others as [| s others IH]; simpl; intros acc Hacc Hall.
  - split; [exact Hacc |]. intros O x. split; [| tauto].
    intros H. split; [exact H |]. intros s Hs. inversion Hs.
  - inversion Hall as [| ? ? Hs Hothers]; subst.
    destruct (IH (mergeSnapshots s acc) (mergeSnapshots_wf _ _ Hs Hacc) Hothers)
      as [Hwf Htr].
    split; [exact Hwf |]. intros O x. rewrite Htr.
    rewrite mergeSnapshots_trusted by assumption.
    split.
    + intros [[H1 H2] H3]. split; [exact H2 |].
      intros s' Hs'. apply elem_of_cons in Hs'. destruct Hs' as [-> | Hs']; auto.
    + intros [H1 H2]. split; [split |].
      * apply H2. apply elem_of_cons. left. reflexivity.
      * exact H1.
      * intros s' Hs'. apply H2. apply elem_of_cons. right. exact Hs'.
Qed.

(** C1 -- merge soundness.  [mergeStores] keeps exactly the bytes covered
    on both sides; hence, for every merge of well-formed incoming snapshots
    and for every object and byte, the byte is trusted in the merged
    snapshot if and only if it is trusted in every input: the trusted bytes
    of the result are the intersection of the inputs' trusted bytes. *)
Theorem merge_soundness :
  (forall mergeFrom mergeTo x,
      wf mergeFrom -> wf mergeTo ->
      (covers (mergeStores mergeFrom mergeTo) x
       <-> covers mergeFrom x /\ covers mergeTo x))
  /\ (forall inputs merged,
        Forall wfStore inputs -> doMerge inputs = Some merged ->
        wfStore merged
        /\ forall O x,
            trusted merged O x <-> forall s, s ∈ inputs -> trusted s O x).
Proof.
  split.
  - intros f t x Hf Ht. apply mergeStores_covers; assumption.
  - intros [| first others] merged Hall Hm; simpl in Hm; [discriminate |].
    injection Hm as <-.
    inversion Hall as [| ? ? Hfirst Hothers]; subst.
    destruct (fold_merge_trusted others first Hfirst Hothers) as [Hwf Htr].
    split; [exact Hwf |]. intros O x. rewrite Htr. split.
    + intros [H1 H2] s Hs. apply elem_of_cons in Hs. destruct Hs as [-> | Hs]; auto.
    + intros H. split.
      * apply H. apply elem_of_cons. left. reflexivity.
      * intros s Hs. apply H. apply elem_of_cons. right. exact Hs.
Qed.

Lemma store_eq (a b : TLLocalStore) :
  store a = store b -> allOthersClobbered a = allOthersClobbered b -> a = b.
Proof. destruct a, b; simpl; intros -> ->; reflexivity. Qed.

Lemma mergeSnapshots_comm a b :
  wfStore a -> wfStore b -> mergeSnapshots a b = mergeSnapshots b a.
Proof.
  intros Ha Hb. apply store_eq.
  - apply map_eq. intros O. rewrite !lookup_mergeSnapshots.
    destruct (store a !! O) as [f |] eqn:Ef, (store b !! O) as [t |] eqn:Et;
      simpl; try reflexivity.
    f_equal. apply mergeStores_comm; eauto.
  - simpl. apply orb_comm.
Qed.

Lemma mergeSnapshots_assoc a b c :
  wfStore a -> wfStore b -> wfStore c ->
  mergeSnapshots a (mergeSnapshots b c) = mergeSnapshots (mergeSnapshots a b) c.
Proof.
  intros Ha Hb Hc. apply store_eq.
  - apply map_eq. intros O. rewrite !lookup_mergeSnapshots. simpl.
    destruct (store a !! O) as [x |] eqn:Ex, (store b !! O) as [y |] eqn:Ey,
             (store c !! O) as [z |] eqn:Ez;
      destruct (allOthersClobbered a), (allOthersClobbered b),
               (allOthersClobbered c); simpl;
      rewrite ?mergeStores_nil_l, ?mergeStores_nil_r by eauto;
      try reflexivity.
    all: f_equal; apply mergeStores_assoc; eauto.
  - simpl. apply orb_assoc.
Qed.

Lemma mergeSnapshots_idem a : wfStore a -> mergeSnapshots a a = a.
Proof.
  intros Ha. apply store_eq.
  - apply map_eq. intros O. rewrite lookup_mergeSnapshots.
    destruct (store a !! O) as [f |] eqn:Ef; simpl; [| reflexivity].
    f_equal. apply mergeStores_idem; eauto.
  - simpl. apply orb_diag.
Qed.

Lemma mergeInto_swap acc x y :
  wfStore acc -> wfStore x -> wfStore y ->
  mergeInto (mergeInto acc x) y = mergeInto (mergeInto acc y) x.
Proof.
  intros Hacc Hx Hy. unfold mergeInto.
  rewrite (mergeSnapshots_assoc y x acc) by assumption.
  rewrite (mergeSnapshots_assoc x y acc) by assumption.
  rewrite (mergeSnapshots_comm y x) by assumption. reflexivity.
Qed.

Lemma fold_mergeInto_perm xs ys :
  Permutation xs ys ->
  forall acc, wfStore acc -> Forall wfStore xs ->
    fold_left mergeInto xs acc = fold_left mergeInto ys acc.
Proof.
  induction 1 as [| x xs ys Hp IH | x y xs | xs ys zs Hp1 IH1 Hp2 IH2];
    intros acc Hacc Hall; simpl.
  - reflexivity.
  - inversion Hall; subst. apply IH; [apply mergeSnapshots_wf |]; assumption.
  - inversion Hall as [| ? ? Hy Hall']; subst.
    inversion Hall' as [| ? ? Hx Hall'']; subst.
    rewrite (mergeInto_swap acc y x) by assumption. reflexivity.
  - rewrite IH1 by assumption. apply IH2; [assumption |].
    eapply Permutation_Forall; eassumption.
Qed.

Lemma fold_mergeInto_absorb l : forall a acc,
  a ∈ l -> wfStore a -> wfStore acc -> Forall wfStore l ->
  fold_left mergeInto l (mergeInto acc a) = fold_left mergeInto l acc.
Proof.
  induction l as [| h t IH]; intros a acc Hin Ha Hacc Hall.
  - inversion Hin.
  - inversion Hall as [| ? ? Hh Ht]; subst. simpl.
    apply elem_of_cons in Hin. destruct Hin as [-> | Hin].
    + f_equal. unfold mergeInto.
      rewrite (mergeSnapshots_assoc h h acc) by assumption.
      rewrite mergeSnapshots_idem by assumption. reflexivity.
    + rewrite (mergeInto_swap acc a h) by assumption.
      apply IH; try assumption. apply mergeSnapshots_wf; assumption.
Qed.

Lemma doMerge_fold x xs :
  wfStore x -> doMerge (x :: xs) = Some (fold_left mergeInto (x :: xs) x).
Proof.
  intros Hx. simpl. unfold mergeInto at 2.
  rewrite mergeSnapshots_idem by assumption. reflexivity.
Qed.

Lemma doMerge_perm l l' :
  Forall wfStore l -> Permutation l l' -> doMerge l = doMerge l'.
Proof.
  intros Hall Hp.
  assert (Hall' : Forall wfStore l') by (eapply Permutation_Forall; eassumption).
  destruct l as [| x xs], l' as [| y ys].
  - reflexivity.
  - apply Permutation_nil_l in Hp. discriminate.
  - apply Permutation_nil_r in Hp. discriminate.
  - assert (Hx : wfStore x) by (inversion Hall; assumption).
    assert (Hy : wfStore y) by (inversion Hall'; assumption).
    rewrite (doMerge_fold x xs Hx), (doMerge_fold y ys Hy). f_equal.
    rewrite (fold_mergeInto_perm _ _ Hp x Hx Hall).
    assert (Hxin : x ∈ y :: ys).
    { rewrite <- Hp. apply elem_of_cons. left. reflexivity. }
    assert (Hyin : y ∈ y :: ys) by (apply elem_of_cons; left; reflexivity).
    rewrite <- (fold_mergeInto_absorb (y :: ys) y x Hyin Hy Hx Hall').
    rewrite <- (fold_mergeInto_absorb (y :: ys) x y Hxin Hx Hy Hall').
    f_equal. unfold mergeInto. apply mergeSnapshots_comm; assumption.
Qed.

(** Merging the results of two groups of inputs is merging all of them. *)
Lemma fold_mergeInto_group ys : forall acc b,
  wfStore acc -> wfStore b -> Forall wfStore ys ->
  mergeInto acc (fold_left mergeInto ys b) = fold_left mergeInto ys (mergeInto acc b).
Proof.
  induction ys as [| y ys IH]; intros acc b Hacc Hb Hall; simpl.
  - reflexivity.
  - inversion Hall as [| ? ? Hy Hys]; subst.
    rewrite IH; try assumption; [| apply mergeSnapshots_wf; assumption].
    f_equal. unfold mergeInto. symmetry. apply mergeSnapshots_assoc; assumption.
Qed.

(** C2 -- the merge is commutative, associative and idempotent, on the
    byte ranges of one object ([mergeStores]) and on whole snapshots (byte
    ranges and flag); merging any permutation of the same inputs yields the
    same snapshot, and so does merging them in two groups and then merging
    the two results. *)
Theorem merge_algebra :
  (forall a b, wf a -> wf b -> mergeStores a b = mergeStores b a)
  /\ (forall a b c, wf a -> wf b -> wf c ->
        mergeStores a (mergeStores b c) = mergeStores (mergeStores a b) c)
  /\ (forall a, wf a -> mergeStores a a = a)
  /\ (forall a b, wfStore a -> wfStore b -> mergeSnapshots a b = mergeSnapshots b a)
  /\ (forall a b c, wfStore a -> wfStore b -> wfStore c ->
        mergeSnapshots a (mergeSnapshots b c) = mergeSnapshots (mergeSnapshots a b) c)
  /\ (forall a, wfStore a -> mergeSnapshots a a = a /\ doMerge [a; a] = Some a)
  /\ (forall l l', Forall wfStore l -> Permutation l l' -> doMerge l = doMerge l')
  /\ (forall x xs y ys r1 r2,
        Forall wfStore (x :: xs) -> Forall wfStore (y :: ys) ->
        doMerge (x :: xs) = Some r1 -> doMerge (y :: ys) = Some r2 ->
        doMerge [r1; r2] = doMerge ((x :: xs) ++ (y :: ys))).
Proof.
  split; [exact mergeStores_comm |].
  split; [exact mergeStores_assoc |].
  split; [exact mergeStores_idem |].
  split; [exact mergeSnapshots_comm |].
  split; [exact mergeSnapshots_assoc |].
  split.
  { intros a Ha. split; [apply mergeSnapshots_idem; exact Ha |].
    simpl. rewrite mergeSnapshots_idem by exact Ha. reflexivity. }
  split; [exact doMerge_perm |].
  intros x xs y ys r1 r2 Hxs Hys H1 H2. simpl in H1, H2.
  injection H1 as <-. injection H2 as <-.
  inversion Hxs as [| ? ? Hx Hxs']; subst.
  inversion Hys as [| ? ? Hy Hys']; subst.
  simpl. f_equal. rewrite fold_left_app. simpl.
  fold mergeInto.
  destruct (fold_merge_trusted xs x Hx Hxs') as [Hwf1 _].
  fold mergeInto in Hwf1.
  change (mergeSnapshots (fold_left mergeInto ys y) (fold_left mergeInto xs x))
    with (mergeInto (fold_left mergeInto xs x) (fold_left mergeInto ys y)).
  apply fold_mergeInto_group; assumption.
Qed.

End MergeFacts.

(** ** Marking bytes as good *)

Module MarkFacts.
Import IntervalMap IntervalMapFacts TLMap TLMapFacts TL TLProps.

(** Inserting a non-empty range disjoint from the map adds its bytes and
    keeps the map well formed. *)
Lemma insert_spec m : forall lo hi a b,
  wfb lo hi m -> lo <= a -> a < b -> b <= hi ->
  (forall x, a <= x < b -> ~ covers m x) ->
  wfb lo hi (insert a b m)
  /\ forall x, covers (insert a b m) x <-> (a <= x < b \/ covers m x).
Proof.
  induction m as [| [s e] m IH]; simpl; intros lo hi a b H Hlo Hab Hhi Hdis.
  - split; [lia |]. intros x. tauto.
  - destruct H as (H1 & H2 & H3 & H4).
    destruct (Z.ltb_spec b s) as [Hbs | Hbs].
    { simpl. split; [| intros x; tauto].
      repeat split; try lia.
      apply wfb_weaken with (lo := e + 1) (hi := hi); auto; lia. }
    destruct (Z.eqb_spec b s) as [Heq | Hne].
    { simpl. split; [repeat split; try lia; exact H4 |].
      intros x. split.
      - intros [Hx | Hx]; [| right; right; exact Hx].
        destruct (Z_lt_le_dec x b); [left; lia | right; left; lia].
      - intros [Hx | [Hx | Hx]]; [left; lia | left; lia | right; exact Hx]. }
    assert (Hea : e <= a).
    { destruct (Z_lt_le_dec a e) as [Hlt | Hge]; [| exact Hge].
      exfalso. apply (Hdis (Z.max a s)); [lia | left; lia]. }
    destruct (Z.eqb_spec e a) as [Heq | Hne'].
    + subst a.
      destruct (IH lo hi s b) as [Hwf Hcov]; try lia.
      * apply wfb_weaken with (lo := e + 1) (hi := hi); auto; lia.
      * intros x Hx Hc. pose proof (wfb_covers_bounds _ _ _ _ H4 Hc) as Hb.
        apply (Hdis x); [lia | right; exact Hc].
      * split; [exact Hwf |]. intros x. rewrite Hcov. split.
        -- intros [Hx | Hx]; [| right; right; exact Hx].
           destruct (Z_lt_le_dec x e); [right; left; lia | left; lia].
        -- intros [Hx | [Hx | Hx]]; [left; lia | left; lia | right; exact Hx].
    + destruct (IH (e + 1) hi a b) as [Hwf Hcov]; try lia; auto.
      * intros x Hx Hc. apply (Hdis x); [exact Hx | right; exact Hc].
      * simpl. split; [repeat split; try lia; exact Hwf |].
        intros x. rewrite Hcov. tauto.
Qed.

(** Inserting a well-formed list of ranges disjoint from the map. *)
Lemma insertAll_spec rs : forall lo lo' hi m,
  wfb lo' hi rs -> wfb lo hi m -> lo <= lo' ->
  (forall x, covers rs x -> ~ covers m x) ->
  wfb lo hi (insertAll rs m)
  /\ forall x, covers (insertAll rs m) x <-> (covers rs x \/ covers m x).
Proof.
  unfold insertAll.
  induction rs as [| [a b] rs IH]; simpl; intros lo lo' hi m Hrs Hm Hlo Hdis.
  - split; [exact Hm |]. intros x. tauto.
  - destruct Hrs as (H1 & H2 & H3 & H4).
    destruct (insert_spec m lo hi a b Hm) as [Hwf Hcov]; try lia.
    { intros x Hx. apply Hdis. left. exact Hx. }
    destruct (IH lo (b + 1) hi (insert a b m) H4 Hwf) as [Hwf' Hcov']; try lia.
    { intros x Hx. rewrite Hcov. intros [Hc | Hc].
      - pose proof (wfb_covers_bounds _ _ _ _ H4 Hx). lia.
      - apply (Hdis x); [right; exact Hx | exact Hc]. }
    split; [exact Hwf' |]. intros x. rewrite Hcov', Hcov. tauto.
Qed.

Lemma gapsFrom_spec rest : forall s e lb hi stop,
  wfb lb hi ((s, e) :: rest) ->
  wfb e stop (gapsFrom stop ((s, e) :: rest))
  /\ forall x, covers (gapsFrom stop ((s, e) :: rest)) x
               <-> (e <= x < stop /\ ~ covers rest x).
Proof.
  induction rest as [| [ns ne] rest IH]; intros s e lb hi stop H.
  - simpl in *. destruct H as (H1 & H2 & H3 & _).
    destruct (Z.ltb_spec s stop); [| simpl; split; [exact I | intros x; lia]].
    destruct (Z.ltb_spec e stop); [| simpl; split; [exact I | intros x; lia]].
    destruct (Z.eqb_spec e stop); [lia |].
    simpl. split; [lia |]. intros x. tauto.
  - destruct H as (H1 & H2 & H3 & H4).
    destruct (IH ns ne (e + 1) hi stop H4) as [Hwf Hcov].
    simpl in H4. destruct H4 as (H5 & H6 & H7 & H8).
    change (gapsFrom stop ((s, e) :: (ns, ne) :: rest)) with
      (if s <? stop then
         (if e <? stop then
            if e =? Z.min stop ns then [] else [(e, Z.min stop ns)]
          else []) ++ gapsFrom stop ((ns, ne) :: rest)
       else []).
    destruct (Z.ltb_spec s stop) as [Hs | Hs].
    2:{ split; [exact I |]. intros x. simpl. lia. }
    destruct (Z.ltb_spec e stop) as [He | He].
    2:{ rewrite app_nil_l. split.
        - apply wfb_weaken with (lo := ne) (hi := stop); auto; lia.
        - intros x. rewrite Hcov. simpl. lia. }
    destruct (Z.eqb_spec e (Z.min stop ns)) as [Heq | Hne]; [lia |].
    split.
    + simpl. repeat split; try lia.
      apply wfb_weaken with (lo := ne) (hi := stop); auto; lia.
    + intros x. rewrite covers_app, Hcov. simpl. split.
      * intros [[Hx | []] | [Hx Hc]].
        -- split; [lia |]. intros [Hc | Hc]; [lia |].
           pose proof (wfb_covers_bounds _ _ _ _ H8 Hc). lia.
        -- split; [lia |]. intros [Hc' | Hc']; [lia | contradiction].
      * intros [Hx Hc]. destruct (Z_lt_le_dec x ns) as [Hlt | Hge].
        -- left. left. lia.
        -- right. split; [| tauto]. destruct (Z_lt_le_dec x ne); [| lia].
           exfalso. apply Hc. left. lia.
Qed.

(** The ranges [markGoodBytes] adds are the bytes of [start, stop) the map
    does not cover yet. *)
Lemma addRanges_spec M start stop hi :
  wfb 0 hi M -> 0 <= start -> start < stop -> stop <= hi ->
  wfb start stop (addRanges start stop (Some M))
  /\ forall x, covers (addRanges start stop (Some M)) x
               <-> (start <= x < stop /\ ~ covers M x).
Proof.
  intros HM H0 Hlt Hhi. unfold addRanges.
  pose proof (find_wfb M 0 hi start HM) as Hfw.
  pose proof (fun y => find_covers M 0 hi start y HM) as Hfc.
  destruct (find start M) as [| [s e] rest] eqn:Ef.
  - simpl. split; [lia |]. intros x. split.
    + intros [Hx | []]. split; [exact Hx |]. intros Hc.
      apply (Hfc x) in Hc; [exact Hc | lia].
    + intros [Hx _]. left. exact Hx.
  - pose proof (find_head M start s e rest Ef) as Hse.
    destruct (Z.leb_spec stop s) as [Hss | Hss].
    + simpl. split; [lia |]. intros x. split.
      * intros [Hx | []]. split; [exact Hx |]. intros Hc.
        apply (Hfc x) in Hc; [| lia].
        pose proof (wfb_covers_bounds _ _ _ _ Hfw Hc). simpl in Hc.
        simpl in Hfw. destruct Hfw as (F1 & F2 & F3 & F4).
        destruct Hc as [Hc | Hc]; [lia |].
        pose proof (wfb_covers_bounds _ _ _ _ F4 Hc). lia.
      * intros [Hx _]. left. exact Hx.
    + destruct (gapsFrom_spec rest s e 0 hi stop Hfw) as [Hgw Hgc].
      pose proof Hfw as Hfw'. simpl in Hfw'. destruct Hfw' as (F1 & F2 & F3 & F4).
      assert (Hnotrest : forall x, x < e -> ~ covers rest x).
      { intros x Hx Hc. pose proof (wfb_covers_bounds _ _ _ _ F4 Hc). lia. }
      destruct (Z.ltb_spec start s) as [Hst | Hst].
      * split.
        -- change ([(start, s)] ++ gapsFrom stop ((s, e) :: rest))
             with ((start, s) :: gapsFrom stop ((s, e) :: rest)).
           simpl. repeat split; try lia.
           apply wfb_weaken with (lo := e) (hi := stop); auto; lia.
        -- intros x. rewrite covers_app, Hgc. simpl. split.
           ++ intros [[Hx | []] | [Hx Hc]].
              ** split; [lia |]. intros Hc. apply (Hfc x) in Hc; [| lia].
                 simpl in Hc. destruct Hc as [Hc | Hc]; [lia |].
                 apply (Hnotrest x); [lia | exact Hc].
              ** split; [lia |]. intros Hc'. apply (Hfc x) in Hc'; [| lia].
                 simpl in Hc'. destruct Hc' as [Hc' | Hc']; [lia | contradiction].
           ++ intros [Hx Hc]. destruct (Z_lt_le_dec x s) as [Hxs | Hxs].
              ** left. left. lia.
              ** right. assert (Hnc : ~ covers ((s, e) :: rest) x).
                 { intros Hc'. apply Hc. apply (Hfc x); [lia | exact Hc']. }
                 simpl in Hnc. split; [| tauto].
                 destruct (Z_lt_le_dec x e); [exfalso; apply Hnc; left; lia | lia].
      * rewrite app_nil_l. split.
        -- apply wfb_weaken with (lo := e) (hi := stop); auto; lia.
        -- intros x. rewrite Hgc. split.
           ++ intros [Hx Hc]. split; [lia |]. intros Hc'.
              apply (Hfc x) in Hc'; [| lia]. simpl in Hc'.
              destruct Hc' as [Hc' | Hc']; [lia | contradiction].
           ++ intros [Hx Hc].
              assert (Hnc : ~ covers ((s, e) :: rest) x).
              { intros Hc'. apply Hc. apply (Hfc x); [lia | exact Hc']. }
              simpl in Hnc. split; [| tauto].
              destruct (Z_lt_le_dec x e); [exfalso; apply Hnc; left; lia | lia].
Qed.

(** When every byte of [a, b) is covered, the interval found at [a]
    contains the whole range. *)
Lemma find_covering M : forall lo hi a b,
  wfb lo hi M -> a < b -> (forall x, a <= x < b -> covers M x) ->
  exists s e rest, find a M = (s, e) :: rest /\ s <= a /\ b <= e.
Proof.
  induction M as [| [s e] M IH]; simpl; intros lo hi a b H Hab Hc.
  - exfalso. apply (Hc a). lia.
  - destruct H as (H1 & H2 & H3 & H4).
    destruct (Z.leb_spec e a) as [Hle | Hgt].
    + apply (IH (e + 1) hi a b H4 Hab). intros x Hx.
      destruct (Hc x Hx) as [Hh | Ht]; [lia | exact Ht].
    + exists s, e, M. split; [reflexivity |].
      assert (Hs : s <= a).
      { destruct (Hc a) as [Hh | Ht]; [lia | lia |].
        pose proof (wfb_covers_bounds _ _ _ _ H4 Ht). lia. }
      split; [exact Hs |].
      destruct (Z_lt_le_dec e b) as [Hlt | Hge]; [| exact Hge].
      exfalso. destruct (Hc e) as [Hh | Ht]; [lia | lia |].
      pose proof (wfb_covers_bounds _ _ _ _ H4 Ht). lia.
Qed.

Lemma wfStore63_wfStore s : wfStore63 s -> wfStore s.
Proof.
  intros H O M HM. unfold wf.
  apply wfb_weaken with (lo := 0) (hi := two63 - 1); [eauto | lia |].
  unfold two63, two64. lia.
Qed.

Lemma covers_dec M x : covers M x \/ ~ covers M x.
Proof.
  rewrite <- coversb_spec. destruct (coversb M x); [left | right]; congruence.
Qed.

Lemma markRange_spec s O start stop :
  wfStore63 s -> 0 <= start -> start < stop -> stop < two63 ->
  wfStore63 (markRange s O start stop)
  /\ allOthersClobbered (markRange s O start stop) = allOthersClobbered s
  /\ (forall O', O' <> O -> store (markRange s O start stop) !! O' = store s !! O')
  /\ exists M', store (markRange s O start stop) !! O = Some M'
       /\ forall x, covers M' x
                    <-> (start <= x < stop \/ covers (default [] (store s !! O)) x).
Proof.
  intros Hwf H0 Hlt Hhi. unfold markRange, getReadableStoreFor, getWritableTLStore.
  destruct (store s !! O) as [M |] eqn:EM.
  - pose proof (Hwf O M EM) as HM.
    destruct (addRanges_spec M start stop (two63 - 1) HM H0 Hlt ltac:(lia))
      as [Haw Hac].
    destruct (addRanges start stop (Some M)) as [| r add] eqn:Ea.
    + repeat split; auto.
      exists M. split; [exact EM |]. intros x. simpl. split; [tauto |].
      intros [Hx | Hc]; [| exact Hc].
      destruct (covers_dec M x) as [Hc | Hn]; [exact Hc |].
      exfalso. apply (proj2 (Hac x)). split; assumption.
    + destruct (insertAll_spec (r :: add) 0 start (two63 - 1) M) as [Hiw Hic]; auto.
      { apply wfb_weaken with (lo := start) (hi := stop); auto; lia. }
      { intros x Hx. apply Hac in Hx. tauto. }
      unfold setMap. simpl. repeat split.
      * intros O' M'. simpl. destruct (decide (O' = O)) as [-> | Hne].
        -- rewrite lookup_insert_eq. intros [= <-]. exact Hiw.
        -- rewrite lookup_insert_ne by congruence. apply Hwf.
      * intros O' Hne. rewrite lookup_insert_ne by congruence. reflexivity.
      * eexists. split; [apply lookup_insert_eq |].
        intros x. rewrite Hic, Hac. simpl.
        destruct (covers_dec M x); tauto.
  - simpl. unfold setMap. simpl. repeat split.
    + intros O' M'. simpl. destruct (decide (O' = O)) as [-> | Hne].
      * rewrite lookup_insert_eq. intros [= <-]. simpl. lia.
      * rewrite !lookup_insert_ne by congruence. apply Hwf.
    + intros O' Hne. rewrite !lookup_insert_ne by congruence. reflexivity.
    + eexists. split; [apply lookup_insert_eq |].
      intros x. simpl. tauto.
Qed.

Lemma trusted_clobbered s O x :
  allOthersClobbered s = true ->
  (trusted s O x <-> covers (default [] (store s !! O)) x).
Proof.
  intros Hc. unfold trusted. destruct (store s !! O); simpl; [tauto |].
  rewrite Hc. split; [discriminate | tauto].
Qed.

(** A read needs no check exactly when all its bytes are trusted. *)
Lemma shouldCheckRead_trusted Ptr Size s :
  wfStore63 s ->
  isNullPointer (V Ptr) = false -> isConstantGV (V Ptr) = false ->
  0 <= Offset Ptr -> 0 < Size -> Offset Ptr + Size < two63 ->
  (shouldCheckRead Ptr Size s = false
   <-> forall x, Offset Ptr <= x < Offset Ptr + Size -> trusted s (V Ptr) x).
Proof.
  intros Hwf Hn Hg H0 Hs Hhi.
  unfold shouldCheckRead, trusted, getReadableStoreFor. rewrite Hn, Hg.
  assert (H63 : two63 < two64) by (unfold two63, two64; lia).
  destruct (store s !! V Ptr) as [M |] eqn:EM.
  - pose proof (Hwf _ _ EM) as HM.
    rewrite (to_u64_id (Offset Ptr)) by lia.
    rewrite (to_i64_id Size) by lia.
    rewrite (to_i64_id (Offset Ptr + Size)) by lia.
    pose proof (find_wfb M 0 (two63 - 1) (Offset Ptr) HM) as Hfw.
    split.
    + intros Hcov x Hx.
      destruct (find (Offset Ptr) M) as [| [s0 e0] rest] eqn:Ef; [discriminate |].
      simpl in Hfw. destruct Hfw as (F1 & F2 & F3 & F4).
      rewrite (to_i64_id s0), (to_i64_id e0) in Hcov by lia.
      apply negb_false_iff, andb_true_iff in Hcov.
      rewrite !Z.leb_le in Hcov.
      apply (find_covers M 0 (two63 - 1) (Offset Ptr) x HM); [lia |].
      rewrite Ef. simpl. left. lia.
    + intros Hall.
      destruct (find_covering M 0 (two63 - 1) (Offset Ptr) (Offset Ptr + Size) HM)
        as (s0 & e0 & rest & Ef & Hs0 & He0); [lia | exact Hall |].
      rewrite Ef in Hfw |- *. simpl in Hfw. destruct Hfw as (F1 & F2 & F3 & F4).
      rewrite (to_i64_id s0), (to_i64_id e0) by lia.
      apply negb_false_iff, andb_true_iff. rewrite !Z.leb_le. lia.
  - split.
    + intros Hc x _. exact Hc.
    + intros Hall. apply (Hall (Offset Ptr)). lia.
Qed.

End MarkFacts.

(** ** Properties of the classifier *)

Module ClassifierFacts.
Import IntervalMap IntervalMapFacts TLMap TLMapFacts TL TLProps MarkFacts.

(** *** Atomic read-modify-write and compare-and-swap *)

Lemma isCopyInst_atomic SI : isAtomicRMWOrCmpXchg SI -> isCopyInst SI = false.
Proof. intros [H | H]; unfold isCopyInst; rewrite H; reflexivity. Qed.

Lemma kind_setIsThreadLocal SI t : kind (setIsThreadLocal SI t) = kind SI.
Proof. reflexivity. Qed.

(** Squashing either leaves the check requirement alone or makes it
    [TLS_NEVERCHECK]. *)
Lemma squash_isThreadLocal R SI ila SI' :
  squashUnavailableObjects R SI ila = Some SI' ->
  isThreadLocal SI' = isThreadLocal SI \/ isThreadLocal SI' = TLS_NEVERCHECK.
Proof.
  unfold squashUnavailableObjects.
  destruct (bool_decide (kind SI = KLoad) || bool_decide (kind SI = KAtomicCmpXchg)).
  - destruct (PB SI) as [[IVS | vals] |].
    + destruct (squashUnavailableObject R IVS ila (getOperand SI 0)) as [[] |];
        intros [= <-]; simpl; auto.
    + destruct (squashRanges R ila (getOperand SI 0) None vals) as [[vals' []] |];
        intros [= <-]; simpl; auto.
    + intros [= <-]. auto.
  - destruct (memcpyValues SI) as [vals |].
    + destruct (squashRanges R ila (getCopySource SI) (Some (getCopyDest SI)) vals)
        as [[vals' []] |]; intros [= <-]; simpl; auto.
    + intros [= <-]. auto.
Qed.

(** C3, as amended -- outside single-threaded-program mode, and unless the
    speculated result is a wholly unknown single value set, the classifier
    answers [TLS_MUSTCHECK] for an atomic read-modify-write or
    compare-and-swap whatever the snapshot; [TLAnalyseInstruction] assigns
    that answer to an instruction not already marked [TLS_NEVERCHECK],
    and the instruction keeps it unless availability patching squashes its
    result, which makes it [TLS_NEVERCHECK]. *)
Theorem atomic_must_check G SI :
  isAtomicRMWOrCmpXchg SI ->
  programSingleThreaded G = false ->
  readsMemoryDirectly SI && isSingleWhollyUnknown (PB SI) = false ->
  (forall s, shouldCheckLoad G SI s = TLS_MUSTCHECK)
  /\ (forall R cdh secondPass ila st SI' st' R',
        readsMemoryDirectly SI = true ->
        isThreadLocal SI <> TLS_NEVERCHECK ->
        TLAnalyseInstruction G R SI cdh secondPass ila st = Some (SI', st', R') ->
        isThreadLocal SI' = TLS_MUSTCHECK
        \/ (isThreadLocal SI' = TLS_NEVERCHECK
            /\ squashUnavailableObjects R (setIsThreadLocal SI TLS_MUSTCHECK) ila
               = Some SI')).
Proof.
  intros Hk Hst Hwu.
  assert (Hcl : forall s, shouldCheckLoad G SI s = TLS_MUSTCHECK).
  { intros s. unfold shouldCheckLoad. rewrite Hst.
    rewrite (isCopyInst_atomic SI Hk). simpl.
    rewrite andb_true_r. rewrite Hwu.
    destruct Hk as [Hk | Hk]; rewrite Hk; reflexivity. }
  split; [exact Hcl |].
  intros R cdh secondPass ila st SI' st' R' Hr Hnn.
  unfold TLAnalyseInstruction. rewrite Hr.
  destruct (secondPass && bool_decide (isThreadLocal SI = TLS_MUSTCHECK)) eqn:E2.
  - intros [= <- <- <-]. left.
    apply andb_true_iff in E2. destruct E2 as [_ E2].
    apply bool_decide_eq_true in E2. exact E2.
  - rewrite (bool_decide_eq_false_2 (isThreadLocal SI = TLS_NEVERCHECK)) by exact Hnn.
    rewrite Hcl. simpl isThreadLocal.
    rewrite (bool_decide_eq_true_2 (TLS_MUSTCHECK = TLS_MUSTCHECK)) by reflexivity.
    destruct (squashUnavailableObjects R (setIsThreadLocal SI TLS_MUSTCHECK) ila)
      as [SI2 |] eqn:Esq; [| discriminate].
    intros [= <- <- <-].
    destruct (squash_isThreadLocal _ _ _ _ Esq) as [H | H].
    + left. rewrite H. reflexivity.
    + right. split; [exact H | reflexivity].
Qed.

(** *** Reads that produced nothing *)

(** C10 -- a plain load whose value-propagation result is a wholly unknown
    single value set is classified [TLS_NEVERCHECK]; so is a memory copy
    (a memory transfer, with its length as third argument, or the realloc
    case, with its length as second argument) whose length is not a known
    constant, or is zero, or for which no copied values were recorded.
    [TLAnalyseInstruction] then leaves such an instruction
    [TLS_NEVERCHECK], unless a second pass finds it already marked
    [TLS_MUSTCHECK]. *)
Theorem unknown_result_never_checked G SI s :
  let noLength (LenSV : Operand) :=
    tryGetConstantInt LenSV = None \/ tryGetConstantInt LenSV = Some 0
    \/ memcpyValues SI = None \/ memcpyValues SI = Some [] in
  let unusable :=
    (kind SI = KLoad /\ readsMemoryDirectly SI = true
     /\ isSingleWhollyUnknown (PB SI) = true)
    \/ (kind SI = KMemTransfer /\ noLength (getCallArgOperand SI 2))
    \/ (kind SI = KCall /\ noLength (getCallArgOperand SI 1)) in
  unusable ->
  shouldCheckLoad G SI s = TLS_NEVERCHECK
  /\ forall R cdh secondPass ila st SI' st' R',
       readsMemoryDirectly SI = true ->
       secondPass = false \/ isThreadLocal SI <> TLS_MUSTCHECK ->
       TLAnalyseInstruction G R SI cdh secondPass ila st = Some (SI', st', R') ->
       isThreadLocal SI' = TLS_NEVERCHECK.
Proof.
  intros noLength unusable Hu.
  assert (Hcopy : forall PtrOp LenSV s0, noLength LenSV ->
                    shouldCheckCopy SI PtrOp LenSV s0 = TLS_NEVERCHECK).
  { intros PtrOp LenSV s0 Hn. unfold shouldCheckCopy.
    destruct (tryGetConstantInt LenSV) as [Len |] eqn:EL; [| reflexivity].
    destruct (tryGetUniqueIV PtrOp) as [[ty Ptr] |]; [| reflexivity].
    destruct (negb (bool_decide (ty = ValSetTypePB))); [reflexivity |].
    destruct Hn as [Hn | [Hn | [Hn | Hn]]].
    - congruence.
    - assert (Len = 0) as -> by congruence. reflexivity.
    - rewrite Hn. destruct (Len =? 0); reflexivity.
    - rewrite Hn. destruct (Len =? 0); reflexivity. }
  assert (Hcl : forall s0, shouldCheckLoad G SI s0 = TLS_NEVERCHECK).
  { intros s0. unfold shouldCheckLoad.
    destruct (programSingleThreaded G); [reflexivity |].
    destruct (readsMemoryDirectly SI && negb (isCopyInst SI)
              && isSingleWhollyUnknown (PB SI)) eqn:Ew; [reflexivity |].
    destruct Hu as [(Hk & Hr & Hw) | [(Hk & Hn) | (Hk & Hn)]].
    - exfalso. unfold isCopyInst in Ew. rewrite Hk, Hr, Hw in Ew.
      simpl in Ew. discriminate.
    - rewrite Hk. apply Hcopy. exact Hn.
    - rewrite Hk. apply Hcopy. exact Hn. }
  split; [apply Hcl |].
  intros R cdh secondPass ila st SI' st' R' Hr Hsp.
  unfold TLAnalyseInstruction. rewrite Hr.
  assert (E2 : secondPass && bool_decide (isThreadLocal SI = TLS_MUSTCHECK) = false).
  { destruct Hsp as [-> | Hne]; [reflexivity |].
    rewrite bool_decide_eq_false_2 by exact Hne. apply andb_false_r. }
  rewrite E2.
  destruct (bool_decide (isThreadLocal SI = TLS_NEVERCHECK)) eqn:En.
  - apply bool_decide_eq_true in En. rewrite En.
    rewrite (bool_decide_eq_false_2 (TLS_NEVERCHECK = TLS_MUSTCHECK)) by discriminate.
    destruct (replaceUnavailableObjects R SI ila); [| discriminate].
    intros [= <- <- <-]. exact En.
  - rewrite Hcl. simpl isThreadLocal.
    rewrite (bool_decide_eq_false_2 (TLS_NEVERCHECK = TLS_MUSTCHECK)) by discriminate.
    destruct (replaceUnavailableObjects R _ ila); [| discriminate].
    intros [= <- <- <-]. reflexivity.
Qed.

(** *** Calls with a declared effect domain *)

Lemma shouldCheckRead_agree Ptr Size s s' :
  allOthersClobbered s = allOthersClobbered s' ->
  store s !! V Ptr = store s' !! V Ptr ->
  shouldCheckRead Ptr Size s = shouldCheckRead Ptr Size s'.
Proof.
  intros Ha Hl. unfold shouldCheckRead, getReadableStoreFor. rewrite Ha, Hl.
  reflexivity.
Qed.

Lemma anyRangeNeedsCheck_agree Ptr vals s s' :
  allOthersClobbered s = allOthersClobbered s' ->
  store s !! V Ptr = store s' !! V Ptr ->
  anyRangeNeedsCheck Ptr vals s = anyRangeNeedsCheck Ptr vals s'.
Proof.
  intros Ha Hl. unfold anyRangeNeedsCheck.
  induction vals as [| r vals IH]; simpl; [reflexivity |].
  rewrite IH. f_equal. f_equal. apply shouldCheckRead_agree; assumption.
Qed.

Lemma shouldCheckLoadFrom_agree SI Ptr LoadSize s s' :
  allOthersClobbered s = allOthersClobbered s' ->
  store s !! V Ptr = store s' !! V Ptr ->
  shouldCheckLoadFrom SI Ptr LoadSize s = shouldCheckLoadFrom SI Ptr LoadSize s'.
Proof.
  intros Ha Hl. unfold shouldCheckLoadFrom.
  rewrite (shouldCheckRead_agree Ptr LoadSize s s' Ha Hl).
  destruct (PB SI) as [[IVS | vals] |]; try reflexivity.
  rewrite (anyRangeNeedsCheck_agree Ptr vals s s' Ha Hl). reflexivity.
Qed.

Lemma checkEachTarget_agree G SI vals LoadSize s s' : forall result,
  allOthersClobbered s = allOthersClobbered s' ->
  (forall v, v ∈ vals -> store s !! V v = store s' !! V v) ->
  checkEachTarget G SI vals LoadSize s result
  = checkEachTarget G SI vals LoadSize s' result.
Proof.
  induction vals as [| v vals IH]; simpl; intros result Ha Hl; [reflexivity |].
  destruct (bool_decide (result = TLS_MUSTCHECK)); [reflexivity |].
  rewrite (shouldCheckLoadFrom_agree SI v LoadSize s s' Ha)
    by (apply Hl; apply elem_of_cons; left; reflexivity).
  apply IH; [exact Ha |].
  intros v' Hv'. apply Hl. apply elem_of_cons. right. exact Hv'.
Qed.

Lemma tryGetUniqueIV_target op ty iv :
  tryGetUniqueIV op = Some (ty, iv) -> V iv ∈ operandTargets op.
Proof.
  unfold tryGetUniqueIV, operandTargets. destruct (opVal op) as [IVS | ty' iv'].
  - destruct (Values IVS) as [| v [| v' vs]]; try discriminate.
    intros [= <- <-]. simpl. apply elem_of_cons. left. reflexivity.
  - intros [= <- <-]. apply elem_of_cons. left. reflexivity.
Qed.

Lemma shouldCheckCopy_agree SI PtrOp LenSV s s' :
  agreeOn (operandTargets PtrOp) s s' ->
  shouldCheckCopy SI PtrOp LenSV s = shouldCheckCopy SI PtrOp LenSV s'.
Proof.
  intros [Ha Hl]. unfold shouldCheckCopy.
  destruct (tryGetConstantInt LenSV) as [Len |]; [| reflexivity].
  destruct (tryGetUniqueIV PtrOp) as [[ty Ptr] |] eqn:Eu; [| reflexivity].
  destruct (negb (bool_decide (ty = ValSetTypePB))); [reflexivity |].
  destruct (Len =? 0); [reflexivity |].
  destruct (memcpyValues SI) as [[| r vals] |]; try reflexivity.
  rewrite (anyRangeNeedsCheck_agree Ptr (r :: vals) s s' Ha)
    by (apply Hl; eapply tryGetUniqueIV_target; exact Eu).
  reflexivity.
Qed.

Lemma operandTargets_inst SI i O :
  O ∈ operandTargets (getOperand SI i) -> O ∈ instTargets SI.
Proof.
  unfold getOperand, instTargets. intros H.
  destruct (operands SI !! i) as [op |] eqn:E; simpl in H.
  - apply list_elem_of_In, in_flat_map. exists op. split.
    + apply list_elem_of_In. eapply list_elem_of_lookup_2. exact E.
    + apply list_elem_of_In. exact H.
  - inversion H.
Qed.

(** The classification only looks at the flag and at the objects the
    instruction's pointer operands name. *)
Lemma shouldCheckLoad_agree G SI s s' :
  agreeOn (instTargets SI) s s' ->
  shouldCheckLoad G SI s = shouldCheckLoad G SI s'.
Proof.
  intros [Ha Hl].
  assert (Hop : forall i, agreeOn (operandTargets (getOperand SI i)) s s').
  { intros i. split; [exact Ha |]. intros O HO. apply Hl.
    eapply operandTargets_inst. exact HO. }
  unfold shouldCheckLoad.
  destruct (programSingleThreaded G); [reflexivity |].
  destruct (readsMemoryDirectly SI && negb (isCopyInst SI)
            && isSingleWhollyUnknown (PB SI)); [reflexivity |].
  destruct (kind SI); try (apply shouldCheckCopy_agree; apply Hop); try reflexivity.
  destruct (hasOrderingConstraint SI); [reflexivity |].
  destruct (Hop 0%nat) as [_ Hl0]. unfold operandTargets in Hl0.
  destruct (opVal (getOperand SI 0)) as [IVS | ty iv].
  - destruct (whollyUnknown IVS || negb (bool_decide (SetType IVS = ValSetTypePB)));
      [reflexivity |].
    apply checkEachTarget_agree; [exact Ha |].
    intros v Hv. apply Hl0. apply list_elem_of_fmap. exists v. split; [reflexivity | exact Hv].
  - destruct (negb (bool_decide (ty = ValSetTypePB))); [reflexivity |].
    apply shouldCheckLoadFrom_agree; [exact Ha |].
    apply Hl0. apply elem_of_cons. left. reflexivity.
Qed.

Lemma clobberDomain_spec dom : forall s,
  allOthersClobbered (clobberDomain dom s) = allOthersClobbered s
  /\ (forall X, X ∉ dom -> store (clobberDomain dom s) !! X = store s !! X)
  /\ (forall X, X ∈ dom -> store (clobberDomain dom s) !! X = Some []).
Proof.
  unfold clobberDomain.
  induction dom as [| g dom IH]; simpl; intros s.
  - repeat split; auto. intros X HX. inversion HX.
  - set (s1 := setMap (getWritableTLStore s g).1 g (clear (getWritableTLStore s g).2)).
    destruct (IH s1) as (Ha & Hout & Hin).
    assert (Hs1 : allOthersClobbered s1 = allOthersClobbered s
                  /\ store s1 !! g = Some []
                  /\ forall X, X <> g -> store s1 !! X = store s !! X).
    { unfold s1, setMap, getWritableTLStore, clear.
      destruct (store s !! g) eqn:Eg; simpl.
      - repeat split; [apply lookup_insert_eq |].
        intros X HX. apply lookup_insert_ne. congruence.
      - repeat split; [apply lookup_insert_eq |].
        intros X HX. rewrite !lookup_insert_ne by congruence. reflexivity. }
    destruct Hs1 as (Ha1 & Hg1 & Hne1).
    split; [congruence |]. split.
    + intros X HX. rewrite Hout.
      * apply Hne1. intros ->. apply HX. apply elem_of_cons. left. reflexivity.
      * intros HX'. apply HX. apply elem_of_cons. right. exact HX'.
    + intros X HX. destruct (decide (X ∈ dom)) as [Hd | Hd]; [apply Hin; exact Hd |].
      rewrite Hout by exact Hd.
      apply elem_of_cons in HX. destruct HX as [-> | HX]; [exact Hg1 | contradiction].
Qed.

(** C5 -- processing a call with a declared effect domain leaves the
    flag and the byte ranges of every object outside the domain unchanged,
    so every instruction whose pointer operands only name objects outside
    the domain is classified after the call as it would have been before;
    when the call does clobber (it is a possible yield point and no
    pessimistic lock covers it), each object of the domain loses all its
    trusted ranges. *)
Theorem lock_domain_frame G R SI dom cdh secondPass ila st SI' st' R' :
  callWithDomain SI dom ->
  TLAnalyseInstruction G R SI cdh secondPass ila st = Some (SI', st', R') ->
  allOthersClobbered (tlStore st') = allOthersClobbered (tlStore st)
  /\ (forall X, X ∉ dom -> store (tlStore st') !! X = store (tlStore st) !! X)
  /\ (forall L, (forall X, X ∈ instTargets L -> X ∉ dom) ->
                shouldCheckLoad G L (tlStore st') = shouldCheckLoad G L (tlStore st))
  /\ (((calledFunction SI = None /\ programSingleThreaded G = false)
        \/ isYieldFunction SI = true) ->
       inPessimisticLocks SI = false ->
       forall X, X ∈ dom -> store (tlStore st') !! X = Some []).
Proof.
  intros (Hk & Hr & Hf & Hsf & Hd) HT.
  unfold TLAnalyseInstruction in HT. rewrite Hr, Hk in HT. simpl in HT.
  destruct (replaceUnavailableObjects R SI ila) as [R1 |]; [| discriminate].
  injection HT as <- <- <-.
  unfold updateTLStore. rewrite Hk, Hr, Hf, Hsf, Hd. simpl.
  destruct (clobberDomain_spec dom (tlStore st)) as (Ha & Hout & Hin).
  assert (Hframe :
    forall st1,
      allOthersClobbered (tlStore st1) = allOthersClobbered (tlStore st) ->
      (forall X, X ∉ dom -> store (tlStore st1) !! X = store (tlStore st) !! X) ->
      allOthersClobbered (tlStore st1) = allOthersClobbered (tlStore st)
      /\ (forall X, X ∉ dom -> store (tlStore st1) !! X = store (tlStore st) !! X)
      /\ (forall L, (forall X, X ∈ instTargets L -> X ∉ dom) ->
             shouldCheckLoad G L (tlStore st1) = shouldCheckLoad G L (tlStore st))).
  { intros st1 H1 H2. repeat split; auto.
    intros L HL. apply shouldCheckLoad_agree. split; [exact H1 |].
    intros O HO. apply H2. apply HL. exact HO. }
  destruct ((bool_decide (calledFunction SI = None) && negb (programSingleThreaded G))
            || isYieldFunction SI) eqn:Ey.
  - destruct (inPessimisticLocks SI) eqn:Ep.
    + destruct (Hframe st eq_refl (fun _ _ => eq_refl)) as (F1 & F2 & F3).
      repeat split; auto. discriminate.
    + destruct (Hframe (withStore st (clobberDomain dom (tlStore st))) Ha Hout)
        as (F1 & F2 & F3).
      repeat split; auto.
  - destruct (Hframe st eq_refl (fun _ _ => eq_refl)) as (F1 & F2 & F3).
    repeat split; auto.
    intros Hy _. exfalso.
    apply orb_false_iff in Ey. destruct Ey as [Ey1 Ey2].
    destruct Hy as [[Hn Hs] | Hy]; [| congruence].
    rewrite Hs, (bool_decide_eq_true_2 _ Hn) in Ey1. discriminate.
Qed.

(** *** A check re-establishes trust *)

Lemma two63_lt_two64 : two63 < two64.
Proof. unfold two63, two64. lia. Qed.

Lemma markGoodBytes_spec GoodPtr Len ce s Off :
  wfStore63 s -> validMark GoodPtr Len Off ->
  wfStore63 (markGoodBytes GoodPtr Len ce s Off)
  /\ allOthersClobbered (markGoodBytes GoodPtr Len ce s Off) = allOthersClobbered s
  /\ (forall O x, trusted s O x -> trusted (markGoodBytes GoodPtr Len ce s Off) O x).
Proof.
  intros Hwf Hv. unfold markGoodBytes.
  destruct (negb ce); [auto |].
  destruct (allOthersClobbered s) eqn:Ec; simpl; [| rewrite Ec; auto].
  destruct (tryGetUniqueIV GoodPtr) as [[ty iv] |] eqn:Eu; [| rewrite Ec; auto].
  destruct (negb (bool_decide (ty = ValSetTypePB))); [rewrite Ec; auto |].
  destruct (isConstantGV (V iv)); [rewrite Ec; auto |].
  destruct (Hv ty iv Eu) as (H0 & HL & Hhi).
  pose proof two63_lt_two64 as H63.
  rewrite !to_u64_id by lia.
  destruct (markRange_spec s (V iv) (Offset iv + Off) (Offset iv + Off + Len) Hwf)
    as (Hw' & Ha' & Hother & M' & HM' & Hcov); try lia.
  split; [exact Hw' |]. split; [congruence |].
  intros O x Ht. destruct (decide (O = V iv)) as [-> | Hne].
  - unfold trusted. rewrite HM'. apply Hcov. right.
    apply trusted_clobbered; assumption.
  - unfold trusted in *. rewrite (Hother O Hne), Ha'. exact Ht.
Qed.

Lemma markGoodBytes_marks GoodPtr Len s Off iv :
  wfStore63 s -> allOthersClobbered s = true ->
  tryGetUniqueIV GoodPtr = Some (ValSetTypePB, iv) ->
  isConstantGV (V iv) = false ->
  0 <= Offset iv + Off -> 0 < Len -> Offset iv + Off + Len < two63 ->
  forall x, Offset iv + Off <= x < Offset iv + Off + Len ->
            trusted (markGoodBytes GoodPtr Len true s Off) (V iv) x.
Proof.
  intros Hwf Hc Hu Hg H0 HL Hhi x Hx. unfold markGoodBytes. simpl.
  rewrite Hc, Hu, Hg. simpl.
  pose proof two63_lt_two64 as H63.
  rewrite !to_u64_id by lia.
  destruct (markRange_spec s (V iv) (Offset iv + Off) (Offset iv + Off + Len) Hwf)
    as (Hw' & Ha' & Hother & M' & HM' & Hcov); try lia.
  unfold trusted. rewrite HM'. apply Hcov. left. exact Hx.
Qed.

Lemma anyRangeNeedsCheck_trusted Ptr vals s Size :
  wfStore63 s ->
  isNullPointer (V Ptr) = false -> isConstantGV (V Ptr) = false ->
  0 <= Offset Ptr -> Offset Ptr + Size < two63 ->
  rangesWithin vals Size ->
  (forall x, Offset Ptr <= x < Offset Ptr + Size -> trusted s (V Ptr) x) ->
  anyRangeNeedsCheck Ptr vals s = false.
Proof.
  intros Hwf Hn Hg H0 Hhi Hr Ht. unfold anyRangeNeedsCheck.
  pose proof two63_lt_two64 as H63.
  induction vals as [| r vals IH]; simpl; [reflexivity |].
  rewrite IH.
  2:{ intros r' Hr'. apply Hr. apply elem_of_cons. right. exact Hr'. }
  rewrite orb_false_r.
  destruct (whollyUnknown (snd r)) eqn:Ew; [reflexivity |]. simpl.
  destruct (Hr r (proj2 (elem_of_cons _ _ _) (or_introl eq_refl)) Ew) as (Ha & Hab & Hb).
  apply shouldCheckRead_trusted; simpl; auto.
  - rewrite to_i64_id; lia.
  - rewrite to_u64_id; lia.
  - rewrite to_i64_id, to_u64_id; lia.
  - rewrite to_i64_id, to_u64_id by lia. intros x Hx. apply Ht. lia.
Qed.

(** Squashing leaves everything [updateTLStore] reads alone, but for the
    check requirement. *)
Lemma squash_preserves R SI ila SI' :
  squashUnavailableObjects R SI ila = Some SI' ->
  kind SI' = kind SI /\ operands SI' = operands SI
  /\ typeStoreSize SI' = typeStoreSize SI
  /\ isVolatile SI' = isVolatile SI
  /\ hasOrderingConstraint SI' = hasOrderingConstraint SI
  /\ readsMemoryDirectly SI' = readsMemoryDirectly SI.
Proof.
  unfold squashUnavailableObjects.
  destruct (bool_decide (kind SI = KLoad) || bool_decide (kind SI = KAtomicCmpXchg)).
  - destruct (PB SI) as [[IVS | vals] |].
    + destruct (squashUnavailableObject R IVS ila (getOperand SI 0)) as [[] |];
        intros [= <-]; simpl; auto 10.
    + destruct (squashRanges R ila (getOperand SI 0) None vals) as [[vals' []] |];
        intros [= <-]; simpl; auto 10.
    + intros [= <-]. auto 10.
  - destruct (memcpyValues SI) as [vals |].
    + destruct (squashRanges R ila (getCopySource SI) (Some (getCopyDest SI)) vals)
        as [[vals' []] |]; intros [= <-]; simpl; auto 10.
    + intros [= <-]. auto 10.
Qed.

(** In a first visit, an instruction that ends up [TLS_MUSTCHECK] was
    classified so, was not squashed, and had the store updated. *)
Lemma TLAnalyse_mustcheck G R SI cdh secondPass ila st SI' st' R' :
  readsMemoryDirectly SI = true ->
  secondPass = false \/ isThreadLocal SI <> TLS_MUSTCHECK ->
  TLAnalyseInstruction G R SI cdh secondPass ila st = Some (SI', st', R') ->
  isThreadLocal SI' = TLS_MUSTCHECK ->
  shouldCheckLoad G SI (tlStore st) = TLS_MUSTCHECK
  /\ squashUnavailableObjects R (setIsThreadLocal SI TLS_MUSTCHECK) ila = Some SI'
  /\ st' = updateTLStore G SI' (negb cdh) (setReadsTentativeData st).
Proof.
  intros Hr Hsp HT Hm. unfold TLAnalyseInstruction in HT. rewrite Hr in HT.
  assert (E2 : secondPass && bool_decide (isThreadLocal SI = TLS_MUSTCHECK) = false).
  { destruct Hsp as [-> | Hne]; [reflexivity |].
    rewrite bool_decide_eq_false_2 by exact Hne. apply andb_false_r. }
  rewrite E2 in HT.
  destruct (bool_decide (isThreadLocal SI = TLS_NEVERCHECK)) eqn:En.
  - apply bool_decide_eq_true in En. exfalso.
    rewrite (bool_decide_eq_false_2 (isThreadLocal SI = TLS_MUSTCHECK)) in HT
      by congruence.
    destruct (replaceUnavailableObjects R SI ila); [| discriminate].
    injection HT as <- <- <-. congruence.
  - simpl isThreadLocal in HT.
    destruct (bool_decide (shouldCheckLoad G SI (tlStore st) = TLS_MUSTCHECK)) eqn:Em.
    + apply bool_decide_eq_true in Em. rewrite Em in HT |- *.
      destruct (squashUnavailableObjects R (setIsThreadLocal SI TLS_MUSTCHECK) ila)
        as [SI2 |]; [| discriminate].
      injection HT as <- <- <-. auto.
    + exfalso. apply bool_decide_eq_false in Em.
      destruct (replaceUnavailableObjects R _ ila); [| discriminate].
      injection HT as <- <- <-. simpl in Hm. contradiction.
Qed.

Lemma shouldCheckRead_true_target Ptr Size s :
  shouldCheckRead Ptr Size s = true ->
  isNullPointer (V Ptr) = false /\ isConstantGV (V Ptr) = false.
Proof.
  unfold shouldCheckRead.
  destruct (isNullPointer (V Ptr)); [discriminate |].
  destruct (isConstantGV (V Ptr)); [discriminate | auto].
Qed.

Lemma anyRangeNeedsCheck_true_target Ptr vals s :
  anyRangeNeedsCheck Ptr vals s = true ->
  isNullPointer (V Ptr) = false /\ isConstantGV (V Ptr) = false.
Proof.
  unfold anyRangeNeedsCheck. intros H. apply existsb_exists in H.
  destruct H as (r & _ & Hr). apply andb_true_iff in Hr. destruct Hr as [_ Hr].
  apply shouldCheckRead_true_target in Hr. exact Hr.
Qed.

Lemma mustcheck_target G SI ptr Size s :
  readsBytes SI ptr Size ->
  shouldCheckLoad G SI s = TLS_MUSTCHECK ->
  programSingleThreaded G = false
  /\ isNullPointer (V ptr) = false /\ isConstantGV (V ptr) = false.
Proof.
  intros Hr. unfold shouldCheckLoad.
  destruct (programSingleThreaded G); [discriminate |].
  destruct (readsMemoryDirectly SI && negb (isCopyInst SI)
            && isSingleWhollyUnknown (PB SI)); [discriminate |].
  destruct Hr as [[(Hk & _ & _ & Ho & Hp) _] | (Hk & _ & _ & Hu & Hl & _)];
    rewrite Hk.
  - rewrite Ho, Hp. simpl. unfold shouldCheckLoadFrom, isNullOrConst.
    destruct (isNullPointer (V ptr)); [discriminate |].
    destruct (isConstantGV (V ptr)); [discriminate |]. auto.
  - unfold shouldCheckCopy. rewrite Hl, Hu. simpl.
    destruct (Size =? 0); [discriminate |].
    destruct (memcpyValues SI) as [[| r vals] |]; try discriminate.
    destruct (anyRangeNeedsCheck ptr (r :: vals) s) eqn:Ea; [| discriminate].
    intros _. split; [reflexivity |].
    eapply anyRangeNeedsCheck_true_target. exact Ea.
Qed.

Lemma getOperand_operands SI SI' i :
  operands SI' = operands SI -> getOperand SI' i = getOperand SI i.
Proof. unfold getOperand. intros ->. reflexivity. Qed.

Lemma tryGetUniqueIV_single op ptr :
  opVal op = OpSingle ValSetTypePB ptr ->
  tryGetUniqueIV op = Some (ValSetTypePB, ptr).
Proof. unfold tryGetUniqueIV. intros ->. reflexivity. Qed.

(** Updating the store for a checked read marks the bytes read. *)
Lemma updateTLStore_marks G SI SI' ptr Size st :
  readsBytes SI ptr Size ->
  kind SI' = kind SI -> operands SI' = operands SI ->
  typeStoreSize SI' = typeStoreSize SI -> isVolatile SI' = isVolatile SI ->
  hasOrderingConstraint SI' = hasOrderingConstraint SI ->
  readsMemoryDirectly SI' = readsMemoryDirectly SI ->
  wfStore63 (tlStore st) -> allOthersClobbered (tlStore st) = true ->
  isConstantGV (V ptr) = false ->
  0 <= Offset ptr -> 0 < Size -> Offset ptr + Size < two63 ->
  wfStore63 (tlStore (updateTLStore G SI' true st))
  /\ forall x, Offset ptr <= x < Offset ptr + Size ->
               trusted (tlStore (updateTLStore G SI' true st)) (V ptr) x.
Proof.
  intros Hr Hk Hops Hts Hvol Hord Hrmd Hwf Hc Hg H0 HS Hhi.
  unfold updateTLStore. rewrite Hk.
  destruct Hr as [[(HkL & _ & Hv & Ho & Hp) Hsz] | (HkC & Hrd & Ho & Hu & Hl & Hd)].
  - rewrite HkL, Hvol, Hord, Hv, Ho. simpl.
    rewrite (getOperand_operands SI SI' 0 Hops), Hts, Hsz.
    pose proof (tryGetUniqueIV_single _ _ Hp) as Hu.
    split.
    + apply markGoodBytes_spec; [exact Hwf |].
      intros ty iv. rewrite Hu. intros [= <- <-]. lia.
    + intros x Hx.
      apply (markGoodBytes_marks (getOperand SI 0) Size (tlStore st) 0 ptr);
        auto; lia.
  - rewrite HkC, Hrmd, Hord, Hrd, Ho. simpl.
    unfold getCallArgOperand in *.
    rewrite !(getOperand_operands SI SI' _ Hops).
    unfold walkCopyInst. unfold getCallArgOperand in *. rewrite Hl.
    assert (Hv1 : validMark (getOperand SI 1) Size 0).
    { intros ty iv. rewrite Hu. intros [= <- <-]. lia. }
    destruct (markGoodBytes_spec (getOperand SI 1) Size true (tlStore st) 0 Hwf Hv1)
      as (Hw1 & Ha1 & _).
    destruct (markGoodBytes_spec (getOperand SI 0) Size true
                (markGoodBytes (getOperand SI 1) Size true (tlStore st) 0) 0 Hw1 Hd)
      as (Hw2 & _ & Hmono).
    split; [exact Hw2 |].
    intros x Hx. apply Hmono.
    apply (markGoodBytes_marks (getOperand SI 1) Size (tlStore st) 0 ptr); auto; lia.
Qed.

(** A read of trusted bytes that produced a usable value is [TLS_NOCHECK]. *)
Lemma trusted_nocheck G SI ptr Size s :
  readsBytes SI ptr Size -> usableResult SI Size ->
  programSingleThreaded G = false ->
  isNullPointer (V ptr) = false -> isConstantGV (V ptr) = false ->
  wfStore63 s -> 0 <= Offset ptr -> 0 < Size -> Offset ptr + Size < two63 ->
  (forall x, Offset ptr <= x < Offset ptr + Size -> trusted s (V ptr) x) ->
  shouldCheckLoad G SI s = TLS_NOCHECK.
Proof.
  intros Hr Hus Hst Hn Hg Hwf H0 HS Hhi Ht.
  unfold shouldCheckLoad. rewrite Hst. unfold usableResult in Hus.
  destruct Hr as [[(Hk & _ & _ & Ho & Hp) Hsz] | (Hk & _ & _ & Hu & Hl & _)];
    rewrite Hk in Hus |- *.
  - destruct Hus as [Hw Hm]. rewrite Hw, andb_false_r, Ho, Hp, Hsz. simpl.
    unfold shouldCheckLoadFrom, isNullOrConst. rewrite Hn, Hg. simpl.
    destruct (PB SI) as [[IVS | vals] |].
    + rewrite (proj2 (shouldCheckRead_trusted ptr Size s Hwf Hn Hg H0 HS Hhi) Ht).
      reflexivity.
    + rewrite (anyRangeNeedsCheck_trusted ptr vals s Size); auto.
    + rewrite (proj2 (shouldCheckRead_trusted ptr Size s Hwf Hn Hg H0 HS Hhi) Ht).
      reflexivity.
  - destruct Hus as (r & vals & Hmv & Hrw).
    unfold isCopyInst. rewrite Hk. simpl. rewrite andb_false_r. simpl.
    unfold shouldCheckCopy. unfold getCallArgOperand in *. rewrite Hl, Hu. simpl.
    destruct (Z.eqb_spec Size 0); [lia |]. rewrite Hmv.
    rewrite (anyRangeNeedsCheck_trusted ptr (r :: vals) s Size); auto.
Qed.


(** *** The two phases of an unbounded loop *)

(** A visit in the second pass never takes [TLS_MUSTCHECK] away. *)
Lemma second_pass_keeps_mustcheck G R SI cdh ila st SI' st' R' :
  isThreadLocal SI = TLS_MUSTCHECK ->
  TLAnalyseInstruction G R SI cdh true ila st = Some (SI', st', R') ->
  isThreadLocal SI' = TLS_MUSTCHECK.
Proof.
  intros Hm. unfold TLAnalyseInstruction.
  destruct (readsMemoryDirectly SI).
  - rewrite (bool_decide_eq_true_2 _ Hm). simpl.
    intros [= <- <- <-]. exact Hm.
  - destruct (is_CallInst (kind SI) || bool_decide (kind SI = KInvoke)).
    + destruct (replaceUnavailableObjects R SI ila); [| discriminate].
      intros [= <- <- <-]. exact Hm.
    + destruct (bool_decide (isThreadLocal SI = TLS_NEVERCHECK));
        intros [= <- <- <-]; exact Hm.
Qed.

Lemma findTentativeLoadsInLoop_second_pass G cdh insts : forall st R insts' st' R',
  findTentativeLoadsInLoop G insts cdh true st R = Some (insts', st', R') ->
  forall i SI,
    insts !! i = Some SI -> isThreadLocal SI = TLS_MUSTCHECK ->
    exists SI', insts' !! i = Some SI' /\ isThreadLocal SI' = TLS_MUSTCHECK.
Proof.
  induction insts as [| SI0 insts IH]; simpl; intros st R insts' st' R' HW i SI Hi Hm.
  - rewrite lookup_nil in Hi. discriminate.
  - destruct (TLAnalyseInstruction G R SI0 cdh true false st)
      as [[[SI0' st0] R0] |] eqn:ET; [| discriminate].
    destruct (findTentativeLoadsInLoop G insts cdh true st0 R0) as [[[rest' st1] R1] |] eqn:EW;
      [| discriminate].
    injection HW as <- <- <-.
    destruct i as [| i]; simpl in Hi |- *.
    + injection Hi as ->. exists SI0'. split; [reflexivity |].
      eapply second_pass_keeps_mustcheck; eassumption.
    + eapply IH; eassumption.
Qed.

(** C6, as amended -- a visit in the second pass leaves an instruction
    marked [TLS_MUSTCHECK] as it is (a memory-reading one is skipped
    altogether); and for a loop that is not fully peeled and whose back edge
    is live, walked from outside a second pass, phase 2 gives the header the
    snapshot the latch holds at the end of phase 1, and every instruction
    marked [TLS_MUSTCHECK] at the end of phase 1 is still marked
    [TLS_MUSTCHECK] at the end of phase 2. *)
Theorem two_phase_keeps_mustcheck :
  (forall G R SI cdh ila st SI' st' R',
      isThreadLocal SI = TLS_MUSTCHECK ->
      TLAnalyseInstruction G R SI cdh true ila st = Some (SI', st', R') ->
      isThreadLocal SI' = TLS_MUSTCHECK
      /\ (readsMemoryDirectly SI = true -> SI' = SI /\ st' = st /\ R' = R))
  /\ (forall G body cdh preheader R w,
        findTentativeLoadsInUnboundedLoop G false body cdh false preheader R = Some w ->
        exists body1 latch1 R1,
          findTentativeLoadsInLoop G body cdh false preheader R = Some (body1, latch1, R1)
          /\ headerPhase1 w = Some (tlStore preheader)
          /\ instsPhase1 w = Some body1
          /\ headerFinal w = tlStore latch1
          /\ forall i SI1,
               body1 !! i = Some SI1 -> isThreadLocal SI1 = TLS_MUSTCHECK ->
               exists SI2, instsFinal w !! i = Some SI2
                           /\ isThreadLocal SI2 = TLS_MUSTCHECK).
Proof.
  split.
  - intros G R SI cdh ila st SI' st' R' Hm HT.
    split; [eapply second_pass_keeps_mustcheck; eassumption |].
    intros Hr. unfold TLAnalyseInstruction in HT.
    rewrite Hr, (bool_decide_eq_true_2 _ Hm) in HT. simpl in HT.
    injection HT as <- <- <-. auto.
  - intros G body cdh preheader R w.
    unfold findTentativeLoadsInUnboundedLoop. simpl.
    destruct (findTentativeLoadsInLoop G body cdh false preheader R) as [[[body1 latch1] R1] |] eqn:E1;
      [| discriminate].
    destruct (findTentativeLoadsInLoop G body1 cdh true latch1 R1) as [[[body2 latch2] R2] |] eqn:E2;
      [| discriminate].
    intros [= <-]. exists body1, latch1, R1. simpl.
    repeat split; try reflexivity.
    intros i SI1 Hi Hm. eapply findTentativeLoadsInLoop_second_pass; eassumption.
Qed.

End ClassifierFacts.

(** ** Properties of the dead-store prover *)

Module DSEFacts.
Import DSE.

Lemma Path_ind' (P : Path -> Prop) :
  P PEnd ->
  (forall SI rest, P rest -> P (PStep SI rest)) ->
  (forall CI entered skipped, P entered -> P skipped -> P (PCall CI entered skipped)) ->
  (forall succs, Forall P succs -> P (PFork succs)) ->
  forall p, P p.
Proof.
  intros HEnd HStep HCall HFork.
  refine (fix IH (p : Path) : P p :=
            match p with
            | PEnd => HEnd
            | PStep SI rest => HStep SI rest (IH rest)
            | PCall CI entered skipped => HCall CI entered skipped (IH entered) (IH skipped)
            | PFork succs =>
                HFork succs
                  ((fix go (l : list Path) : Forall P l :=
                      match l with
                      | [] => @List.Forall_nil _ P
                      | x :: l' => @List.Forall_cons _ P x l' (IH x) (go l')
                      end) succs)
            end).
Qed.

Section Prover.

Variable aliasSVs : Value -> Z -> Value -> Z -> SVAAResult.
Variable getBaseAndConstantOffset : Value -> option (Value * Z).
Variable getBaseObject : Value -> option Value.
Variable GetDefinedRange : Value -> Z -> Z -> Value -> Z -> Z -> option (Z * Z).

Local Abbreviation isLifetimeEnd := (DSE.isLifetimeEnd getBaseObject).
Local Abbreviation DSEHandleWrite :=
  (DSE.DSEHandleWrite aliasSVs getBaseAndConstantOffset GetDefinedRange).
Local Abbreviation noteBytesWrittenBy :=
  (DSE.noteBytesWrittenBy aliasSVs getBaseAndConstantOffset getBaseObject
     GetDefinedRange).
Local Abbreviation walkInstruction :=
  (DSE.walkInstruction aliasSVs getBaseAndConstantOffset getBaseObject
     GetDefinedRange).
Local Abbreviation walkFrom :=
  (DSE.walkFrom aliasSVs getBaseAndConstantOffset getBaseObject GetDefinedRange).
Local Abbreviation noPathAborts :=
  (DSE.noPathAborts aliasSVs getBaseAndConstantOffset getBaseObject
     GetDefinedRange).
Local Abbreviation tryKillWriterTo :=
  (DSE.tryKillWriterTo aliasSVs getBaseAndConstantOffset getBaseObject
     GetDefinedRange).
Local Abbreviation everyPathSucceeds :=
  (DSE.everyPathSucceeds aliasSVs getBaseAndConstantOffset getBaseObject
     GetDefinedRange).

(** *** Writes of unknown size *)

Lemma DSEHandleWrite_null Writer WriteSize StorePtr Size StoreBase StoreOffset :
  DSEHandleWrite Writer WriteSize StorePtr Size StoreBase StoreOffset None
  = (None, false).
Proof. reflexivity. Qed.

(** C9 -- a write of unknown size is walked with a null context; the
    context stays null over every instruction and every fork, a write
    handled under a null context never finishes the path, and the only
    instructions that stop a path as dead are those that end the
    lifetime of the written object. *)
Theorem unknown_size_only_lifetime_end :
  initialContext UnknownSize = None
  /\ copyContext None = None
  /\ (forall Writer WriteSize StorePtr Size StoreBase StoreOffset,
        DSEHandleWrite Writer WriteSize StorePtr Size StoreBase StoreOffset None
        = (None, false))
  /\ (forall SI StorePtr StoreBase StoreOffset Size,
        snd (noteBytesWrittenBy SI StorePtr StoreBase StoreOffset Size None) = None
        /\ (fst (noteBytesWrittenBy SI StorePtr StoreBase StoreOffset Size None)
             = WIRStopThisPath
            <-> isLifetimeEnd StoreBase SI = true)).
Proof.
  split; [reflexivity |]. split; [reflexivity |]. split; [reflexivity |].
  intros SI StorePtr StoreBase StoreOffset Size.
  unfold DSE.noteBytesWrittenBy.
  destruct (isLifetimeEnd StoreBase SI) eqn:El; [simpl; tauto |].
assert (Hcont : forall Ctx : option (list bool),
           Ctx = None ->
           snd (WIRContinue, Ctx) = None
           /\ (fst (WIRContinue, Ctx) = WIRStopThisPath <-> false = true)).
{ intros Ctx ->. simpl. split; [reflexivity |]. split; discriminate. }
assert (Hstop : snd (WIRStopWholeWalk, @None (list bool)) = None
                /\ (fst (WIRStopWholeWalk, @None (list bool)) = WIRStopThisPath
                    <-> false = true)).
{ simpl. split; [reflexivity |]. split; discriminate. }
destruct (DSE.kind SI); simpl.
- (* memory transfer *)
  destruct (negb (unusedWriter SI)
            && negb (bool_decide
                       (aliasSVs (getCallArgOperand SI 1)
                          (default UnknownSize (constSize SI)) StorePtr Size
                        = SVNoAlias)));
    [exact Hstop |].
  destruct (negb (default UnknownSize (constSize SI) =? UnknownSize));
    apply Hcont; reflexivity.
- destruct (negb (default UnknownSize (constSize SI) =? UnknownSize));
    apply Hcont; reflexivity.
- destruct (resolvedRead SI); apply Hcont; reflexivity.
- destruct (mayBeReplaced SI && ctxAvailable SI
            && (negb (resultIsPtrOrFd SI) || resultBaseAvailable SI));
    [apply Hcont; reflexivity |].
  destruct (negb (bool_decide
                    (aliasSVs (getOperand SI 0) (accessSize SI) StorePtr Size
                     = SVNoAlias)));
    [exact Hstop | apply Hcont; reflexivity].
- apply Hcont; reflexivity.
- apply Hcont; reflexivity.
- apply Hcont; reflexivity.
Qed.

(** *** The forward walk *)

Lemma walkInstruction_fst W SI Ctx :
  walkInstruction W SI Ctx
  = (if bool_decide (fst (noteBytesWrittenBy SI (StorePtr W) (StoreBase W)
                            (StoreOffset W) (StoreSize W) Ctx) = WIRStopWholeWalk)
     then setWriteUsed W else W,
     fst (noteBytesWrittenBy SI (StorePtr W) (StoreBase W) (StoreOffset W)
            (StoreSize W) Ctx),
     snd (noteBytesWrittenBy SI (StorePtr W) (StoreBase W) (StoreOffset W)
            (StoreSize W) Ctx)).
Proof.
  unfold DSE.walkInstruction.
  destruct (noteBytesWrittenBy SI (StorePtr W) (StoreBase W) (StoreOffset W)
              (StoreSize W) Ctx) as [Res Ctx'].
  reflexivity.
Qed.

(** The walk stops as a whole exactly when some path ahead fails, and
    [writeUsed] is raised exactly then. *)
Lemma walkFrom_noPathAborts p : forall W Ctx,
  walkFrom W p Ctx
  = (if noPathAborts W p Ctx then W else setWriteUsed W,
     negb (noPathAborts W p Ctx)).
Proof.
  induction p as [| SI rest IH | CI entered skipped IHe IHs | succs IH]
    using Path_ind'; intros W Ctx.
  - reflexivity.
  - simpl. rewrite walkInstruction_fst.
    destruct (noteBytesWrittenBy SI (StorePtr W) (StoreBase W) (StoreOffset W)
                (StoreSize W) Ctx) as [[] Ctx']; simpl; auto.
  - simpl. rewrite walkInstruction_fst. unfold shouldEnterCall.
    destruct (noteBytesWrittenBy CI (StorePtr W) (StoreBase W) (StoreOffset W)
                (StoreSize W) Ctx) as [[] Ctx']; simpl; auto.
    destruct (callUsesPtr CI); [| apply IHs].
    destruct (expanded CI); [apply IHe | reflexivity].
  - simpl. induction IH as [| p succs Hp _ IHsuccs]; simpl; [reflexivity |].
    rewrite Hp.
    destruct (noPathAborts W p (copyContext Ctx)); simpl; [| reflexivity].
    exact IHsuccs.
Qed.

Lemma tryKillWriterTo_noPathAborts ahead StorePtr Size :
  tryKillWriterTo ahead StorePtr Size
  = match getBaseAndConstantOffset StorePtr with
    | None => (false, false)
    | Some (StoreBase, StoreOffset) =>
        (noPathAborts (newWalker StorePtr StoreBase StoreOffset Size) ahead
           (initialContext Size),
         noPathAborts (newWalker StorePtr StoreBase StoreOffset Size) ahead
           (initialContext Size))
    end.
Proof.
  unfold DSE.tryKillWriterTo.
  destruct (getBaseAndConstantOffset StorePtr) as [[StoreBase StoreOffset] |];
    [| reflexivity].
  rewrite walkFrom_noPathAborts.
  destruct (noPathAborts (newWalker StorePtr StoreBase StoreOffset Size) ahead
              (initialContext Size)); reflexivity.
Qed.

Lemma isLifetimeEnd_not_free StoreBase SI :
  DSE.kind SI <> KTerminator -> isFreeCall SI = false ->
  isLifetimeEnd StoreBase SI = false.
Proof.
  intros Hk Hf. unfold DSE.isLifetimeEnd. rewrite Hf.
  rewrite (bool_decide_eq_false_2 _ Hk).
  destruct (isAlloca StoreBase), (isMallocLike StoreBase); reflexivity.
Qed.

(** A search all of whose paths succeed has no path that aborts. *)
Lemma everyPathSucceeds_noPathAborts p : forall W Ctx,
  everyPathSucceeds W p Ctx = true -> noPathAborts W p Ctx = true.
Proof.
  induction p as [| SI rest IH | CI entered skipped IHe IHs | succs IH]
    using Path_ind'; intros W Ctx; simpl.
  - discriminate.
  - destruct (noteBytesWrittenBy SI (StorePtr W) (StoreBase W) (StoreOffset W)
                (StoreSize W) Ctx) as [[] Ctx']; auto.
  - destruct (noteBytesWrittenBy CI (StorePtr W) (StoreBase W) (StoreOffset W)
                (StoreSize W) Ctx) as [[] Ctx']; auto.
    destruct (callUsesPtr CI); [| apply IHs].
    destruct (expanded CI); [apply IHe | discriminate].
  - intros H. apply andb_true_iff in H. destruct H as [_ H].
    rewrite forallb_forall in H. apply forallb_forall. intros q Hq.
    rewrite Forall_forall in IH. apply IH.
    + apply list_elem_of_In. exact Hq.
    + apply H. exact Hq.
Qed.


(** *** Marking the bytes a write covers *)

Lemma markLoop_length n : forall i FirstDef FirstNotDef bits,
  length (fst (markLoop n i FirstDef FirstNotDef bits)) = length bits.
Proof.
  induction n as [| n IH]; simpl; intros i fd fnd bits; [reflexivity |].
  destruct ((fd <=? i) && (i <? fnd)).
  - rewrite IH. apply length_insert.
  - destruct (negb (default false (bits !! Z.to_nat i))); [reflexivity | apply IH].
Qed.

(** A bit that is set stays set. *)
Lemma markLoop_keeps n : forall i FirstDef FirstNotDef bits k,
  bits !! k = Some true ->
  fst (markLoop n i FirstDef FirstNotDef bits) !! k = Some true.
Proof.
  induction n as [| n IH]; simpl; intros i fd fnd bits k Hk; [exact Hk |].
  destruct ((fd <=? i) && (i <? fnd)).
  - apply IH. destruct (decide (Z.to_nat i = k)) as [<- | Hne].
    + apply list_lookup_insert_eq. eapply lookup_lt_Some. exact Hk.
    + rewrite list_lookup_insert_ne by exact Hne. exact Hk.
  - destruct (negb (default false (bits !! Z.to_nat i))); [exact Hk | apply IH; exact Hk].
Qed.

(** When the loop ends with [Finished] still true, every bit it went over is
    set. *)
Lemma markLoop_finished n : forall i FirstDef FirstNotDef bits,
  0 <= i -> (Z.to_nat i + n <= length bits)%nat ->
  snd (markLoop n i FirstDef FirstNotDef bits) = true ->
  forall k, (Z.to_nat i <= k < Z.to_nat i + n)%nat ->
            fst (markLoop n i FirstDef FirstNotDef bits) !! k = Some true.
Proof.
  induction n as [| n IH]; simpl; intros i fd fnd bits Hi Hlen Hfin k Hk; [lia |].
  assert (Hnext : Z.to_nat (i + 1) = S (Z.to_nat i)) by lia.
  destruct ((fd <=? i) && (i <? fnd)).
  - destruct (decide (k = Z.to_nat i)) as [-> | Hne].
    + apply markLoop_keeps. apply list_lookup_insert_eq. lia.
    + apply IH; try lia; [rewrite length_insert; lia | exact Hfin].
  - destruct (bits !! Z.to_nat i) as [[] |] eqn:Eb; simpl in *; try discriminate.
    destruct (decide (k = Z.to_nat i)) as [-> | Hne].
    + apply markLoop_keeps. exact Eb.
    + apply IH; try lia. exact Hfin.
Qed.

(** When it ends with [Finished] false, it stopped at a bit that is not set
    and is left so. *)
Lemma markLoop_unfinished n : forall i FirstDef FirstNotDef bits,
  0 <= i ->
  snd (markLoop n i FirstDef FirstNotDef bits) = false ->
  exists k, (Z.to_nat i <= k < Z.to_nat i + n)%nat
            /\ fst (markLoop n i FirstDef FirstNotDef bits) !! k <> Some true.
Proof.
  induction n as [| n IH]; simpl; intros i fd fnd bits Hi Hfin; [discriminate |].
  assert (Hnext : Z.to_nat (i + 1) = S (Z.to_nat i)) by lia.
  destruct ((fd <=? i) && (i <? fnd)).
  - destruct (IH (i + 1) fd fnd _ ltac:(lia) Hfin) as (k & Hk & Hb).
    exists k. split; [lia | exact Hb].
  - destruct (bits !! Z.to_nat i) as [[] |] eqn:Eb; simpl in *.
    + destruct (IH (i + 1) fd fnd _ ltac:(lia) Hfin) as (k & Hk & Hb).
      exists k. split; [lia | exact Hb].
    + exists (Z.to_nat i). split; [lia |]. rewrite Eb. discriminate.
    + exists (Z.to_nat i). split; [lia |]. rewrite Eb. discriminate.
Qed.

(** A handled write finishes the path only with every bit of the candidate
    set; bits are never cleared; and when it does not finish the path while
    it defines some byte, some bit is left unset. *)
Lemma DSEHandleWrite_finished Writer WriteSize StorePtr Size StoreBase StoreOffset
    bits bits' Finished :
  0 <= Size -> length bits = Z.to_nat Size ->
  DSEHandleWrite Writer WriteSize StorePtr Size StoreBase StoreOffset (Some bits)
  = (Some bits', Finished) ->
  length bits' = length bits
  /\ (forall k, bits !! k = Some true -> bits' !! k = Some true)
  /\ (Finished = true -> forall k, (k < length bits')%nat -> bits' !! k = Some true).
Proof.
  intros HS Hlen. unfold DSE.DSEHandleWrite.
  destruct (getBaseAndConstantOffset Writer) as [[WriteBase WriteOffset] |].
  2:{ intros [= <- <-]. repeat split; auto. discriminate. }
  set (range := match aliasSVs Writer WriteSize StorePtr Size with
                | SVNoAlias => (0, 0)
                | SVMustAlias => (0, Z.min WriteSize Size)
                | _ => match GetDefinedRange StoreBase StoreOffset Size WriteBase
                               WriteOffset WriteSize with
                       | Some r => r
                       | None => (0, 0)
                       end
                end).
  destruct range as [FirstDef FirstNotDef].
  destruct (negb (FirstDef =? FirstNotDef)).
  2:{ intros [= <- <-]. repeat split; auto. discriminate. }
  destruct (markLoop (Z.to_nat Size) 0 FirstDef FirstNotDef bits) as [b f] eqn:Em.
  intros [= <- <-].
  pose proof (markLoop_length (Z.to_nat Size) 0 FirstDef FirstNotDef bits) as Hl.
  pose proof (markLoop_keeps (Z.to_nat Size) 0 FirstDef FirstNotDef bits) as Hk.
  rewrite Em in Hl, Hk. simpl in Hl, Hk.
  split; [exact Hl |]. split; [exact Hk |].
  intros -> k Hlt.
  pose proof (markLoop_finished (Z.to_nat Size) 0 FirstDef FirstNotDef bits
                ltac:(lia) ltac:(simpl; lia)) as Hf.
  rewrite Em in Hf. simpl in Hf. apply Hf; [reflexivity | lia].
Qed.

End Prover.

(** C7 -- on the four-byte slot [A], all unset, a write of the two bytes at
    [A+2] (bytes 2 and 3 of the candidate) leaves the bitmap as it was: the
    marking loop stops at byte 0, which is neither written nor set, before it
    reaches the bytes the write covers.  A write of the two bytes at [A] that
    follows then sets bits 0 and 1 and still does not finish the path, though
    the two writes together cover the whole candidate; a single write of the
    four bytes does finish it, with every bit set. *)
Theorem DSEHandleWrite_skips_covered_bytes :
  let handle Writer WriteSize bits :=
    DSE.DSEHandleWrite Examples.exAlias Examples.exGetBase Examples.exGetDefinedRange
      Writer WriteSize Examples.pA 4 Examples.A 0 (Some bits) in
  Examples.exAlias Examples.pA2 2 Examples.pA 4 = SVPartialAlias
  /\ Examples.exGetDefinedRange Examples.A 0 4 Examples.A 2 2 = Some (2, 4)
  /\ handle Examples.pA2 2 [false; false; false; false]
     = (Some [false; false; false; false], false)
  /\ handle Examples.pA 2 [false; false; false; false]
     = (Some [true; true; false; false], false)
  /\ handle Examples.pA 4 [false; false; false; false]
     = (Some [true; true; true; true], true).
Proof. vm_compute. repeat split; reflexivity. Qed.

End DSEFacts.


(** ** The theorems at concrete inputs *)

Module Witnesses.
Import IntervalMap IntervalMapFacts TLMap TLMapFacts TL Merge TLProps Examples.
Import MergeFacts MarkFacts ClassifierFacts DSEFacts.

Lemma wf_0_8 : wf [(0, 8)].
Proof. unfold wf, two64. simpl. lia. Qed.

Lemma wf_4_12 : wf [(4, 12)].
Proof. unfold wf, two64. simpl. lia. Qed.

Lemma wfStore_storeX8 : wfStore storeX8.
Proof.
  intros O M H. unfold storeX8 in H. simpl in H.
  apply lookup_singleton_Some in H. destruct H as [_ <-]. exact wf_0_8.
Qed.

Lemma wfStore_storeX4to12 : wfStore storeX4to12.
Proof.
  intros O M H. unfold storeX4to12 in H. simpl in H.
  apply lookup_singleton_Some in H. destruct H as [_ <-]. exact wf_4_12.
Qed.

Lemma wfStore63_emptyClobbered : wfStore63 emptyClobbered.
Proof. intros O M H. unfold emptyClobbered in H. simpl in H. rewrite lookup_empty in H. discriminate. Qed.

Lemma merge_soundness_witness :
  (covers (mergeStores [(0, 8)] [(4, 12)]) 5
   <-> covers [(0, 8)] 5 /\ covers [(4, 12)] 5)
  /\ (forall merged,
        doMerge [storeX8; storeX4to12] = Some merged ->
        forall O x, trusted merged O x
                    <-> forall s, s ∈ [storeX8; storeX4to12] -> trusted s O x).
Proof.
  split.
  - apply (proj1 merge_soundness); [exact wf_0_8 | exact wf_4_12].
  - intros merged Hm.
    apply (proj2 merge_soundness [storeX8; storeX4to12] merged); [| exact Hm].
    repeat constructor; [exact wfStore_storeX8 | exact wfStore_storeX4to12].
Defined.

Lemma merge_algebra_witness :
  mergeStores [(0, 8)] [(4, 12)] = mergeStores [(4, 12)] [(0, 8)]
  /\ doMerge [storeX8; storeX4to12] = doMerge [storeX4to12; storeX8].
Proof.
  split.
  - apply (proj1 merge_algebra); [exact wf_0_8 | exact wf_4_12].
  - apply (proj1 (proj2 (proj2 (proj2 (proj2 (proj2 (proj2 merge_algebra))))))).
    + repeat constructor; [exact wfStore_storeX8 | exact wfStore_storeX4to12].
    + apply perm_swap.
Defined.

Lemma atomic_must_check_witness :
  shouldCheckLoad G0 (atomicRMW scalarResult) rootStore = TLS_MUSTCHECK.
Proof.
  apply (proj1 (atomic_must_check G0 (atomicRMW scalarResult)
                  (or_introl eq_refl) eq_refl eq_refl)).
Defined.

(** C3 as stated fails: in single-threaded-program mode an atomic
    read-modify-write is assigned [TLS_NEVERCHECK], and so is, in any mode,
    one whose speculated result is wholly unknown. *)
Lemma atomic_never_checked :
  isAtomicRMWOrCmpXchg (atomicRMW scalarResult)
  /\ assignedRequirement
       (TLAnalyseInstruction GSingleThreaded R0 (atomicRMW scalarResult)
          false false false (state emptyClobbered))
     = Some TLS_NEVERCHECK
  /\ assignedRequirement
       (TLAnalyseInstruction G0 R0 (atomicRMW unknownResult)
          false false false (state emptyClobbered))
     = Some TLS_NEVERCHECK.
Proof. split; [left; reflexivity |]. split; vm_compute; reflexivity. Qed.

Lemma unknown_result_never_checked_witness :
  shouldCheckLoad G0 (inst KLoad TLS_NOCHECK unknownResult [opX]) emptyClobbered
  = TLS_NEVERCHECK.
Proof.
  apply (proj1 (unknown_result_never_checked G0
                  (inst KLoad TLS_NOCHECK unknownResult [opX]) emptyClobbered
                  (or_introl (conj eq_refl (conj eq_refl eq_refl))))).
Defined.

Lemma readsBytes_loadX t : readsBytes (loadX t) ptrX 4.
Proof. left. repeat split. Qed.



Lemma lock_domain_frame_witness :
  exists st',
    storeAfter (TLAnalyseInstruction G0 R0 (lockCall [Y]) false false false
                  (state storeX8))
    = Some st'
    /\ store st' !! X = Some [(0, 8)]
    /\ shouldCheckLoad G0 (loadX TLS_NOCHECK) st'
       = shouldCheckLoad G0 (loadX TLS_NOCHECK) storeX8
    /\ store st' !! Y = Some [].
Proof.
  destruct (TLAnalyseInstruction G0 R0 (lockCall [Y]) false false false
              (state storeX8)) as [[[SI' st1] R1] |] eqn:E;
    [| vm_compute in E; discriminate].
  exists (tlStore st1). split; [reflexivity |].
  destruct (lock_domain_frame G0 R0 (lockCall [Y]) [Y] false false false
              (state storeX8) SI' st1 R1
              (conj eq_refl (conj eq_refl (conj eq_refl (conj eq_refl eq_refl)))) E)
    as (_ & Hout & Hload & Hin).
  split; [| split].
  - rewrite Hout; [reflexivity |].
    intros HX. apply list_elem_of_singleton in HX. discriminate.
  - apply Hload. intros O HO HY.
    apply list_elem_of_singleton in HY. subst O.
    vm_compute in HO. apply list_elem_of_singleton in HO. discriminate.
  - apply Hin; [right; reflexivity | reflexivity |].
    apply list_elem_of_singleton. reflexivity.
Defined.

Lemma two_phase_keeps_mustcheck_witness :
  exists w SI2,
    findTentativeLoadsInUnboundedLoop G0 false [loadX TLS_NOCHECK] false false
      (state emptyClobbered) R0 = Some w
    /\ instsFinal w !! 0%nat = Some SI2
    /\ isThreadLocal SI2 = TLS_MUSTCHECK.
Proof.
  destruct (findTentativeLoadsInUnboundedLoop G0 false [loadX TLS_NOCHECK] false false
              (state emptyClobbered) R0) as [w |] eqn:Hw;
    [| vm_compute in Hw; discriminate].
  destruct (proj2 two_phase_keeps_mustcheck G0 [loadX TLS_NOCHECK] false
              (state emptyClobbered) R0 w Hw)
    as (body1 & latch1 & R1 & H1 & _ & _ & _ & Hkeep).
  vm_compute in H1. injection H1 as <- _ _.
  destruct (Hkeep 0%nat _ eq_refl eq_refl) as (SI2 & H2 & H3).
  exists w, SI2. split; [reflexivity |]. split; assumption.
Defined.

(** C6 as stated fails: over the loop whose body is one load of [X],
    entered under full clobber, byte 0 of [X] is tentative in the snapshot
    the header has in phase 1 and trusted in the one it has in phase 2. *)
Lemma header_trust_grows_in_phase_2 :
  exists w,
    findTentativeLoadsInUnboundedLoop G0 false [loadX TLS_NOCHECK] false false
      (state emptyClobbered) R0 = Some w
    /\ headerPhase1 w = Some emptyClobbered
    /\ tentative emptyClobbered X 0
    /\ trustedb (headerFinal w) X 0 = true
    /\ store (headerFinal w) !! X = Some [(0, 4)].
Proof.
  eexists. split; [vm_compute; reflexivity |].
  vm_compute. repeat split; reflexivity.
Qed.



End Witnesses.


(** ** Further properties of the byte-range store *)

Module StoreFacts.
Import IntervalMap IntervalMapFacts TLMap TLMapFacts TL TLProps MarkFacts.
Import ClassifierFacts PathConditions.

(** X1 -- a readable copy of a well-formed byte-range set is the set itself:
    re-inserting its intervals in order never coalesces two of them. *)
Theorem getReadableCopy_same M : wf M -> getReadableCopy M = M.
Proof.
  intros H. unfold getReadableCopy.
  rewrite (insertAll_append M [] 0 (-1) (two64 - 1)); simpl; auto; lia.
Qed.

(** The ranges to add are empty once the whole range is covered. *)
Lemma addRanges_covered M start stop hi :
  wfb 0 hi M -> 0 <= start -> start < stop -> stop <= hi ->
  (forall x, start <= x < stop -> covers M x) ->
  addRanges start stop (Some M) = [].
Proof.
  intros HM H0 Hlt Hhi Hc.
  destruct (addRanges_spec M start stop hi HM H0 Hlt Hhi) as [Hw Hcov].
  destruct (addRanges start stop (Some M)) as [| [a b] rest]; [reflexivity |].
  exfalso. simpl in Hw. destruct Hw as (W1 & W2 & W3 & _).
  destruct (proj1 (Hcov a)) as [Hx Hn]; [simpl; left; lia |].
  apply Hn, Hc. exact Hx.
Qed.

(** X2 -- in a check-emitting context and under a snapshot with
    [allOthersClobbered] set, [markGoodBytes] on a pointer with a single
    target that is not a constant global makes exactly the bytes
    [Offset, Offset + Len) of that target trusted, on top of what was:
    the flag, the other objects and the well-formedness of every byte-range
    set are kept. *)
Theorem markGoodBytes_adds_exactly GoodPtr Len s Off iv :
  wfStore63 s -> allOthersClobbered s = true ->
  tryGetUniqueIV GoodPtr = Some (ValSetTypePB, iv) ->
  isConstantGV (V iv) = false ->
  0 <= Offset iv + Off -> 0 < Len -> Offset iv + Off + Len < two63 ->
  wfStore63 (markGoodBytes GoodPtr Len true s Off)
  /\ allOthersClobbered (markGoodBytes GoodPtr Len true s Off) = true
  /\ (forall O, O <> V iv ->
        store (markGoodBytes GoodPtr Len true s Off) !! O = store s !! O)
  /\ (forall O x,
        trusted (markGoodBytes GoodPtr Len true s Off) O x
        <-> trusted s O x
            \/ (O = V iv /\ Offset iv + Off <= x < Offset iv + Off + Len)).
Proof.
  intros Hwf Hc Hu Hg H0 HL Hhi. unfold markGoodBytes. simpl.
  rewrite Hc, Hu, Hg. simpl.
  pose proof two63_lt_two64 as H63.
  rewrite !to_u64_id by lia.
  destruct (markRange_spec s (V iv) (Offset iv + Off) (Offset iv + Off + Len) Hwf)
    as (Hw' & Ha' & Hother & M' & HM' & Hcov); try lia.
  split; [exact Hw' |]. split; [congruence |]. split; [exact Hother |].
  intros O x. destruct (decide (O = V iv)) as [-> | Hne].
  - unfold trusted at 1. rewrite HM', Hcov.
    rewrite (trusted_clobbered s (V iv) x Hc). tauto.
  - unfold trusted. rewrite (Hother O Hne), Ha'. tauto.
Qed.

(** [markGoodBytes] either returns the snapshot as it is, and does so on
    every snapshot with the same flag, or marks a range of one object. *)
Lemma markGoodBytes_cases GoodPtr Len ce s Off :
  (forall s0, allOthersClobbered s0 = allOthersClobbered s ->
              markGoodBytes GoodPtr Len ce s0 Off = s0)
  \/ (ce = true /\ allOthersClobbered s = true
      /\ exists iv,
           tryGetUniqueIV GoodPtr = Some (ValSetTypePB, iv)
           /\ isConstantGV (V iv) = false
           /\ forall s0, allOthersClobbered s0 = true ->
                markGoodBytes GoodPtr Len true s0 Off
                = markRange s0 (V iv) (to_u64 (Offset iv + Off))
                    (to_u64 (Offset iv + Off + Len))).
Proof.
  unfold markGoodBytes.
  destruct ce; simpl; [| left; reflexivity].
  destruct (allOthersClobbered s) eqn:Ec; simpl.
  2:{ left. intros s0 ->. reflexivity. }
  destruct (tryGetUniqueIV GoodPtr) as [[ty iv] |] eqn:Eu.
  2:{ left. intros s0 ->. reflexivity. }
  destruct (bool_decide (ty = ValSetTypePB)) eqn:Ety; simpl.
  2:{ left. intros s0 ->. reflexivity. }
  apply bool_decide_eq_true in Ety. subst ty.
  destruct (isConstantGV (V iv)) eqn:Eg.
  { left. intros s0 ->. reflexivity. }
  right. split; [reflexivity |]. split; [reflexivity |].
  exists iv. split; [reflexivity |]. split; [exact Eg |].
  intros s0 ->. reflexivity.
Qed.

(** X3 -- marking the same bytes a second time changes nothing. *)
Theorem markGoodBytes_idempotent GoodPtr Len ce s Off :
  wfStore63 s -> validMark GoodPtr Len Off ->
  markGoodBytes GoodPtr Len ce (markGoodBytes GoodPtr Len ce s Off) Off
  = markGoodBytes GoodPtr Len ce s Off.
Proof.
  intros Hwf Hv.
  destruct (markGoodBytes_cases GoodPtr Len ce s Off)
    as [Hid | (-> & Ec & iv & Eu & Eg & Hm)].
  - rewrite (Hid s eq_refl). apply Hid. reflexivity.
  - destruct (Hv _ iv Eu) as (H0 & HL & Hhi).
    pose proof two63_lt_two64 as H63.
    rewrite (to_u64_id (Offset iv + Off)), (to_u64_id (Offset iv + Off + Len)) in Hm
      by lia.
    rewrite (Hm s Ec).
    destruct (markRange_spec s (V iv) (Offset iv + Off) (Offset iv + Off + Len) Hwf)
      as (Hw' & Ha' & Hother & M' & HM' & Hcov); try lia.
    rewrite Hm by congruence.
    set (s1 := markRange s (V iv) (Offset iv + Off) (Offset iv + Off + Len)) in *.
    unfold markRange at 1. unfold getReadableStoreFor. rewrite HM'.
    rewrite (addRanges_covered M' (Offset iv + Off) (Offset iv + Off + Len) (two63 - 1));
      try lia; [reflexivity | exact (Hw' _ _ HM') |].
    intros x Hx. apply Hcov. left. exact Hx.
Qed.

(** X4 -- a read that needs no check stays so when it shrinks and when
    trust grows: every read of a sub-range of its bytes needs no check
    either, and neither does the same read under a snapshot that trusts at
    least the same bytes of the object. *)
Theorem shouldCheckRead_antitone Ptr Size s :
  wfStore63 s -> 0 <= Offset Ptr -> 0 < Size -> Offset Ptr + Size < two63 ->
  shouldCheckRead Ptr Size s = false ->
  (forall Ptr' Size',
      V Ptr' = V Ptr -> Offset Ptr <= Offset Ptr' -> 0 < Size' ->
      Offset Ptr' + Size' <= Offset Ptr + Size ->
      shouldCheckRead Ptr' Size' s = false)
  /\ (forall s',
        wfStore63 s' ->
        (forall x, trusted s (V Ptr) x -> trusted s' (V Ptr) x) ->
        shouldCheckRead Ptr Size s' = false).
Proof.
  intros Hwf H0 HS Hhi Hno.
  destruct (isNullPointer (V Ptr)) eqn:Hn.
  { split; intros; unfold shouldCheckRead.
    - replace (V Ptr') with (V Ptr) by congruence. rewrite Hn. reflexivity.
    - rewrite Hn. reflexivity. }
  destruct (isConstantGV (V Ptr)) eqn:Hg.
  { split; intros; unfold shouldCheckRead.
    - replace (V Ptr') with (V Ptr) by congruence. rewrite Hn, Hg. reflexivity.
    - rewrite Hn, Hg. reflexivity. }
  pose proof (proj1 (shouldCheckRead_trusted Ptr Size s Hwf Hn Hg H0 HS Hhi) Hno) as Ht.
  split.
  - intros Ptr' Size' HV Ho HS' Hin.
    apply shouldCheckRead_trusted; try congruence; try lia; try assumption.
    intros x Hx. rewrite HV. apply Ht. lia.
  - intros s' Hwf' Hmono.
    apply shouldCheckRead_trusted; auto.
Qed.

(** X5 -- a memory copy of a constant length makes the bytes at both of
    its pointers trusted and takes no trust away. *)
Theorem walkCopyInst_marks_both CopyFrom CopyTo LenSV s Len a b :
  wfStore63 s -> allOthersClobbered s = true ->
  tryGetConstantInt LenSV = Some Len -> 0 < Len ->
  tryGetUniqueIV CopyFrom = Some (ValSetTypePB, a) ->
  tryGetUniqueIV CopyTo = Some (ValSetTypePB, b) ->
  isConstantGV (V a) = false -> isConstantGV (V b) = false ->
  0 <= Offset a -> Offset a + Len < two63 ->
  0 <= Offset b -> Offset b + Len < two63 ->
  wfStore63 (walkCopyInst CopyFrom CopyTo LenSV true s)
  /\ (forall O x, trusted s O x -> trusted (walkCopyInst CopyFrom CopyTo LenSV true s) O x)
  /\ (forall x, Offset a <= x < Offset a + Len ->
                trusted (walkCopyInst CopyFrom CopyTo LenSV true s) (V a) x)
  /\ (forall x, Offset b <= x < Offset b + Len ->
                trusted (walkCopyInst CopyFrom CopyTo LenSV true s) (V b) x).
Proof.
  intros Hwf Hc HL HLen Ha Hb Hga Hgb Ha0 Hahi Hb0 Hbhi.
  unfold walkCopyInst. rewrite HL.
  assert (Vb : validMark CopyTo Len 0).
  { intros ty iv. rewrite Hb. intros [= <- <-]. lia. }
  assert (Va : validMark CopyFrom Len 0).
  { intros ty iv. rewrite Ha. intros [= <- <-]. lia. }
  destruct (markGoodBytes_spec CopyTo Len true s 0 Hwf Vb) as (W1 & C1 & T1).
  destruct (markGoodBytes_spec CopyFrom Len true (markGoodBytes CopyTo Len true s 0) 0
              W1 Va) as (W2 & C2 & T2).
  split; [exact W2 |]. split; [| split].
  - intros O x Ht. apply T2, T1. exact Ht.
  - intros x Hx.
    apply (markGoodBytes_marks CopyFrom Len (markGoodBytes CopyTo Len true s 0) 0 a);
      auto; try lia. congruence.
  - intros x Hx. apply T2.
    apply (markGoodBytes_marks CopyTo Len s 0 b); auto; lia.
Qed.

(** Walking path conditions keeps the store well formed and the flag, and
    takes no trust away. *)
Lemma walkPathConditions_keeps Ty Conds ce BB depth : forall s s',
  wfStore63 s ->
  (forall c, c ∈ Conds -> validMark (condSV c) (assertedLength Ty c) (offset c)) ->
  walkPathConditions Ty Conds ce BB depth s = Some s' ->
  wfStore63 s' /\ allOthersClobbered s' = allOthersClobbered s
  /\ (forall O x, trusted s O x -> trusted s' O x).
Proof.
  induction Conds as [| c Conds IH]; simpl; intros s s' Hwf Hv HW.
  - injection HW as <-. auto.
  - assert (Hrest : forall c', c' ∈ Conds ->
                      validMark (condSV c') (assertedLength Ty c') (offset c')).
    { intros c' Hc'. apply Hv. apply elem_of_cons. right. exact Hc'. }
    destruct (negb (depth =? fromStackIdx c) || negb (bool_decide (BB = fromBB c))).
    + apply (IH s s' Hwf Hrest HW).
    + pose proof (Hv c ltac:(apply elem_of_cons; left; reflexivity)) as Hc.
      destruct Ty; simpl in HW, Hc; try discriminate.
      * destruct (markGoodBytes_spec (condSV c) (valTypeStoreSize c) ce s (offset c)
                    Hwf Hc) as (W1 & C1 & T1).
        destruct (IH _ s' W1 Hrest HW) as (W2 & C2 & T2).
        split; [exact W2 |]. split; [congruence |]. auto.
      * destruct (markGoodBytes_spec (condSV c) (valNumElements c) ce s (offset c)
                    Hwf Hc) as (W1 & C1 & T1).
        destruct (IH _ s' W1 Hrest HW) as (W2 & C2 & T2).
        split; [exact W2 |]. split; [congruence |]. auto.
Qed.

(** X6 -- the path conditions asserted at another stack depth or in
    another block are passed over, whatever their kind; and after the walk
    of the conditions on memory of one kind, in a check-emitting context
    under a snapshot with [allOthersClobbered] set, the bytes asserted by
    every condition of this block and depth are trusted, and no byte has
    lost trust. *)
Theorem path_conditions_mark_their_bytes Ty Conds BB depth s :
  (forall ce,
      (forall c, c ∈ Conds -> fromStackIdx c <> depth \/ fromBB c <> BB) ->
      walkPathConditions Ty Conds ce BB depth s = Some s)
  /\ (forall s',
        wfStore63 s -> allOthersClobbered s = true ->
        (forall c, c ∈ Conds -> validMark (condSV c) (assertedLength Ty c) (offset c)) ->
        walkPathConditions Ty Conds true BB depth s = Some s' ->
        (forall O x, trusted s O x -> trusted s' O x)
        /\ forall c iv,
             c ∈ Conds -> fromStackIdx c = depth -> fromBB c = BB ->
             tryGetUniqueIV (condSV c) = Some (ValSetTypePB, iv) ->
             isConstantGV (V iv) = false ->
             forall x, Offset iv + offset c <= x
                         < Offset iv + offset c + assertedLength Ty c ->
                       trusted s' (V iv) x).
Proof.
  split.
  - intros ce. induction Conds as [| c Conds IH]; simpl; intros Hskip; [reflexivity |].
    destruct (Hskip c ltac:(apply elem_of_cons; left; reflexivity)) as [Hd | Hb].
    + destruct (Z.eqb_spec depth (fromStackIdx c)) as [He | _]; [congruence |].
      simpl. apply IH. intros c' Hc'. apply Hskip. apply elem_of_cons. right. exact Hc'.
    + rewrite (bool_decide_eq_false_2 (BB = fromBB c)) by congruence.
      rewrite orb_true_r.
      apply IH. intros c' Hc'. apply Hskip. apply elem_of_cons. right. exact Hc'.
  - intros s' Hwf Hc Hv HW.
    split; [exact (proj2 (proj2 (walkPathConditions_keeps _ _ _ _ _ s s' Hwf Hv HW))) |].
    revert s Hwf Hc Hv HW.
    induction Conds as [| c0 Conds IH]; intros s Hwf Hc Hv HW c iv Hin Hd Hb Hu Hg x Hx.
    { inversion Hin. }
    simpl in HW.
    assert (Hrest : forall c', c' ∈ Conds ->
                      validMark (condSV c') (assertedLength Ty c') (offset c')).
    { intros c' Hc'. apply Hv. apply elem_of_cons. right. exact Hc'. }
    pose proof (Hv c0 ltac:(apply elem_of_cons; left; reflexivity)) as Hv0.
    apply elem_of_cons in Hin.
    destruct (negb (depth =? fromStackIdx c0) || negb (bool_decide (BB = fromBB c0)))
      eqn:Eskip.
    + destruct Hin as [-> | Hin].
      * exfalso. rewrite Hd, Z.eqb_refl, (bool_decide_eq_true_2 _ (eq_sym Hb)) in Eskip.
        discriminate.
      * apply (IH s Hwf Hc Hrest HW c iv); assumption.
    + assert (Hstep : exists s1,
                walkPathCondition Ty c0 true s = Some s1
                /\ s1 = markGoodBytes (condSV c0) (assertedLength Ty c0) true s (offset c0)).
      { destruct Ty; simpl in HW |- *; try discriminate; eexists; split; reflexivity. }
      destruct Hstep as (s1 & E1 & Hs1). rewrite E1 in HW.
      destruct (markGoodBytes_spec (condSV c0) (assertedLength Ty c0) true s (offset c0)
                  Hwf Hv0) as (W1 & C1 & T1).
      rewrite <- Hs1 in W1, C1, T1.
      destruct Hin as [-> | Hin].
      * destruct (walkPathConditions_keeps _ _ _ _ _ s1 s' W1 Hrest HW) as (_ & _ & T2).
        apply T2. rewrite Hs1.
        destruct (Hv0 _ iv Hu) as (B0 & BL & Bhi).
        apply (markGoodBytes_marks (condSV c0) (assertedLength Ty c0) s (offset c0) iv);
          auto.
      * apply (IH s1 W1 ltac:(congruence) Hrest HW c iv); assumption.
Qed.

End StoreFacts.

(** ** Further properties of the analysis of an instruction *)

Module AnalysisFacts.
Import IntervalMap IntervalMapFacts TLMap TLMapFacts TL TLProps MarkFacts.
Import ClassifierFacts AnalysisProps.

Ltac case_matches :=
  repeat match goal with
         | |- context [match ?x with _ => _ end] => destruct x eqn:?
         end.

Lemma withStore_same st : withStore st (tlStore st) = st.
Proof. destruct st; reflexivity. Qed.

Lemma walkCopyInst_disabled CopyFrom CopyTo LenSV s :
  walkCopyInst CopyFrom CopyTo LenSV false s = s.
Proof. unfold walkCopyInst. destruct (tryGetConstantInt LenSV); reflexivity. Qed.

(** In a context that emits no checks [updateTLStore] leaves the snapshot
    alone or clobbers: all of it, or the objects of a lock domain. *)
Lemma updateTLStore_disabled G SI st :
  updateTLStore G SI false st = st
  \/ updateTLStore G SI false st = markAllObjectsTentative st
  \/ exists dom, updateTLStore G SI false st
                 = withStore st (clobberDomain dom (tlStore st)).
Proof.
  unfold updateTLStore.
  rewrite !walkCopyInst_disabled.
  unfold markGoodBytes. simpl negb. cbv iota.
  rewrite !withStore_same.
  case_matches; auto.
  all: try (right; right; eexists; reflexivity).
Qed.

Lemma updateTLStore_disabled_trust G SI st O x :
  trusted (tlStore (updateTLStore G SI false st)) O x -> trusted (tlStore st) O x.
Proof.
  destruct (updateTLStore_disabled G SI st) as [-> | [-> | [dom ->]]].
  - auto.
  - unfold trusted. simpl. rewrite lookup_empty. discriminate.
  - destruct (clobberDomain_spec dom (tlStore st)) as (Ha & Hout & Hin).
    unfold trusted, withStore. cbn [tlStore]. unfold IntervalMap.t in *. destruct (decide (O ∈ dom)) as [Hd | Hd].
    + rewrite (Hin O Hd). simpl. tauto.
    + rewrite (Hout O Hd), Ha. auto.
Qed.

(** X7 -- with checks not emitted ([commitDisabledHere]) the analysis of
    an instruction never adds trust: every byte trusted in the snapshot
    after [TLAnalyseInstruction] was trusted before it, whatever the
    instruction, in either pass and inside the loop analyser or not (the
    loads and stores of such a context make no later check redundant). *)
Theorem disabled_context_adds_no_trust G R SI sp ila st SI' st' R' O x :
  TLAnalyseInstruction G R SI true sp ila st = Some (SI', st', R') ->
  trusted (tlStore st') O x -> trusted (tlStore st) O x.
Proof.
  unfold TLAnalyseInstruction. simpl negb.
  destruct (readsMemoryDirectly SI).
  - destruct (sp && bool_decide (isThreadLocal SI = TLS_MUSTCHECK)).
    + intros [= <- <- <-]. auto.
    + match goal with
      | |- context [bool_decide (isThreadLocal ?S1 = TLS_MUSTCHECK)] =>
          destruct (bool_decide (isThreadLocal S1 = TLS_MUSTCHECK))
      end.
      * destruct (squashUnavailableObjects R _ ila) as [SI2 |]; [| discriminate].
        intros [= <- <- <-] Ht.
        apply updateTLStore_disabled_trust in Ht. exact Ht.
      * destruct (replaceUnavailableObjects R _ ila) as [R1 |]; [| discriminate].
        intros [= <- <- <-] Ht.
        apply updateTLStore_disabled_trust in Ht. exact Ht.
  - destruct (is_CallInst (kind SI) || bool_decide (kind SI = KInvoke)).
    + destruct (replaceUnavailableObjects R SI ila) as [R1 |]; [| discriminate].
      intros [= <- <- <-] Ht. apply updateTLStore_disabled_trust in Ht. exact Ht.
    + destruct (bool_decide (isThreadLocal SI = TLS_NEVERCHECK));
        intros [= <- <- <-] Ht; [exact Ht |].
      apply updateTLStore_disabled_trust in Ht. exact Ht.
Qed.

Lemma shouldCheckRead_clobbered Ptr Size :
  isNullPointer (V Ptr) = false -> isConstantGV (V Ptr) = false ->
  shouldCheckRead Ptr Size emptyClobbered = true.
Proof.
  intros Hn Hg. unfold shouldCheckRead, getReadableStoreFor. rewrite Hn, Hg.
  simpl. rewrite lookup_empty. reflexivity.
Qed.

Lemma ordered_reader_split SI :
  readsMemoryDirectly SI && hasOrderingConstraint SI = false ->
  readsMemoryDirectly SI = false \/ hasOrderingConstraint SI = false.
Proof. destruct (readsMemoryDirectly SI); simpl; auto. Qed.

(** X8 -- at a yield point [updateTLStore] makes every object
    tentative, whether checks are emitted or not: the snapshot becomes the
    empty one with [allOthersClobbered] set, so every read of an object that
    is neither null nor a constant global needs a check afterwards; and the
    barrier flag of the context is raised by yield points only. *)
Theorem yield_points_clobber_everything G SI ce st :
  (yieldPoint G SI ->
   updateTLStore G SI ce st = markAllObjectsTentative st
   /\ forall Ptr Size,
        isNullPointer (V Ptr) = false -> isConstantGV (V Ptr) = false ->
        shouldCheckRead Ptr Size (tlStore (updateTLStore G SI ce st)) = true)
  /\ (barrierHere st = false -> barrierHere (updateTLStore G SI ce st) = true ->
      yieldPoint G SI).
Proof.
  split.
  - intros Hy.
    assert (E : updateTLStore G SI ce st = markAllObjectsTentative st).
    { unfold updateTLStore.
      destruct Hy as [(Hk & Hvo & Hs) | [(Ha & Hl & Hst & Hr & Ho & Hm & Hs)
                     | [(Hk & Hro) | (Hk & Hro & Hf & Hsf & Hyd & Hp & Hd)]]].
      - rewrite Hk, Hs.
        destruct Hvo as [-> | ->]; [| rewrite orb_true_r]; reflexivity.
      - rewrite Hr, Ho, Hs, (bool_decide_eq_true_2 _ Hm).
        destruct (kind SI); try reflexivity; congruence.
      - rewrite Hk. destruct Hro as [-> | ->]; [| rewrite andb_false_r]; reflexivity.
      - rewrite Hk, Hf, Hsf, Hp, Hd.
        assert (Ero : readsMemoryDirectly SI && hasOrderingConstraint SI = false).
        { destruct Hro as [-> | ->]; [| rewrite andb_false_r]; reflexivity. }
        rewrite Ero. simpl.
        destruct Hyd as [[-> ->] | ->]; [| rewrite orb_true_r]; reflexivity. }
    split; [exact E |]. intros Ptr Size Hn Hg. rewrite E.
    apply shouldCheckRead_clobbered; assumption.
  - intros Hb0 Hb1. unfold updateTLStore in Hb1.
    assert (Hno : forall s, barrierHere (withStore st s) = true -> False).
    { intros s. simpl. congruence. }
    destruct (kind SI) eqn:Ek.
    1: { exfalso. eapply Hno. exact Hb1. }
    2: { exfalso. eapply Hno. exact Hb1. }
    1: { destruct ((isVolatile SI || hasOrderingConstraint SI)
                   && negb (atomicOpIsSimple SI)) eqn:Ec;
           [| exfalso; eapply Hno; exact Hb1].
         left. apply andb_true_iff in Ec. destruct Ec as [Ec1 Ec2].
         apply orb_true_iff in Ec1. apply negb_true_iff in Ec2. auto. }
    all: destruct (readsMemoryDirectly SI && hasOrderingConstraint SI) eqn:Ero;
      [ destruct (bool_decide (isThreadLocal SI = TLS_MUSTCHECK)
                  && negb (atomicOpIsSimple SI)) eqn:Em;
          [| exfalso; eapply Hno; exact Hb1];
        right; left;
        apply andb_true_iff in Ero; destruct Ero as [Er1 Er2];
        apply andb_true_iff in Em; destruct Em as [Em1 Em2];
        apply bool_decide_eq_true in Em1; apply negb_true_iff in Em2;
        rewrite Ek; repeat split; auto; discriminate
      | apply ordered_reader_split in Ero ].
    all: simpl in Hb1.
    all: try (exfalso; congruence).
    all: try (destruct (tryGetConstantInt (getCallArgOperand SI 2));
              exfalso; simpl in Hb1; congruence).
    + right. right. left. auto.
    + destruct (readFile SI) eqn:Ef; [exfalso; simpl in Hb1; congruence |].
      destruct (specialFunction SI) as [[] |] eqn:Esf;
        try (exfalso; simpl in Hb1; congruence).
      destruct ((bool_decide (calledFunction SI = None)
                 && negb (programSingleThreaded G)) || isYieldFunction SI) eqn:Ey;
        [| exfalso; congruence].
      destruct (inPessimisticLocks SI) eqn:Ep; [exfalso; congruence |].
      destruct (lockDomain SI) eqn:Ed; [exfalso; simpl in Hb1; congruence |].
      right. right. right. repeat split; auto.
      apply orb_true_iff in Ey. destruct Ey as [Ey | Ey]; [left | right; exact Ey].
      apply andb_true_iff in Ey. destruct Ey as [Ey1 Ey2].
      apply bool_decide_eq_true in Ey1. apply negb_true_iff in Ey2. auto.
    + destruct (readFile SI) eqn:Ef; [exfalso; simpl in Hb1; congruence |].
      destruct (specialFunction SI) as [[] |] eqn:Esf;
        exfalso; simpl in Hb1; congruence.
Qed.


Lemma checkEachTarget_constant G SI LoadSize s vals :
  (forall v, v ∈ vals -> isNullOrConst (V v) = true) ->
  checkEachTarget G SI vals LoadSize s TLS_NEVERCHECK = TLS_NEVERCHECK.
Proof.
  induction vals as [| v vals IH]; simpl; intros Hc; [reflexivity |].
  unfold shouldCheckLoadFrom.
  rewrite (Hc v ltac:(apply elem_of_cons; left; reflexivity)).
  unfold tlsMin. rewrite Z.ltb_irrefl.
  apply IH. intros v' Hv'. apply Hc. apply elem_of_cons. right. exact Hv'.
Qed.

Lemma shouldCheckRead_constant Ptr Size s :
  isNullOrConst (V Ptr) = true -> shouldCheckRead Ptr Size s = false.
Proof.
  unfold isNullOrConst, shouldCheckRead.
  destruct (isNullPointer (V Ptr)); [reflexivity |].
  simpl. intros ->. reflexivity.
Qed.

(** X10 -- reads of the null pointer and of constant globals are never
    checked, whatever the snapshot: a plain load all of whose possible
    targets are null or constant globals is [TLS_NEVERCHECK], and a memory
    transfer from such a source is never [TLS_MUSTCHECK]. *)
Theorem constant_targets_never_checked G SI s :
  (kind SI = KLoad -> hasOrderingConstraint SI = false ->
   (forall O, O ∈ operandTargets (getOperand SI 0) -> isNullOrConst O = true) ->
   shouldCheckLoad G SI s = TLS_NEVERCHECK)
  /\ (kind SI = KMemTransfer ->
      (forall O, O ∈ operandTargets (getCallArgOperand SI 1) ->
                 isNullOrConst O = true) ->
      shouldCheckLoad G SI s <> TLS_MUSTCHECK).
Proof.
  split.
  - intros Hk Ho Hc. unfold shouldCheckLoad.
    destruct (programSingleThreaded G); [reflexivity |].
    destruct (readsMemoryDirectly SI && negb (isCopyInst SI)
              && isSingleWhollyUnknown (PB SI)); [reflexivity |].
    rewrite Hk, Ho. unfold operandTargets in Hc.
    destruct (opVal (getOperand SI 0)) as [IVS | ty iv].
    + destruct (whollyUnknown IVS || negb (bool_decide (SetType IVS = ValSetTypePB)));
        [reflexivity |].
      apply checkEachTarget_constant. intros v Hv. apply Hc.
      apply list_elem_of_fmap. exists v. split; [reflexivity | exact Hv].
    + destruct (negb (bool_decide (ty = ValSetTypePB))); [reflexivity |].
      unfold shouldCheckLoadFrom.
      rewrite (Hc (V iv) ltac:(apply elem_of_cons; left; reflexivity)). reflexivity.
  - intros Hk Hc. unfold shouldCheckLoad.
    destruct (programSingleThreaded G); [discriminate |].
    destruct (readsMemoryDirectly SI && negb (isCopyInst SI)
              && isSingleWhollyUnknown (PB SI)); [discriminate |].
    rewrite Hk. unfold shouldCheckCopy.
    destruct (tryGetConstantInt (getCallArgOperand SI 2)) as [Len |]; [| discriminate].
    destruct (tryGetUniqueIV (getCallArgOperand SI 1)) as [[ty Ptr] |] eqn:Eu;
      [| discriminate].
    destruct (negb (bool_decide (ty = ValSetTypePB))); [discriminate |].
    destruct (Len =? 0); [discriminate |].
    destruct (memcpyValues SI) as [[| r vals] |]; try discriminate.
    assert (Hno : anyRangeNeedsCheck Ptr (r :: vals) s = false).
    { unfold anyRangeNeedsCheck. apply not_true_iff_false. intros Hex.
      apply existsb_exists in Hex. destruct Hex as (r' & _ & Hr').
      apply andb_true_iff in Hr'. destruct Hr' as [_ Hr'].
      rewrite shouldCheckRead_constant in Hr'; [discriminate |].
      simpl. apply Hc. eapply tryGetUniqueIV_target. exact Eu. }
    rewrite Hno. discriminate.
Qed.

(** Squashing changes nothing but the check requirement and the value
    sets. *)
Lemma squash_sameButResults R SI ila SI' :
  squashUnavailableObjects R SI ila = Some SI' -> sameButResults SI SI'.
Proof.
  unfold squashUnavailableObjects, sameButResults.
  destruct (bool_decide (kind SI = KLoad) || bool_decide (kind SI = KAtomicCmpXchg)).
  - destruct (PB SI) as [[IVS | vals] |].
    + destruct (squashUnavailableObject R IVS ila (getOperand SI 0)) as [[] |];
        intros [= <-]; simpl; auto 25.
    + destruct (squashRanges R ila (getOperand SI 0) None vals) as [[vals' []] |];
        intros [= <-]; simpl; auto 25.
    + intros [= <-]. auto 25.
  - destruct (memcpyValues SI) as [vals |].
    + destruct (squashRanges R ila (getCopySource SI) (Some (getCopyDest SI)) vals)
        as [[vals' []] |]; intros [= <-]; simpl; auto 25.
    + intros [= <-]. auto 25.
Qed.

Lemma updateTLStore_readsTentativeData G SI ce st :
  readsTentativeData (updateTLStore G SI ce st) = readsTentativeData st.
Proof. unfold updateTLStore. case_matches; reflexivity. Qed.

(** X12 -- outside single-threaded-program mode a load with an ordering
    constraint whose result is not a wholly unknown single value set is
    classified [TLS_MUSTCHECK] whatever the snapshot.  When
    [TLAnalyseInstruction] visits it -- it did not come in
    [TLS_NEVERCHECK], and it is not passed over in a second pass as already
    [TLS_MUSTCHECK] -- its context is flagged as reading tentative data and,
    unless the pass holds the load for simple, it is a yield point: the
    snapshot it leaves trusts nothing, not even the bytes it has just read,
    whether checks are emitted or not. *)
Theorem ordered_load_is_checked_and_yields G R SI cdh sp ila st SI' st' R' :
  kind SI = KLoad -> readsMemoryDirectly SI = true ->
  hasOrderingConstraint SI = true ->
  programSingleThreaded G = false -> isSingleWhollyUnknown (PB SI) = false ->
  isThreadLocal SI <> TLS_NEVERCHECK ->
  sp = false \/ isThreadLocal SI <> TLS_MUSTCHECK ->
  TLAnalyseInstruction G R SI cdh sp ila st = Some (SI', st', R') ->
  shouldCheckLoad G SI (tlStore st) = TLS_MUSTCHECK
  /\ readsTentativeData st' = true
  /\ (atomicOpIsSimple SI = false ->
      tlStore st' = emptyClobbered /\ barrierHere st' = true
      /\ forall O x, ~ trusted (tlStore st') O x).
Proof.
  intros Hk Hr Ho Hst Hw Hnn Hv HT.
  assert (Hcl : shouldCheckLoad G SI (tlStore st) = TLS_MUSTCHECK).
  { unfold shouldCheckLoad. rewrite Hst, Hw, andb_false_r, Hk, Ho. reflexivity. }
  split; [exact Hcl |].
  assert (Hsk : sp && bool_decide (isThreadLocal SI = TLS_MUSTCHECK) = false).
  { destruct Hv as [-> | Hnm]; [reflexivity |].
    rewrite (bool_decide_eq_false_2 _ Hnm). apply andb_false_r. }
  unfold TLAnalyseInstruction in HT. rewrite Hr, Hsk in HT.
  rewrite (bool_decide_eq_false_2 _ Hnn), Hcl in HT. simpl in HT.
  destruct (squashUnavailableObjects R (setIsThreadLocal SI TLS_MUSTCHECK) ila)
    as [SI2 |] eqn:Esq; [| discriminate].
  injection HT as <- <- <-.
  split; [rewrite updateTLStore_readsTentativeData; reflexivity |].
  intros Hs.
  pose proof (squash_sameButResults _ _ _ _ Esq) as Hsame.
  unfold sameButResults in Hsame. simpl in Hsame.
  destruct Hsame as (S1 & S2 & S3 & S4 & S5 & _).
  assert (E : updateTLStore G SI2 (negb cdh) (setReadsTentativeData st)
              = markAllObjectsTentative (setReadsTentativeData st)).
  { unfold updateTLStore. rewrite S1, Hk, S3, Ho, S5, Hs, orb_true_r. reflexivity. }
  rewrite E. simpl. repeat split.
  intros O x. unfold trusted. simpl. rewrite lookup_empty. discriminate.
Qed.

(** X13 -- in single-threaded-program mode the analysis of an instruction
    checks nothing: an instruction that reads memory directly and is visited
    (not passed over in a second pass as already [TLS_MUSTCHECK]) comes out
    [TLS_NEVERCHECK], whatever requirement it came in with and whatever the
    snapshot, and the tentative-data flag of the context is left as it
    was. *)
Theorem single_threaded_checks_nothing G R SI cdh sp ila st SI' st' R' :
  programSingleThreaded G = true ->
  TLAnalyseInstruction G R SI cdh sp ila st = Some (SI', st', R') ->
  readsTentativeData st' = readsTentativeData st
  /\ (readsMemoryDirectly SI = true ->
      sp = false \/ isThreadLocal SI <> TLS_MUSTCHECK ->
      isThreadLocal SI' = TLS_NEVERCHECK).
Proof.
  intros Hst. unfold TLAnalyseInstruction.
  destruct (readsMemoryDirectly SI).
  - destruct (sp && bool_decide (isThreadLocal SI = TLS_MUSTCHECK)) eqn:Esk.
    + intros [= <- <- <-]. split; [reflexivity |].
      apply andb_true_iff in Esk. destruct Esk as [Hsp Hm].
      apply bool_decide_eq_true in Hm.
      intros _ [Hf | Hn]; [congruence | contradiction].
    + unfold shouldCheckLoad. rewrite Hst.
      destruct (bool_decide (isThreadLocal SI = TLS_NEVERCHECK)) eqn:En.
      * apply bool_decide_eq_true in En.
        rewrite (bool_decide_eq_false_2 (isThreadLocal SI = TLS_MUSTCHECK))
          by congruence.
        destruct (replaceUnavailableObjects R SI ila); [| discriminate].
        intros [= <- <- <-]. rewrite updateTLStore_readsTentativeData. auto.
      * simpl.
        destruct (replaceUnavailableObjects R _ ila); [| discriminate].
        intros [= <- <- <-]. rewrite updateTLStore_readsTentativeData. auto.
  - destruct (is_CallInst (kind SI) || bool_decide (kind SI = KInvoke)).
    + destruct (replaceUnavailableObjects R SI ila); [| discriminate].
      intros [= <- <- <-]. rewrite updateTLStore_readsTentativeData.
      split; [reflexivity | discriminate].
    + destruct (bool_decide (isThreadLocal SI = TLS_NEVERCHECK));
        intros [= <- <- <-]; rewrite ?updateTLStore_readsTentativeData;
        (split; [reflexivity | discriminate]).
Qed.

(** X14 -- an instruction that comes in [TLS_NEVERCHECK] (known
    thread-local from the main phase, or squashed) is never re-classified:
    it comes out as it was, in either pass; and if it neither reads memory
    directly nor is a call or invoke, the snapshot and the registry are not
    touched either, whatever the instruction. *)
Theorem nevercheck_is_kept G R SI cdh sp ila st SI' st' R' :
  isThreadLocal SI = TLS_NEVERCHECK ->
  TLAnalyseInstruction G R SI cdh sp ila st = Some (SI', st', R') ->
  SI' = SI
  /\ (readsMemoryDirectly SI = false -> is_CallInst (kind SI) = false ->
      kind SI <> KInvoke -> st' = st /\ R' = R).
Proof.
  intros Hn. unfold TLAnalyseInstruction.
  rewrite (bool_decide_eq_true_2 _ Hn).
  rewrite (bool_decide_eq_false_2 (isThreadLocal SI = TLS_MUSTCHECK)) by congruence.
  rewrite andb_false_r.
  destruct (readsMemoryDirectly SI).
  - destruct (replaceUnavailableObjects R SI ila); [| discriminate].
    intros [= <- <- <-]. split; [reflexivity | discriminate].
  - destruct (is_CallInst (kind SI) || bool_decide (kind SI = KInvoke)) eqn:Ec.
    + destruct (replaceUnavailableObjects R SI ila); [| discriminate].
      intros [= <- <- <-]. split; [reflexivity |].
      intros _ Hc Hi. rewrite Hc, (bool_decide_eq_false_2 _ Hi) in Ec. discriminate.
    + intros [= <- <- <-]. auto.
Qed.

(** X15 -- the analysis of an instruction never lowers the tentative-data
    flag of its context; it raises the flag whenever an instruction that
    reads memory directly is visited (not passed over in a second pass as
    already [TLS_MUSTCHECK]) and comes out [TLS_MUSTCHECK]; it leaves the
    flag as it was for an instruction that does not read memory directly;
    and it raises the flag only for a direct reader that did not come in
    [TLS_NEVERCHECK] and that the classifier answers [TLS_MUSTCHECK] for. *)
Theorem mustcheck_raises_readsTentativeData G R SI cdh sp ila st SI' st' R' :
  TLAnalyseInstruction G R SI cdh sp ila st = Some (SI', st', R') ->
  (readsTentativeData st = true -> readsTentativeData st' = true)
  /\ (readsMemoryDirectly SI = true ->
      sp = false \/ isThreadLocal SI <> TLS_MUSTCHECK ->
      isThreadLocal SI' = TLS_MUSTCHECK -> readsTentativeData st' = true)
  /\ (readsMemoryDirectly SI = false ->
      readsTentativeData st' = readsTentativeData st)
  /\ (readsTentativeData st' = true ->
      readsTentativeData st = true
      \/ (readsMemoryDirectly SI = true /\ isThreadLocal SI <> TLS_NEVERCHECK
          /\ shouldCheckLoad G SI (tlStore st) = TLS_MUSTCHECK)).
Proof.
  unfold TLAnalyseInstruction.
  destruct (readsMemoryDirectly SI) eqn:Er.
  - destruct (sp && bool_decide (isThreadLocal SI = TLS_MUSTCHECK)) eqn:Esk.
    + intros [= <- <- <-].
      apply andb_true_iff in Esk. destruct Esk as [Hsp Hm].
      apply bool_decide_eq_true in Hm.
      split; [auto |]. split; [| split; [discriminate | auto]].
      intros _ [Hf | Hn]; [congruence | contradiction].
    + destruct (bool_decide (isThreadLocal SI = TLS_NEVERCHECK)) eqn:En.
      * apply bool_decide_eq_true in En.
        rewrite (bool_decide_eq_false_2 (isThreadLocal SI = TLS_MUSTCHECK))
          by congruence.
        destruct (replaceUnavailableObjects R SI ila); [| discriminate].
        intros [= <- <- <-]. rewrite updateTLStore_readsTentativeData.
        split; [auto |]. split; [| split; [discriminate | auto]].
        intros _ _ Hm. congruence.
      * apply bool_decide_eq_false in En. cbn [isThreadLocal setIsThreadLocal].
        destruct (bool_decide (shouldCheckLoad G SI (tlStore st) = TLS_MUSTCHECK))
          eqn:Em.
        -- apply bool_decide_eq_true in Em.
           destruct (squashUnavailableObjects R _ ila); [| discriminate].
           intros [= <- <- <-]. rewrite updateTLStore_readsTentativeData. simpl.
           split; [auto |]. split; [auto |]. split; [discriminate |].
           intros _. right. auto.
        -- apply bool_decide_eq_false in Em.
           destruct (replaceUnavailableObjects R _ ila); [| discriminate].
           intros [= <- <- <-]. rewrite updateTLStore_readsTentativeData.
           split; [auto |]. split; [| split; [discriminate | auto]].
           intros _ _ Hm. simpl in Hm. contradiction.
  - destruct (is_CallInst (kind SI) || bool_decide (kind SI = KInvoke)).
    + destruct (replaceUnavailableObjects R SI ila); [| discriminate].
      intros [= <- <- <-]. rewrite updateTLStore_readsTentativeData.
      split; [auto |]. split; [discriminate |]. split; auto.
    + destruct (bool_decide (isThreadLocal SI = TLS_NEVERCHECK));
        intros [= <- <- <-]; rewrite ?updateTLStore_readsTentativeData;
        (split; [auto |]; split; [discriminate |]; split; auto).
Qed.

(** *** Availability patching *)

Lemma squashRanges_idem R ila RP WP vals : forall vals' any,
  squashRanges R ila RP WP vals = Some (vals', any) ->
  squashRanges R ila RP WP vals' = Some (vals', false).
Proof.
  induction vals as [| r vals IH]; simpl; intros vals' any H.
  - injection H as <- <-. reflexivity.
  - destruct (squashUnavailableObject R (snd r) ila RP) as [sq |] eqn:E; [| discriminate].
    match type of H with
    | (if ?c then _ else _) = _ => destruct c; [discriminate |]
    end.
    destruct (squashRanges R ila RP WP vals) as [[rest' any'] |] eqn:Er; [| discriminate].
    injection H as <- <-. simpl.
    rewrite (IH rest' any' eq_refl).
    destruct sq; simpl.
    + reflexivity.
    + rewrite E. reflexivity.
Qed.

Lemma squashRanges_available R ila RP WP vals :
  (forall ty iv, isUnavailable R ty iv = false) ->
  squashRanges R ila RP WP vals = Some (vals, false).
Proof.
  intros Hav. induction vals as [| [rg v] vals IH]; simpl; [reflexivity |].
  unfold squashUnavailableObject.
  assert (E : existsb (isUnavailable R (SetType v)) (Values v) = false).
  { apply not_true_iff_false. intros Hex. apply existsb_exists in Hex.
    destruct Hex as (iv & _ & Hiv). rewrite Hav in Hiv. discriminate. }
  rewrite E. simpl. rewrite IH. reflexivity.
Qed.

Lemma setPB_same SI : setPB SI (PB SI) = SI.
Proof. destruct SI; reflexivity. Qed.

Lemma setMemcpyValues_same SI : setMemcpyValues SI (memcpyValues SI) = SI.
Proof. destruct SI; reflexivity. Qed.

(** X16 -- squashing unavailable objects is idempotent: a second run on
    its result changes nothing; and when the registry holds no committed
    allocation or descriptor that lacks a committed value, it changes
    nothing at all and never fails, the loop analyser included. *)
Theorem squash_is_idempotent R SI ila :
  (forall SI', squashUnavailableObjects R SI ila = Some SI' ->
               squashUnavailableObjects R SI' ila = Some SI')
  /\ ((forall ty iv, isUnavailable R ty iv = false) ->
      squashUnavailableObjects R SI ila = Some SI).
Proof.
  split.
  - intros SI'. unfold squashUnavailableObjects.
    destruct (bool_decide (kind SI = KLoad) || bool_decide (kind SI = KAtomicCmpXchg))
      eqn:Ek.
    + destruct (PB SI) as [[IVS | vals] |] eqn:Epb.
      * destruct (squashUnavailableObject R IVS ila (getOperand SI 0)) as [[] |] eqn:E;
          [| | discriminate]; intros [= <-]; simpl.
        -- rewrite Ek. reflexivity.
        -- rewrite Ek, Epb. unfold getOperand in *. rewrite E. reflexivity.
      * destruct (squashRanges R ila (getOperand SI 0) None vals) as [[vals' sq] |] eqn:E;
          [| discriminate].
        intros [= <-]. apply squashRanges_idem in E.
        destruct sq; simpl; rewrite Ek; unfold getOperand in *; simpl; rewrite E;
          reflexivity.
      * intros [= <-]. rewrite Ek, Epb. reflexivity.
    + destruct (memcpyValues SI) as [vals |] eqn:Emv.
      * destruct (squashRanges R ila (getCopySource SI) (Some (getCopyDest SI)) vals)
          as [[vals' sq] |] eqn:E; [| discriminate].
        intros [= <-]. apply squashRanges_idem in E.
        unfold getCopySource, getCopyDest, getCallArgOperand, getOperand in *.
        destruct sq; simpl; rewrite Ek; simpl; rewrite E; reflexivity.
      * intros [= <-]. rewrite Ek, Emv. reflexivity.
  - intros Hav. unfold squashUnavailableObjects.
    destruct (bool_decide (kind SI = KLoad) || bool_decide (kind SI = KAtomicCmpXchg)).
    + destruct (PB SI) as [[IVS | vals] |] eqn:Epb; [| | reflexivity].
      * unfold squashUnavailableObject.
        assert (E : existsb (isUnavailable R (SetType IVS)) (Values IVS) = false).
        { apply not_true_iff_false. intros Hex. apply existsb_exists in Hex.
          destruct Hex as (iv & _ & Hiv). rewrite Hav in Hiv. discriminate. }
        rewrite E. reflexivity.
      * rewrite squashRanges_available by exact Hav.
        rewrite <- Epb, setPB_same. reflexivity.
    + destruct (memcpyValues SI) as [vals |] eqn:Emv; [| reflexivity].
      rewrite squashRanges_available by exact Hav.
      rewrite <- Emv, setMemcpyValues_same. reflexivity.
Qed.

(** X17 -- [replaceUnavailableObjects] never makes an object
    unavailable; and once a load, call or invoke of a certain block whose
    result resolves to a base object has gone through it, outside the loop
    analyser, a pointer to that base is not squashed: the base is not a
    committed allocation lacking a committed value any more. *)
Theorem replace_makes_available R SI ila R' :
  replaceUnavailableObjects R SI ila = Some R' ->
  (forall ty iv, isUnavailable R' ty iv = true -> isUnavailable R ty iv = true)
  /\ (ila = false ->
      kind SI = KLoad \/ is_CallInst (kind SI) = true \/ kind SI = KInvoke ->
      parentCertain SI = true ->
      forall Base off, resultBase SI = Some (Base, off) ->
        forall iv, V iv = Base -> isUnavailable R' ValSetTypePB iv = false).
Proof.
  intros HR.
  assert (Hset : forall Base AD ty iv,
            AD_isCommitted AD = false ->
            isUnavailable (setAllocData R Base AD) ty iv = true ->
            isUnavailable R ty iv = true).
  { intros Base AD ty iv Hc. unfold isUnavailable, setAllocData. simpl.
    destruct ty; auto.
    destruct (bool_decide (V iv = Base)); [| auto].
    rewrite Hc. rewrite !andb_false_r. simpl. discriminate. }
  assert (Hfd : forall fd S ty iv,
            FD_isCommitted S = false ->
            isUnavailable (setFD R fd S) ty iv = true ->
            isUnavailable R ty iv = true).
  { intros fd S ty iv Hc. unfold isUnavailable, setFD. simpl.
    destruct ty; auto. destruct (V iv); auto.
    destruct (bool_decide (fd0 = fd)); [| auto].
    rewrite Hc. discriminate. }
  split.
  - revert HR. unfold replaceUnavailableObjects.
    repeat match goal with
           | |- context [match ?x with _ => _ end] => destruct x eqn:?
           end;
      intros [= <-]; intros ty iv0; auto.
    + apply Hset. reflexivity.
    + apply Hfd. reflexivity.
  - intros -> Hk Hcert Base off Hb iv HV.
    revert HR. unfold replaceUnavailableObjects.
    assert (Ek : bool_decide (kind SI = KLoad) || is_CallInst (kind SI)
                 || bool_decide (kind SI = KInvoke) = true).
    { destruct Hk as [Hk | [Hk | Hk]].
      - rewrite (bool_decide_eq_true_2 _ Hk). reflexivity.
      - rewrite Hk, orb_true_r. reflexivity.
      - rewrite (bool_decide_eq_true_2 (kind SI = KInvoke) Hk), orb_true_r. reflexivity. }
    rewrite Ek, Hcert, Hb. simpl.
    unfold isUnavailable. rewrite HV.
    destruct (isPtrIdx Base && (getFrameNo Base =? -1)) eqn:Ep.
    + destruct (AD_isCommitted (getAllocData R Base)
                && negb (AD_hasCommittedVal (getAllocData R Base))) eqn:Ec.
      * destruct (typeIsPointer SI); [| discriminate].
        intros [= <-]. unfold setAllocData. simpl.
        rewrite (bool_decide_eq_true_2 (Base = Base)) by reflexivity. simpl.
        rewrite ?andb_false_r. reflexivity.
      * intros [= <-].
        destruct (allocValueIsInst (getAllocData R Base)); simpl;
          [exact Ec | reflexivity].
    + intros [= <-]. reflexivity.
Qed.

End AnalysisFacts.

(** ** Contexts and the interface to the other passes *)

Module ContextFacts.
Import TL TLProps Contexts AnalysisFacts.

(** X18 -- re-running the analysis for a call to a disabled context
    discards whatever the snapshot of the block held: if the context read
    tentative data the block is left with the empty snapshot under
    [allOthersClobbered], under which every read of an object that is neither
    null nor a constant global needs a check; otherwise it is left with the
    snapshot saved before the call, and the call and the return value are
    not touched. *)
Theorem rerun_discards_the_callee_snapshot R SI IA ila s :
  (forall s2, rerunTentativeLoads R SI (Some s) IA ila
              = rerunTentativeLoads R SI (Some s2) IA ila)
  /\ (forall SI' s' rv',
        rerunTentativeLoads R SI (Some s) IA ila = Some (SI', s', rv') ->
        (calleeReadsTentativeData IA = true ->
         s' = Some emptyClobbered
         /\ forall Ptr Size,
              isNullPointer (V Ptr) = false -> isConstantGV (V Ptr) = false ->
              shouldCheckRead Ptr Size emptyClobbered = true)
        /\ (calleeReadsTentativeData IA = false ->
            s' = backupTlStore IA /\ SI' = SI /\ rv' = returnValue IA)).
Proof.
  split; [reflexivity |].
  intros SI' s' rv'. unfold rerunTentativeLoads.
  destruct (calleeReadsTentativeData IA).
  - destruct (backupTlStore IA); [| discriminate].
    destruct (returnValue IA) as [PB |].
    + destruct (squashUnavailableObjectsPB R SI PB ila) as [[SI2 PB2] |];
        [| discriminate].
      intros [= <- <- <-]. split; [| discriminate].
      intros _. split; [reflexivity |]. apply shouldCheckRead_clobbered.
    + intros [= <- <- <-]. split; [| discriminate].
      intros _. split; [reflexivity |]. apply shouldCheckRead_clobbered.
  - destruct (backupTlStore IA); [| discriminate].
    intros [= <- <- <-]. split; [discriminate | auto].
Qed.

(** X19 -- asking for the special checks as well never turns a required
    runtime check into none. *)
Theorem special_checks_only_add omitChecks V :
  requiresRuntimeCheck omitChecks V false = true ->
  requiresRuntimeCheck omitChecks V true = true.
Proof.
  unfold requiresRuntimeCheck.
  destruct omitChecks; [discriminate |].
  destruct V as [SI |]; [| discriminate].
  unfold requiresRuntimeCheck2.
  destruct (isVoidTy SI); [discriminate |].
  destruct (PB (checkedInst SI)); [| discriminate].
  destruct (bool_decide (needsRuntimeCheck SI = RUNTIME_CHECK_AS_EXPECTED));
    [reflexivity |].
  simpl.
  destruct (bool_decide (needsRuntimeCheck SI = RUNTIME_CHECK_READ_LLIOWD)
            || bool_decide (needsRuntimeCheck SI = RUNTIME_CHECK_READ_MEMCMP));
    [reflexivity | auto].
Qed.

(** X20 -- for a call that is not a memory transfer (a call to [realloc]
    or [va_copy] among them) the answer of [requiresRuntimeCheck2] does not
    depend on the check requirement the analysis assigned: such a call
    marked [TLS_MUSTCHECK] is reported only if it is flagged for a check of
    its own, or is a call to a disabled context that contains tentative
    loads; and a value of void type or without a value set is never
    reported. *)
Theorem call_requirement_is_not_reported V includeSpecialChecks :
  (kind (checkedInst V) = KCall \/ kind (checkedInst V) = KMemSet ->
   forall t,
     requiresRuntimeCheck2 (withRequirement V t) includeSpecialChecks
     = requiresRuntimeCheck2 V includeSpecialChecks)
  /\ (isVoidTy V = true \/ PB (checkedInst V) = None ->
      requiresRuntimeCheck2 V includeSpecialChecks = false).
Proof.
  split.
  - intros Hk t. unfold requiresRuntimeCheck2, withRequirement. simpl.
    destruct (isVoidTy V); [reflexivity |].
    destruct (PB (checkedInst V)); [| reflexivity].
    destruct Hk as [-> | ->]; reflexivity.
  - intros [Hv | Hp]; unfold requiresRuntimeCheck2.
    + rewrite Hv. reflexivity.
    + rewrite Hp. destruct (isVoidTy V); reflexivity.
Qed.

(** *** Resetting *)

Lemma IntegrationAttempt_ind' (P : IntegrationAttempt -> Prop) :
  (forall r t e calls peels,
      Forall P calls ->
      Forall (fun LPA => Forall P (Iterations LPA)) peels ->
      P (mkIA r t e calls peels)) ->
  forall IA, P IA.
Proof.
  intros H.
  refine (fix IH (IA : IntegrationAttempt) : P IA :=
            match IA with
            | mkIA r t e calls peels =>
                H r t e calls peels
                  ((fix go (l : list IntegrationAttempt) : Forall P l :=
                      match l with
                      | [] => @List.Forall_nil _ P
                      | x :: l' => @List.Forall_cons _ P x l' (IH x) (go l')
                      end) calls)
                  ((fix gop (l : list PeelAttempt) :
                      Forall (fun LPA => Forall P (Iterations LPA)) l :=
                      match l with
                      | [] => @List.Forall_nil _ _
                      | LPA :: l' =>
                          @List.Forall_cons _ (fun LPA => Forall P (Iterations LPA))
                            LPA l'
                            (match LPA return Forall P (Iterations LPA) with
                             | mkPA _ _ its =>
                                 (fix go (l : list IntegrationAttempt) : Forall P l :=
                                    match l with
                                    | [] => @List.Forall_nil _ P
                                    | x :: l'' =>
                                        @List.Forall_cons _ P x l'' (IH x) (go l'')
                                    end) its
                             end)
                            (gop l')
                      end) peels)
            end).
Qed.

Lemma map_fixed {A} (f : A -> A) l : Forall (fun x => f (f x) = f x) l ->
  map f (map f l) = map f l.
Proof.
  induction 1 as [| x l Hx _ IH]; simpl; [reflexivity |]. rewrite Hx, IH. reflexivity.
Qed.

Lemma Forall_flat_map_intro {A B} (P : B -> Prop) (f : A -> list B) l :
  Forall (fun x => Forall P (f x)) l -> Forall P (flat_map f l).
Proof.
  induction 1 as [| x l Hx _ IH]; simpl; [constructor |].
  apply Forall_app. split; assumption.
Qed.

(** X21 -- [resetTentativeLoads] clears the flag in every attempt it
    visits (the attempt, the calls inlined into it and the iterations of its
    terminated peel attempts, recursively), leaves a peel attempt that is
    not terminated exactly as it was, and is idempotent. *)
Theorem resetTentativeLoads_clears_all IA :
  Forall (fun a => tentativeLoadsRun a = false) (visited (resetTentativeLoads IA))
  /\ resetTentativeLoads (resetTentativeLoads IA) = resetTentativeLoads IA
  /\ (forall LPA, LPA ∈ peelChildren IA -> isTerminated LPA = false ->
                  LPA ∈ peelChildren (resetTentativeLoads IA)).
Proof.
  split; [| split].
  - induction IA as [r t e calls peels Hc Hp] using IntegrationAttempt_ind'.
    simpl. constructor; [reflexivity |].
    apply Forall_app. split.
    + apply Forall_flat_map_intro.
      induction Hc as [| c calls Hc1 _ IHc]; simpl; constructor; assumption.
    + apply Forall_flat_map_intro.
      induction Hp as [| [term en its] peels Hp1 _ IHp]; simpl; constructor;
        [| assumption].
      destruct term; simpl; [| constructor].
      apply Forall_flat_map_intro. simpl in Hp1.
      induction Hp1 as [| i its Hi _ IHi]; simpl; constructor; assumption.
  - induction IA as [r t e calls peels Hc Hp] using IntegrationAttempt_ind'.
    simpl. f_equal.
    + apply map_fixed. exact Hc.
    + rewrite map_map.
      induction Hp as [| [term en its] peels Hp1 _ IHp]; simpl; [reflexivity |].
      rewrite IHp. f_equal.
      destruct term; simpl; [| reflexivity].
      f_equal. apply map_fixed. exact Hp1.
  - destruct IA as [r t e calls peels]. simpl.
    intros LPA Hin Hterm. apply list_elem_of_fmap.
    exists LPA. split; [| exact Hin].
    destruct LPA as [term en its]. simpl in Hterm. subst term. reflexivity.
Qed.

End ContextFacts.

(** ** The progress counters *)

Module ProgressFacts.
Import Progress.

Lemma TLProgress_step N :
  0 <= N < 1000 ->
  TLProgress N = if N + 1 =? 1000 then (0, true) else (N + 1, false).
Proof.
  intros HN. unfold TLProgress, to_u32, two32, TLProgressLimit.
  rewrite (Z.mod_small (N + 1)) by lia. reflexivity.
Qed.

Lemma calls_TLProgress n : forall N,
  0 <= N < 1000 ->
  calls TLProgress n N = ((N + Z.of_nat n) mod 1000, (N + Z.of_nat n) / 1000).
Proof.
  induction n as [| n IH]; intros N HN.
  - simpl. rewrite Z.add_0_r, Z.mod_small, Z.div_small by lia. reflexivity.
  - cbn [calls]. rewrite (TLProgress_step N HN).
    destruct (Z.eqb_spec (N + 1) 1000) as [He | Hne]; cbv beta iota zeta.
    + rewrite (IH 0) by lia. rewrite Z.add_0_l.
      replace (N + Z.of_nat (S n)) with (Z.of_nat n + 1 * 1000) by lia.
      rewrite Z.mod_add, Z.div_add by lia. f_equal. lia.
    + rewrite (IH (N + 1)) by lia.
      replace (N + 1 + Z.of_nat n) with (N + Z.of_nat (S n)) by lia.
      f_equal.
Qed.

(** X22 -- the progress counters of the two passes stay below their limit
    and print one dot every thousand calls: after [n] calls from the initial
    value the counter is [n mod 1000] and [n / 1000] dots were printed. *)
Theorem progress_dot_every_thousand_calls n :
  calls TLProgress n 0 = (Z.of_nat n mod 1000, Z.of_nat n / 1000)
  /\ calls DSEProgress n 0 = (Z.of_nat n mod 1000, Z.of_nat n / 1000).
Proof.
  split.
  - apply (calls_TLProgress n 0). lia.
  - change DSEProgress with TLProgress. apply (calls_TLProgress n 0). lia.
Qed.

End ProgressFacts.

(** ** Further properties of the dead-store prover *)

Module ProverFacts.
Import DSE DSEEntry DSEFacts.

(** The marking loop sets bit [k] exactly when [k] lies in the defined
    range and the loop reaches it: every byte before [k] is in the range or
    already set. *)
Lemma markLoop_bits n : forall i fd fnd bits k,
  0 <= i -> (Z.to_nat i + n <= length bits)%nat ->
  (fst (markLoop n i fd fnd bits) !! k = Some true
   <-> bits !! k = Some true
       \/ ((Z.to_nat i <= k < Z.to_nat i + n)%nat /\ fd <= Z.of_nat k < fnd
           /\ forall j, (Z.to_nat i <= j < k)%nat ->
                        fd <= Z.of_nat j < fnd \/ bits !! j = Some true)).
Proof.
  induction n as [| n IH]; intros i fd fnd bits k Hi Hlen.
  - simpl. split; [auto |]. intros [H | (H & _)]; [exact H | lia].
  - cbn [markLoop].
    assert (Hnext : Z.to_nat (i + 1) = S (Z.to_nat i)) by lia.
    assert (Hki : Z.of_nat (Z.to_nat i) = i) by lia.
    destruct ((fd <=? i) && (i <? fnd)) eqn:Ec.
    + apply andb_true_iff in Ec. destruct Ec as [Ec1 Ec2].
      apply Z.leb_le in Ec1. apply Z.ltb_lt in Ec2.
      assert (Hlen' : (Z.to_nat (i + 1) + n
                       <= length (<[Z.to_nat i := true]> bits))%nat).
      { rewrite length_insert. lia. }
      rewrite (IH (i + 1) fd fnd _ k ltac:(lia) Hlen').
      rewrite Hnext. split.
      * intros [Hb | (Hk & Hr & Hall)].
        -- destruct (decide (k = Z.to_nat i)) as [-> | Hne].
           ++ right. split; [lia |]. split; [lia |]. intros j Hj. lia.
           ++ left. rewrite list_lookup_insert_ne in Hb by congruence. exact Hb.
        -- right. split; [lia |]. split; [exact Hr |]. intros j Hj.
           destruct (decide (j = Z.to_nat i)) as [-> | Hne]; [left; lia |].
           destruct (Hall j ltac:(lia)) as [H | H]; [left; exact H | right].
           rewrite list_lookup_insert_ne in H by congruence. exact H.
      * intros [Hb | (Hk & Hr & Hall)].
        -- left. destruct (decide (k = Z.to_nat i)) as [-> | Hne].
           ++ apply list_lookup_insert_eq. lia.
           ++ rewrite list_lookup_insert_ne by congruence. exact Hb.
        -- destruct (decide (k = Z.to_nat i)) as [-> | Hne].
           ++ left. apply list_lookup_insert_eq. lia.
           ++ right. split; [lia |]. split; [exact Hr |]. intros j Hj.
              destruct (Hall j ltac:(lia)) as [H | H]; [left; exact H | right].
              rewrite list_lookup_insert_ne by lia. exact H.
    + assert (Hnr : ~ (fd <= i < fnd)).
      { intros [H1 H2]. apply Z.leb_le in H1. apply Z.ltb_lt in H2.
        rewrite H1, H2 in Ec. discriminate. }
      destruct (bits !! Z.to_nat i) as [[] |] eqn:Eb; simpl.
      * rewrite (IH (i + 1) fd fnd bits k ltac:(lia) ltac:(lia)).
        rewrite Hnext. split.
        -- intros [Hb | (Hk & Hr & Hall)]; [left; exact Hb |].
           right. split; [lia |]. split; [exact Hr |]. intros j Hj.
           destruct (decide (j = Z.to_nat i)) as [-> | Hne]; [right; exact Eb |].
           apply Hall. lia.
        -- intros [Hb | (Hk & Hr & Hall)]; [left; exact Hb |].
           destruct (decide (k = Z.to_nat i)) as [-> | Hne]; [left; exact Eb |].
           right. split; [lia |]. split; [exact Hr |]. intros j Hj. apply Hall. lia.
      * split; [auto |]. intros [Hb | (Hk & Hr & Hall)]; [exact Hb |].
        exfalso. destruct (decide (k = Z.to_nat i)) as [-> | Hne]; [lia |].
        destruct (Hall (Z.to_nat i) ltac:(lia)) as [H | H]; [lia | congruence].
      * split; [auto |]. intros [Hb | (Hk & Hr & Hall)]; [exact Hb |].
        exfalso. destruct (decide (k = Z.to_nat i)) as [-> | Hne]; [lia |].
        destruct (Hall (Z.to_nat i) ltac:(lia)) as [H | H]; [lia | congruence].
Qed.

(** The loop ends with [Finished] still true exactly when every byte it
    goes over is in the defined range or already set. *)
Lemma markLoop_finished_iff n : forall i fd fnd bits,
  0 <= i ->
  (snd (markLoop n i fd fnd bits) = true
   <-> forall j, (Z.to_nat i <= j < Z.to_nat i + n)%nat ->
                 fd <= Z.of_nat j < fnd \/ bits !! j = Some true).
Proof.
  induction n as [| n IH]; intros i fd fnd bits Hi.
  - simpl. split; [intros _ j Hj; lia | reflexivity].
  - cbn [markLoop].
    assert (Hnext : Z.to_nat (i + 1) = S (Z.to_nat i)) by lia.
    destruct ((fd <=? i) && (i <? fnd)) eqn:Ec.
    + apply andb_true_iff in Ec. destruct Ec as [Ec1 Ec2].
      apply Z.leb_le in Ec1. apply Z.ltb_lt in Ec2.
      rewrite (IH (i + 1) fd fnd _ ltac:(lia)). rewrite Hnext. split.
      * intros Hall j Hj.
        destruct (decide (j = Z.to_nat i)) as [-> | Hne]; [left; lia |].
        destruct (Hall j ltac:(lia)) as [H | H]; [left; exact H | right].
        rewrite list_lookup_insert_ne in H by congruence. exact H.
      * intros Hall j Hj.
        destruct (Hall j ltac:(lia)) as [H | H]; [left; exact H | right].
        rewrite list_lookup_insert_ne by lia. exact H.
    + assert (Hnr : ~ (fd <= i < fnd)).
      { intros [H1 H2]. apply Z.leb_le in H1. apply Z.ltb_lt in H2.
        rewrite H1, H2 in Ec. discriminate. }
      destruct (bits !! Z.to_nat i) as [[] |] eqn:Eb; simpl.
      * rewrite (IH (i + 1) fd fnd bits ltac:(lia)). rewrite Hnext. split.
        -- intros Hall j Hj.
           destruct (decide (j = Z.to_nat i)) as [-> | Hne]; [right; exact Eb |].
           apply Hall. lia.
        -- intros Hall j Hj. apply Hall. lia.
      * split; [discriminate |]. intros Hall. exfalso.
        destruct (Hall (Z.to_nat i) ltac:(lia)) as [H | H]; [lia | congruence].
      * split; [discriminate |]. intros Hall. exfalso.
        destruct (Hall (Z.to_nat i) ltac:(lia)) as [H | H]; [lia | congruence].
Qed.

Section Prover.

Variable aliasSVs : Value -> Z -> Value -> Z -> SVAAResult.
Variable getBaseAndConstantOffset : Value -> option (Value * Z).
Variable getBaseObject : Value -> option Value.
Variable GetDefinedRange : Value -> Z -> Z -> Value -> Z -> Z -> option (Z * Z).

Local Abbreviation isLifetimeEnd := (DSE.isLifetimeEnd getBaseObject).
Local Abbreviation DSEHandleWrite :=
  (DSE.DSEHandleWrite aliasSVs getBaseAndConstantOffset GetDefinedRange).
Local Abbreviation noteBytesWrittenBy :=
  (DSE.noteBytesWrittenBy aliasSVs getBaseAndConstantOffset getBaseObject
     GetDefinedRange).
Local Abbreviation walkInstruction :=
  (DSE.walkInstruction aliasSVs getBaseAndConstantOffset getBaseObject
     GetDefinedRange).
Local Abbreviation definedRange := (DSEEntry.definedRange aliasSVs GetDefinedRange).
Local Abbreviation tryKillStore :=
  (DSEEntry.tryKillStore aliasSVs getBaseAndConstantOffset getBaseObject
     GetDefinedRange).

Lemma DSEHandleWrite_definedRange Writer WriteSize StorePtr Size StoreBase StoreOffset
    bits WriteBase WriteOffset :
  getBaseAndConstantOffset Writer = Some (WriteBase, WriteOffset) ->
  DSEHandleWrite Writer WriteSize StorePtr Size StoreBase StoreOffset (Some bits)
  = let '(FirstDef, FirstNotDef) :=
      definedRange Writer WriteSize StorePtr Size StoreBase StoreOffset
        WriteBase WriteOffset in
    if negb (FirstDef =? FirstNotDef) then
      let '(bits', Finished) :=
        markLoop (Z.to_nat Size) 0 FirstDef FirstNotDef bits in
      (Some bits', Finished)
    else (Some bits, false).
Proof.
  intros Hb. unfold DSE.DSEHandleWrite, DSEEntry.definedRange. rewrite Hb. reflexivity.
Qed.

(** X23 -- the bits a handled write sets: byte [k] of the candidate is
    marked when it was marked before, or when it lies in the range the write
    defines and every byte before it lies in that range or was marked
    already; a byte the write covers behind a byte that is neither covered
    nor marked stays unmarked. *)
Theorem DSEHandleWrite_marks Writer WriteSize StorePtr Size StoreBase StoreOffset
    bits WriteBase WriteOffset FirstDef FirstNotDef :
  0 <= Size -> length bits = Z.to_nat Size ->
  getBaseAndConstantOffset Writer = Some (WriteBase, WriteOffset) ->
  definedRange Writer WriteSize StorePtr Size StoreBase StoreOffset
    WriteBase WriteOffset = (FirstDef, FirstNotDef) ->
  exists bits',
    fst (DSEHandleWrite Writer WriteSize StorePtr Size StoreBase StoreOffset (Some bits))
    = Some bits'
    /\ length bits' = length bits
    /\ forall k,
         bits' !! k = Some true
         <-> bits !! k = Some true
             \/ ((k < length bits)%nat /\ FirstDef <= Z.of_nat k < FirstNotDef
                 /\ forall j, (j < k)%nat ->
                      FirstDef <= Z.of_nat j < FirstNotDef \/ bits !! j = Some true).
Proof.
  intros HS Hlen Hb Hr.
  rewrite (DSEHandleWrite_definedRange _ _ _ _ _ _ _ _ _ Hb), Hr.
  destruct (Z.eqb_spec FirstDef FirstNotDef) as [He | Hne]; simpl.
  - exists bits. split; [reflexivity |]. split; [reflexivity |].
    intros k. split; [auto |]. intros [H | (_ & H & _)]; [exact H | lia].
  - pose proof (markLoop_length (Z.to_nat Size) 0 FirstDef FirstNotDef bits) as Hl.
    pose proof (fun k => markLoop_bits (Z.to_nat Size) 0 FirstDef FirstNotDef bits k
                           ltac:(lia) ltac:(simpl; lia)) as Hbits.
    destruct (markLoop (Z.to_nat Size) 0 FirstDef FirstNotDef bits) as [b f].
    simpl in *. exists b. split; [reflexivity |]. split; [exact Hl |].
    intros k. rewrite Hbits. split.
    + intros [H | (H1 & H2 & H3)]; [left; exact H |].
      right. split; [lia |]. split; [exact H2 |]. intros j Hj. apply H3. lia.
    + intros [H | (H1 & H2 & H3)]; [left; exact H |].
      right. split; [lia |]. split; [exact H2 |]. intros j Hj. apply H3. lia.
Qed.

(** A write that must-alias the candidate and is at least as large finishes
    the path. *)
Lemma DSEHandleWrite_must_alias Writer WriteSize StorePtr Size StoreBase
    StoreOffset bits WriteBase WriteOffset :
  0 <= Size -> length bits = Z.to_nat Size ->
  getBaseAndConstantOffset Writer = Some (WriteBase, WriteOffset) ->
  aliasSVs Writer WriteSize StorePtr Size = SVMustAlias ->
  0 < Size <= WriteSize ->
  snd (DSEHandleWrite Writer WriteSize StorePtr Size StoreBase StoreOffset (Some bits))
  = true.
Proof.
  intros HS Hlen Hb Hm Hsz.
  rewrite (DSEHandleWrite_definedRange _ _ _ _ _ _ _ _ _ Hb).
  unfold DSEEntry.definedRange. rewrite Hm.
  destruct (Z.eqb_spec 0 (Z.min WriteSize Size)) as [He | Hne]; [lia |]. simpl.
  pose proof (markLoop_finished_iff (Z.to_nat Size) 0 0 (Z.min WriteSize Size) bits
                ltac:(lia)) as Hf.
  destruct (markLoop (Z.to_nat Size) 0 0 (Z.min WriteSize Size) bits) as [b f].
  simpl in *. apply Hf. intros j Hj. left. lia.
Qed.

(** X24 -- a handled write finishes the path exactly when it defines some
    byte and every byte of the candidate outside the range it defines was
    marked already; in particular a write that must-alias the candidate and
    is at least as large finishes it whatever was marked. *)
Theorem DSEHandleWrite_finishes_iff Writer WriteSize StorePtr Size StoreBase StoreOffset
    bits WriteBase WriteOffset FirstDef FirstNotDef :
  0 <= Size -> length bits = Z.to_nat Size ->
  getBaseAndConstantOffset Writer = Some (WriteBase, WriteOffset) ->
  definedRange Writer WriteSize StorePtr Size StoreBase StoreOffset
    WriteBase WriteOffset = (FirstDef, FirstNotDef) ->
  (snd (DSEHandleWrite Writer WriteSize StorePtr Size StoreBase StoreOffset (Some bits))
   = true
   <-> FirstDef <> FirstNotDef
       /\ forall j, (j < length bits)%nat ->
                    FirstDef <= Z.of_nat j < FirstNotDef \/ bits !! j = Some true)
  /\ (aliasSVs Writer WriteSize StorePtr Size = SVMustAlias ->
      0 < Size <= WriteSize ->
      snd (DSEHandleWrite Writer WriteSize StorePtr Size StoreBase StoreOffset
             (Some bits)) = true).
Proof.
  clear getBaseObject. intros HS Hlen Hb Hr.
  assert (Hiff :
    snd (DSEHandleWrite Writer WriteSize StorePtr Size StoreBase StoreOffset (Some bits))
    = true
    <-> FirstDef <> FirstNotDef
        /\ forall j, (j < length bits)%nat ->
                     FirstDef <= Z.of_nat j < FirstNotDef \/ bits !! j = Some true).
  { rewrite (DSEHandleWrite_definedRange _ _ _ _ _ _ _ _ _ Hb), Hr.
    destruct (Z.eqb_spec FirstDef FirstNotDef) as [He | Hne]; simpl.
    - split; [discriminate | tauto].
    - pose proof (markLoop_finished_iff (Z.to_nat Size) 0 FirstDef FirstNotDef bits
                    ltac:(lia)) as Hf.
      destruct (markLoop (Z.to_nat Size) 0 FirstDef FirstNotDef bits) as [b f].
      simpl in *. rewrite Hf. split.
      + intros Hall. split; [exact Hne |]. intros j Hj. apply Hall. lia.
      + intros [_ Hall] j Hj. apply Hall. lia. }
  split; [exact Hiff |].
  intros Hm Hsz. apply DSEHandleWrite_must_alias with (WriteBase := WriteBase)
    (WriteOffset := WriteOffset); auto.
Qed.

(** X25 -- an instruction the walk goes over never takes a mark away:
    under a bitmap the context handed on is a bitmap of the same length in
    which every marked byte is still marked, whatever the verdict. *)
Theorem noteBytesWrittenBy_keeps_marks SI StorePtr StoreBase StoreOffset Size bits :
  0 <= Size -> length bits = Z.to_nat Size ->
  exists bits',
    snd (noteBytesWrittenBy SI StorePtr StoreBase StoreOffset Size (Some bits))
    = Some bits'
    /\ length bits' = length bits
    /\ forall k, bits !! k = Some true -> bits' !! k = Some true.
Proof.
  intros HS Hlen.
  assert (Hsame : exists bits', Some bits = Some bits' /\ length bits' = length bits
                    /\ forall k, bits !! k = Some true -> bits' !! k = Some true).
  { exists bits. auto. }
  assert (Hw : forall Writer WriteSize,
            exists bits',
              snd (stopOrContinue
                     (DSEHandleWrite Writer WriteSize StorePtr Size StoreBase
                        StoreOffset (Some bits))) = Some bits'
              /\ length bits' = length bits
              /\ forall k, bits !! k = Some true -> bits' !! k = Some true).
  { intros Writer WriteSize. unfold stopOrContinue. cbn [snd fst].
    destruct (DSEHandleWrite Writer WriteSize StorePtr Size StoreBase StoreOffset
                (Some bits)) as [[b |] f] eqn:E; cbn [fst].
    - destruct (DSEHandleWrite_finished aliasSVs getBaseAndConstantOffset
                  GetDefinedRange _ _ _ _ _ _ _ _ _ HS Hlen E) as (H1 & H2 & _).
      exists b. split; [reflexivity | split; assumption].
    - exfalso. revert E. unfold DSE.DSEHandleWrite.
      destruct (getBaseAndConstantOffset Writer) as [[wb wo] |]; [| discriminate].
      match goal with
      | |- context [let '(_, _) := ?r in _] => destruct r as [fd fnd]
      end.
      destruct (negb (fd =? fnd)); [| discriminate].
      destruct (markLoop (Z.to_nat Size) 0 fd fnd bits); discriminate. }
  unfold DSE.noteBytesWrittenBy.
  destruct (isLifetimeEnd StoreBase SI); [exact Hsame |].
  destruct (DSE.kind SI); try exact Hsame.
  - destruct (bool_decide (KMemTransfer = KMemTransfer) && negb (unusedWriter SI)
              && negb (bool_decide
                         (aliasSVs (getCallArgOperand SI 1)
                            (default UnknownSize (constSize SI)) StorePtr Size
                          = SVNoAlias))); [exact Hsame |].
    destruct (negb (default UnknownSize (constSize SI) =? UnknownSize));
      [apply Hw | exact Hsame].
  - destruct (bool_decide (KMemSet = KMemTransfer) && negb (unusedWriter SI)
              && negb (bool_decide
                         (aliasSVs (getCallArgOperand SI 1)
                            (default UnknownSize (constSize SI)) StorePtr Size
                          = SVNoAlias))); [exact Hsame |].
    destruct (negb (default UnknownSize (constSize SI) =? UnknownSize));
      [apply Hw | exact Hsame].
  - destruct (resolvedRead SI); [apply Hw | exact Hsame].
  - destruct (mayBeReplaced SI && ctxAvailable SI
              && (negb (resultIsPtrOrFd SI) || resultBaseAvailable SI));
      [exact Hsame |].
    destruct (negb (bool_decide
                      (aliasSVs (getOperand SI 0) (accessSize SI) StorePtr Size
                       = SVNoAlias))); exact Hsame.
  - apply Hw.
Qed.

Lemma stopOrContinue_fst r :
  fst (stopOrContinue r) = WIRStopThisPath <-> snd r = true.
Proof. unfold stopOrContinue. destruct (snd r); simpl; split; congruence. Qed.

Lemma stopOrContinue_not_abort r : fst (stopOrContinue r) <> WIRStopWholeWalk.
Proof. unfold stopOrContinue. destruct (snd r); simpl; discriminate. Qed.

(** X26 -- an instruction that ends the lifetime of the written object
    stops the path as dead before anything else is looked at, leaving the
    bitmap as it is, so it never aborts the walk; and under a bitmap a path is
    stopped as dead only there or by a write -- a store, a memory intrinsic of
    constant size or a resolved file read -- after which every byte of the
    candidate is marked. *)
Theorem path_stops_only_when_dead SI StorePtr StoreBase StoreOffset Size :
  (forall Ctx,
      isLifetimeEnd StoreBase SI = true ->
      noteBytesWrittenBy SI StorePtr StoreBase StoreOffset Size Ctx
      = (WIRStopThisPath, Ctx))
  /\ (forall bits,
        0 <= Size -> length bits = Z.to_nat Size ->
        fst (noteBytesWrittenBy SI StorePtr StoreBase StoreOffset Size (Some bits))
        = WIRStopThisPath ->
        isLifetimeEnd StoreBase SI = true
        \/ ((DSE.kind SI = KStore
              \/ ((DSE.kind SI = KMemTransfer \/ DSE.kind SI = KMemSet)
                  /\ exists c, constSize SI = Some c /\ c <> UnknownSize)
              \/ (DSE.kind SI = KCall /\ resolvedRead SI <> None))
            /\ exists bits',
                 snd (noteBytesWrittenBy SI StorePtr StoreBase StoreOffset Size
                        (Some bits)) = Some bits'
                 /\ forall k, (k < length bits')%nat -> bits' !! k = Some true)).
Proof.
  split.
  - intros Ctx Hl. unfold DSE.noteBytesWrittenBy. rewrite Hl. reflexivity.
  - intros bits HS Hlen. unfold DSE.noteBytesWrittenBy.
    destruct (isLifetimeEnd StoreBase SI); [auto |].
    assert (Hw : forall Writer WriteSize,
              fst (stopOrContinue
                     (DSEHandleWrite Writer WriteSize StorePtr Size StoreBase
                        StoreOffset (Some bits))) = WIRStopThisPath ->
              exists bits',
                snd (stopOrContinue
                       (DSEHandleWrite Writer WriteSize StorePtr Size StoreBase
                          StoreOffset (Some bits))) = Some bits'
                /\ forall k, (k < length bits')%nat -> bits' !! k = Some true).
    { intros Writer WriteSize Hst. apply stopOrContinue_fst in Hst.
      unfold stopOrContinue. cbn [snd].
      destruct (DSEHandleWrite Writer WriteSize StorePtr Size StoreBase StoreOffset
                  (Some bits)) as [[b |] f] eqn:E; simpl in Hst; subst f.
      - destruct (DSEHandleWrite_finished aliasSVs getBaseAndConstantOffset
                    GetDefinedRange _ _ _ _ _ _ _ _ _ HS Hlen E) as (_ & _ & H3).
        exists b. split; [reflexivity | exact (H3 eq_refl)].
      - exfalso. revert E. unfold DSE.DSEHandleWrite.
        destruct (getBaseAndConstantOffset Writer) as [[wb wo] |]; [| discriminate].
        match goal with
        | |- context [let '(_, _) := ?r in _] => destruct r as [fd fnd]
        end.
        destruct (negb (fd =? fnd)); [| discriminate].
        destruct (markLoop (Z.to_nat Size) 0 fd fnd bits); discriminate. }
    destruct (DSE.kind SI) eqn:Ek; simpl; try discriminate.
    + destruct (negb (unusedWriter SI)
                && negb (bool_decide
                           (aliasSVs (getCallArgOperand SI 1)
                              (default UnknownSize (constSize SI)) StorePtr Size
                            = SVNoAlias))); [discriminate |].
      destruct (Z.eqb_spec (default UnknownSize (constSize SI)) UnknownSize)
        as [He | Hne]; simpl; [discriminate |].
      intros Hst. right. split; [| apply Hw; exact Hst].
      right. left. split; [auto |].
      destruct (constSize SI) as [c |]; [exists c; auto | contradiction].
    + destruct (Z.eqb_spec (default UnknownSize (constSize SI)) UnknownSize)
        as [He | Hne]; simpl; [discriminate |].
      intros Hst. right. split; [| apply Hw; exact Hst].
      right. left. split; [auto |].
      destruct (constSize SI) as [c |]; [exists c; auto | contradiction].
    + destruct (resolvedRead SI) as [rs |] eqn:Er; [| discriminate].
      intros Hst. right. split; [| apply Hw; exact Hst].
      right. right. split; [reflexivity | discriminate].
    + destruct (mayBeReplaced SI && ctxAvailable SI
                && (negb (resultIsPtrOrFd SI) || resultBaseAvailable SI));
        [discriminate |].
      destruct (negb (bool_decide
                        (aliasSVs (getOperand SI 0) (accessSize SI) StorePtr Size
                         = SVNoAlias))); discriminate.
    + intros Hst. right. split; [auto | apply Hw; exact Hst].
Qed.

(** X27 -- only reads abort the walk: [walkInstruction] raises
    [writeUsed] exactly when the instruction stops the whole walk, which only
    a load that is not resolved, or a memory transfer that is not itself
    dead, does, and only when its source may alias the candidate; the bitmap
    is handed back untouched, and [writeUsed] is never lowered. *)
Theorem only_reads_abort W SI Ctx :
  (writeUsed W = true -> writeUsed (fst (fst (walkInstruction W SI Ctx))) = true)
  /\ (snd (fst (walkInstruction W SI Ctx)) <> WIRStopWholeWalk ->
      fst (fst (walkInstruction W SI Ctx)) = W)
  /\ (snd (fst (walkInstruction W SI Ctx)) = WIRStopWholeWalk ->
      writeUsed (fst (fst (walkInstruction W SI Ctx))) = true
      /\ snd (walkInstruction W SI Ctx) = Ctx
      /\ isLifetimeEnd (StoreBase W) SI = false
      /\ ((DSE.kind SI = KLoad
           /\ mayBeReplaced SI && ctxAvailable SI
                && (negb (resultIsPtrOrFd SI) || resultBaseAvailable SI) = false
           /\ aliasSVs (getOperand SI 0) (accessSize SI) (StorePtr W) (StoreSize W)
              <> SVNoAlias)
          \/ (DSE.kind SI = KMemTransfer /\ unusedWriter SI = false
              /\ aliasSVs (getCallArgOperand SI 1)
                   (default UnknownSize (constSize SI)) (StorePtr W) (StoreSize W)
                 <> SVNoAlias))).
Proof.
  rewrite (walkInstruction_fst aliasSVs getBaseAndConstantOffset getBaseObject
             GetDefinedRange W SI Ctx).
  cbn [fst snd].
  split; [| split].
  - intros Hu. destruct (bool_decide _); [reflexivity | exact Hu].
  - intros Hne. rewrite bool_decide_eq_false_2 by exact Hne. reflexivity.
  - intros Hab. rewrite (bool_decide_eq_true_2 _ Hab).
    split; [reflexivity |]. revert Hab. unfold DSE.noteBytesWrittenBy.
    destruct (isLifetimeEnd (StoreBase W) SI); [discriminate |].
    destruct (DSE.kind SI) eqn:Ek; simpl; try discriminate.
    + destruct (unusedWriter SI) eqn:Eu; simpl.
      * destruct (negb (default UnknownSize (constSize SI) =? UnknownSize));
          [intros H; exfalso; exact (stopOrContinue_not_abort _ H) | discriminate].
      * destruct (bool_decide
                    (aliasSVs (getCallArgOperand SI 1)
                       (default UnknownSize (constSize SI)) (StorePtr W) (StoreSize W)
                     = SVNoAlias)) eqn:Ea; simpl.
        -- destruct (negb (default UnknownSize (constSize SI) =? UnknownSize));
             [intros H; exfalso; exact (stopOrContinue_not_abort _ H) | discriminate].
        -- apply bool_decide_eq_false in Ea. intros _.
           split; [reflexivity |]. split; [reflexivity |]. right. auto.
    + destruct (negb (default UnknownSize (constSize SI) =? UnknownSize));
        [intros H; exfalso; exact (stopOrContinue_not_abort _ H) | discriminate].
    + destruct (resolvedRead SI);
        [intros H; exfalso; exact (stopOrContinue_not_abort _ H) | discriminate].
    + destruct (mayBeReplaced SI && ctxAvailable SI
                && (negb (resultIsPtrOrFd SI) || resultBaseAvailable SI)) eqn:Er;
        [discriminate |].
      destruct (bool_decide
                  (aliasSVs (getOperand SI 0) (accessSize SI) (StorePtr W) (StoreSize W)
                   = SVNoAlias)) eqn:Ea; simpl; [discriminate |].
      apply bool_decide_eq_false in Ea. intros _.
      split; [reflexivity |]. split; [reflexivity |]. left. auto.
    + intros H. exfalso. exact (stopOrContinue_not_abort _ H).
Qed.

(** X28 -- a memory transfer already marked an unused writer is walked as
    the plain write of its destination: its source is not taken for a read,
    so it never aborts the walk, and it is handled exactly as the memory
    intrinsic with the same operands that is not a transfer. *)
Theorem dead_transfer_is_a_plain_write SI StorePtr StoreBase StoreOffset Size Ctx :
  DSE.kind SI = KMemTransfer -> unusedWriter SI = true ->
  noteBytesWrittenBy SI StorePtr StoreBase StoreOffset Size Ctx
  = noteBytesWrittenBy (asMemSet SI) StorePtr StoreBase StoreOffset Size Ctx
  /\ fst (noteBytesWrittenBy SI StorePtr StoreBase StoreOffset Size Ctx)
     <> WIRStopWholeWalk.
Proof.
  intros Hk Hu.
  assert (Hl : isLifetimeEnd StoreBase (asMemSet SI) = isLifetimeEnd StoreBase SI).
  { unfold DSE.isLifetimeEnd, asMemSet. simpl. rewrite Hk. reflexivity. }
  unfold DSE.noteBytesWrittenBy. rewrite Hl.
  destruct (isLifetimeEnd StoreBase SI); [split; [reflexivity | discriminate] |].
  rewrite Hk. unfold asMemSet at 1. cbn [DSE.kind]. rewrite Hu. simpl.
  split; [reflexivity |].
  destruct (negb (default UnknownSize (constSize SI) =? UnknownSize));
    [apply stopOrContinue_not_abort | discriminate].
Qed.

(** X29 -- a store followed on its path by a store that must-alias it and
    writes at least as many bytes is dead, whatever comes after: with both
    pointers resolved, [tryKillStore] answers true and marks the first store
    an unused writer. *)
Theorem overwritten_store_is_dead SI Next rest valueSizeInBits Base Off WBase WOff :
  0 < valueSizeInBits -> valueSizeInBits + 7 < two64 ->
  getBaseAndConstantOffset (getOperand SI 1) = Some (Base, Off) ->
  DSE.kind Next = KStore ->
  getBaseAndConstantOffset (getOperand Next 1) = Some (WBase, WOff) ->
  aliasSVs (getOperand Next 1) (accessSize Next) (getOperand SI 1)
    ((valueSizeInBits + 7) / 8) = SVMustAlias ->
  (valueSizeInBits + 7) / 8 <= accessSize Next ->
  tryKillStore (PStep Next rest) SI valueSizeInBits = (true, true).
Proof.
  intros Hbits Hhi Hb Hk Hwb Hal Hsz.
  unfold DSEEntry.tryKillStore.
  rewrite to_u64_id by lia.
  set (Size := (valueSizeInBits + 7) / 8) in *.
  assert (HS : 0 < Size).
  { unfold Size. apply Z.div_str_pos. lia. }
  assert (HU : Size <> UnknownSize).
  { unfold Size, UnknownSize.
    pose proof (Z.mul_div_le (valueSizeInBits + 7) 8 ltac:(lia)). lia. }
  rewrite (tryKillWriterTo_noPathAborts aliasSVs getBaseAndConstantOffset
             getBaseObject GetDefinedRange), Hb.
  assert (E : noPathAborts aliasSVs getBaseAndConstantOffset getBaseObject
                GetDefinedRange (newWalker (getOperand SI 1) Base Off Size)
                (PStep Next rest) (initialContext Size) = true).
  { cbn [noPathAborts newWalker DSE.StorePtr DSE.StoreBase DSE.StoreOffset
           DSE.StoreSize].
    unfold DSE.noteBytesWrittenBy.
    destruct (isLifetimeEnd Base Next); [reflexivity |].
    rewrite Hk. unfold initialContext.
    destruct (Z.eqb_spec Size UnknownSize) as [He | _]; [contradiction |].
    cbn [negb].
    assert (Hlen : length (replicate (Z.to_nat Size) false) = Z.to_nat Size)
      by apply length_replicate.
    pose proof (DSEHandleWrite_must_alias (getOperand Next 1) (accessSize Next)
                  (getOperand SI 1) Size Base Off (replicate (Z.to_nat Size) false)
                  WBase WOff ltac:(lia) Hlen Hwb Hal ltac:(lia)) as Hfin.
    unfold stopOrContinue. rewrite Hfin. reflexivity. }
  rewrite E. reflexivity.
Qed.

End Prover.

End ProverFacts.

(** ** The further theorems at concrete inputs *)

Module MoreWitnesses.
Import IntervalMap IntervalMapFacts TLMap TLMapFacts TL Merge TLProps Examples.
Import MarkFacts ClassifierFacts PathConditions AnalysisProps Contexts MoreExamples.
Import StoreFacts AnalysisFacts ContextFacts.

Lemma wf_twoRanges : wf twoRanges.
Proof. unfold wf, twoRanges, two64. simpl. lia. Qed.

Lemma wfStore63_storeX8 : wfStore63 storeX8.
Proof.
  intros O M HM. unfold storeX8 in HM. simpl in HM.
  apply lookup_singleton_Some in HM. destruct HM as [_ <-].
  unfold two63. simpl. lia.
Qed.

Lemma validMark_opX : validMark opX 4 0.
Proof. intros ty iv [= <- <-]. unfold two63. simpl. lia. Qed.

Lemma trustedb_spec s O x : trustedb s O x = true <-> trusted s O x.
Proof.
  unfold trustedb, trusted. destruct (store s !! O).
  - apply coversb_spec.
  - destruct (allOthersClobbered s); simpl; split; congruence.
Qed.

Lemma getReadableCopy_same_witness : getReadableCopy twoRanges = twoRanges.
Proof. apply (getReadableCopy_same twoRanges wf_twoRanges). Defined.

Lemma markGoodBytes_adds_exactly_witness :
  allOthersClobbered (markGoodBytes opX 4 true emptyClobbered 0) = true
  /\ forall O x,
       trusted (markGoodBytes opX 4 true emptyClobbered 0) O x
       <-> trusted emptyClobbered O x \/ (O = X /\ 0 + 0 <= x < 0 + 0 + 4).
Proof.
  destruct (markGoodBytes_adds_exactly opX 4 emptyClobbered 0 ptrX
              Witnesses.wfStore63_emptyClobbered eq_refl eq_refl eq_refl
              ltac:(simpl; lia) ltac:(lia) ltac:(unfold two63; simpl; lia))
    as (_ & Hc & _ & Ht).
  split; [exact Hc | exact Ht].
Defined.

Lemma markGoodBytes_idempotent_witness :
  markGoodBytes opX 4 true (markGoodBytes opX 4 true emptyClobbered 0) 0
  = markGoodBytes opX 4 true emptyClobbered 0.
Proof.
  apply (markGoodBytes_idempotent opX 4 true emptyClobbered 0
           Witnesses.wfStore63_emptyClobbered validMark_opX).
Defined.

Lemma shouldCheckRead_antitone_witness :
  shouldCheckRead {| V := X; Offset := 2 |} 4 storeX8 = false.
Proof.
  apply (proj1 (shouldCheckRead_antitone ptrX 8 storeX8 wfStore63_storeX8
                  ltac:(simpl; lia) ltac:(lia) ltac:(unfold two63; simpl; lia)
                  eq_refl));
    simpl; try reflexivity; lia.
Defined.

Lemma walkCopyInst_marks_both_witness :
  (forall x, 0 <= x < 0 + 4 ->
             trusted (walkCopyInst opX opY len4 true emptyClobbered) X x)
  /\ (forall x, 0 <= x < 0 + 4 ->
                trusted (walkCopyInst opX opY len4 true emptyClobbered) Y x).
Proof.
  destruct (walkCopyInst_marks_both opX opY len4 emptyClobbered 4 ptrX ptrY
              Witnesses.wfStore63_emptyClobbered eq_refl eq_refl ltac:(lia)
              eq_refl eq_refl eq_refl eq_refl
              ltac:(simpl; lia) ltac:(unfold two63; simpl; lia)
              ltac:(simpl; lia) ltac:(unfold two63; simpl; lia))
    as (_ & _ & HX & HY).
  split; [exact HX | exact HY].
Defined.

Lemma path_conditions_mark_their_bytes_witness :
  exists s',
    walkPathConditions PathConditionTypeIntmem [condX; condY] true 0 0 emptyClobbered
    = Some s'
    /\ (forall x, 0 + 0 <= x < 0 + 0 + 4 -> trusted s' X x)
    /\ store s' !! Y = None.
Proof.
  destruct (walkPathConditions PathConditionTypeIntmem [condX; condY] true 0 0
              emptyClobbered) as [s' |] eqn:E; [| vm_compute in E; discriminate].
  exists s'. split; [reflexivity |]. split.
  - destruct (proj2 (path_conditions_mark_their_bytes PathConditionTypeIntmem
                       [condX; condY] 0 0 emptyClobbered) s'
                Witnesses.wfStore63_emptyClobbered eq_refl) as [_ Hm].
    + intros c Hc ty iv Hu.
      apply elem_of_cons in Hc. destruct Hc as [-> | Hc];
        [| apply list_elem_of_singleton in Hc; subst c];
        injection Hu as <- <-; unfold two63; simpl; lia.
    + exact E.
    + apply (Hm condX ptrX); try reflexivity. apply elem_of_cons. left. reflexivity.
  - vm_compute in E. injection E as <-. reflexivity.
Defined.

Lemma disabled_context_adds_no_trust_witness :
  exists SI' st' R',
    TLAnalyseInstruction G0 R0 storeToX true false false (state emptyClobbered)
    = Some (SI', st', R')
    /\ trustedb (tlStore st') X 0 = false.
Proof.
  destruct (TLAnalyseInstruction G0 R0 storeToX true false false
              (state emptyClobbered)) as [[[SI' st'] R'] |] eqn:E;
    [| vm_compute in E; discriminate].
  exists SI', st', R'. split; [reflexivity |].
  destruct (trustedb (tlStore st') X 0) eqn:Et; [| reflexivity].
  exfalso. apply trustedb_spec in Et.
  apply (disabled_context_adds_no_trust G0 R0 storeToX false false _ _ _ _ X 0 E)
    in Et.
  unfold trusted in Et. simpl in Et. rewrite lookup_empty in Et. discriminate.
Defined.

Lemma yield_points_clobber_everything_witness :
  updateTLStore G0 fence true (state storeX8) = markAllObjectsTentative (state storeX8)
  /\ shouldCheckRead ptrX 4 (tlStore (updateTLStore G0 fence true (state storeX8)))
     = true.
Proof.
  destruct (proj1 (yield_points_clobber_everything G0 fence true (state storeX8)))
    as [He Hr].
  - right. right. left. split; [reflexivity | left; reflexivity].
  - split; [exact He |]. apply Hr; reflexivity.
Defined.


Lemma constant_targets_never_checked_witness :
  shouldCheckLoad G0 loadK emptyClobbered = TLS_NEVERCHECK.
Proof.
  apply (proj1 (constant_targets_never_checked G0 loadK emptyClobbered));
    try reflexivity.
  intros O HO. apply list_elem_of_singleton in HO. subst O. reflexivity.
Defined.

Lemma ordered_load_is_checked_and_yields_witness :
  exists SI' st' R',
    TLAnalyseInstruction G0 R0 orderedLoadX false false false (state storeX8)
    = Some (SI', st', R')
    /\ tlStore st' = emptyClobbered /\ readsTentativeData st' = true.
Proof.
  destruct (TLAnalyseInstruction G0 R0 orderedLoadX false false false (state storeX8))
    as [[[SI' st'] R'] |] eqn:E; [| vm_compute in E; discriminate].
  exists SI', st', R'. split; [reflexivity |].
  destruct (ordered_load_is_checked_and_yields G0 R0 orderedLoadX false false false
              (state storeX8) SI' st' R' eq_refl eq_refl eq_refl eq_refl eq_refl
              ltac:(discriminate) (or_introl eq_refl) E) as (_ & Hf & Hy).
  split; [exact (proj1 (Hy eq_refl)) | exact Hf].
Defined.

Lemma single_threaded_checks_nothing_witness :
  exists SI' st' R',
    TLAnalyseInstruction GSingleThreaded R0 (loadX TLS_MUSTCHECK) false false false
      (state emptyClobbered) = Some (SI', st', R')
    /\ isThreadLocal SI' = TLS_NEVERCHECK
    /\ readsTentativeData st' = false.
Proof.
  destruct (TLAnalyseInstruction GSingleThreaded R0 (loadX TLS_MUSTCHECK) false false
              false (state emptyClobbered)) as [[[SI' st'] R'] |] eqn:E;
    [| vm_compute in E; discriminate].
  exists SI', st', R'. split; [reflexivity |].
  destruct (single_threaded_checks_nothing GSingleThreaded R0 (loadX TLS_MUSTCHECK)
              false false false (state emptyClobbered) SI' st' R' eq_refl E)
    as [Hf Hn].
  split; [apply Hn; [reflexivity | left; reflexivity] | rewrite Hf; reflexivity].
Defined.

Lemma nevercheck_is_kept_witness :
  exists SI' st' R',
    TLAnalyseInstruction G0 R0 (loadX TLS_NEVERCHECK) false false false
      (state emptyClobbered) = Some (SI', st', R')
    /\ SI' = loadX TLS_NEVERCHECK.
Proof.
  destruct (TLAnalyseInstruction G0 R0 (loadX TLS_NEVERCHECK) false false false
              (state emptyClobbered)) as [[[SI' st'] R'] |] eqn:E;
    [| vm_compute in E; discriminate].
  exists SI', st', R'. split; [reflexivity |].
  exact (proj1 (nevercheck_is_kept G0 R0 (loadX TLS_NEVERCHECK) false false false
                  (state emptyClobbered) SI' st' R' eq_refl E)).
Defined.

Lemma mustcheck_raises_readsTentativeData_witness :
  exists SI' st' R',
    TLAnalyseInstruction G0 R0 (loadX TLS_NOCHECK) false false false
      (state emptyClobbered) = Some (SI', st', R')
    /\ readsTentativeData st' = true.
Proof.
  destruct (TLAnalyseInstruction G0 R0 (loadX TLS_NOCHECK) false false false
              (state emptyClobbered)) as [[[SI' st'] R'] |] eqn:E;
    [| vm_compute in E; discriminate].
  exists SI', st', R'. split; [reflexivity |].
  destruct (mustcheck_raises_readsTentativeData G0 R0 (loadX TLS_NOCHECK) false false
              false (state emptyClobbered) SI' st' R' E) as (_ & Hm & _).
  apply Hm; [reflexivity | left; reflexivity |].
  vm_compute in E. injection E as <- _ _. reflexivity.
Defined.

Lemma squash_is_idempotent_witness :
  exists SI',
    squashUnavailableObjects R1 loadOfH false = Some SI'
    /\ isThreadLocal SI' = TLS_NEVERCHECK
    /\ squashUnavailableObjects R1 SI' false = Some SI'.
Proof.
  destruct (squashUnavailableObjects R1 loadOfH false) as [SI' |] eqn:E;
    [| vm_compute in E; discriminate].
  exists SI'. split; [reflexivity |]. split.
  - vm_compute in E. injection E as <-. reflexivity.
  - exact (proj1 (squash_is_idempotent R1 loadOfH false) SI' E).
Defined.

Lemma replace_makes_available_witness :
  exists R',
    replaceUnavailableObjects R1 certainLoadOfH false = Some R'
    /\ isUnavailable R1 ValSetTypePB ptrH = true
    /\ isUnavailable R' ValSetTypePB ptrH = false.
Proof.
  destruct (replaceUnavailableObjects R1 certainLoadOfH false) as [R' |] eqn:E;
    [| vm_compute in E; discriminate].
  exists R'. split; [reflexivity |]. split; [reflexivity |].
  apply (proj2 (replace_makes_available R1 certainLoadOfH false R' E) eq_refl
           (or_introl eq_refl) eq_refl H 0 eq_refl ptrH eq_refl).
Defined.

Lemma rerun_discards_the_callee_snapshot_witness :
  exists SI' s' rv',
    rerunTentativeLoads R0 (lockCall []) (Some storeX4to12) tentativeCallee false
    = Some (SI', s', rv')
    /\ s' = Some emptyClobbered.
Proof.
  destruct (rerunTentativeLoads R0 (lockCall []) (Some storeX4to12) tentativeCallee
              false) as [[[SI' s'] rv'] |] eqn:E; [| vm_compute in E; discriminate].
  exists SI', s', rv'. split; [reflexivity |].
  exact (proj1 (proj1 (proj2 (rerun_discards_the_callee_snapshot R0 (lockCall [])
                                tentativeCallee false storeX4to12) SI' s' rv' E)
                  eq_refl)).
Defined.

Lemma special_checks_only_add_witness :
  requiresRuntimeCheck false (Some checkedLoadX) true = true.
Proof. apply (special_checks_only_add false (Some checkedLoadX) eq_refl). Defined.

Lemma call_requirement_is_not_reported_witness :
  requiresRuntimeCheck2 (withRequirement reallocCall TLS_MUSTCHECK) false
  = requiresRuntimeCheck2 reallocCall false.
Proof.
  apply (proj1 (call_requirement_is_not_reported reallocCall false)
           (or_introl eq_refl) TLS_MUSTCHECK).
Defined.

Lemma DSEHandleWrite_marks_witness :
  exists bits',
    fst (DSE.DSEHandleWrite exAlias exGetBase exGetDefinedRange pA 2 pA 4 A 0
           (Some [false; false; false; false])) = Some bits'
    /\ bits' !! 1%nat = Some true /\ bits' !! 2%nat = Some false.
Proof.
  destruct (ProverFacts.DSEHandleWrite_marks exAlias exGetBase exGetDefinedRange
              pA 2 pA 4 A 0 [false; false; false; false] A 0 0 2
              ltac:(lia) eq_refl eq_refl eq_refl) as (bits' & E & Hlen & Hb).
  exists bits'. split; [exact E |]. split.
  - apply Hb. right. split; [simpl; lia |]. split; [simpl; lia |].
    intros j Hj. left. lia.
  - vm_compute in E. injection E as <-. reflexivity.
Defined.

Lemma DSEHandleWrite_finishes_iff_witness :
  snd (DSE.DSEHandleWrite exAlias exGetBase exGetDefinedRange pA 4 pA 4 A 0
         (Some [false; false; false; false])) = true.
Proof.
  apply (proj2 (ProverFacts.DSEHandleWrite_finishes_iff exAlias exGetBase
                  exGetDefinedRange pA 4 pA 4 A 0 [false; false; false; false]
                  A 0 0 4 ltac:(lia) eq_refl eq_refl eq_refl) eq_refl ltac:(lia)).
Defined.

Lemma noteBytesWrittenBy_keeps_marks_witness :
  exists bits',
    snd (DSE.noteBytesWrittenBy exAlias exGetBase exGetBaseObject exGetDefinedRange
           storeLow pA A 0 4 (Some [false; false; true; true])) = Some bits'
    /\ length bits' = 4%nat
    /\ bits' !! 3%nat = Some true.
Proof.
  destruct (ProverFacts.noteBytesWrittenBy_keeps_marks exAlias exGetBase
              exGetBaseObject exGetDefinedRange storeLow pA A 0 4
              [false; false; true; true] ltac:(lia) eq_refl)
    as (bits' & E & Hlen & Hk).
  exists bits'. split; [exact E |]. split; [exact Hlen |].
  apply Hk. reflexivity.
Defined.

Lemma path_stops_only_when_dead_witness :
  DSE.noteBytesWrittenBy exAlias exGetBase exGetBaseObject exGetDefinedRange
    ret pA A 0 4 (Some [false; false; false; false])
  = (DSE.WIRStopThisPath, Some [false; false; false; false]).
Proof.
  apply (proj1 (ProverFacts.path_stops_only_when_dead exAlias exGetBase
                  exGetBaseObject exGetDefinedRange ret pA A 0 4)).
  reflexivity.
Defined.

Lemma only_reads_abort_witness :
  DSE.writeUsed
    (fst (fst (DSE.walkInstruction exAlias exGetBase exGetBaseObject
                 exGetDefinedRange (DSE.newWalker pA A 0 4) loadAll
                 (Some [true; false; false; false])))) = true
  /\ snd (DSE.walkInstruction exAlias exGetBase exGetBaseObject exGetDefinedRange
            (DSE.newWalker pA A 0 4) loadAll (Some [true; false; false; false]))
     = Some [true; false; false; false].
Proof.
  destruct (proj2 (proj2 (ProverFacts.only_reads_abort exAlias exGetBase
                            exGetBaseObject exGetDefinedRange
                            (DSE.newWalker pA A 0 4) loadAll
                            (Some [true; false; false; false]))) eq_refl)
    as (Hu & Hc & _).
  split; [exact Hu | exact Hc].
Defined.

Lemma dead_transfer_is_a_plain_write_witness :
  DSE.noteBytesWrittenBy exAlias exGetBase exGetBaseObject exGetDefinedRange
    deadTransfer pA A 0 4 (Some [false; false; false; false])
  = DSE.noteBytesWrittenBy exAlias exGetBase exGetBaseObject exGetDefinedRange
      (DSEEntry.asMemSet deadTransfer) pA A 0 4 (Some [false; false; false; false]).
Proof.
  apply (proj1 (ProverFacts.dead_transfer_is_a_plain_write exAlias exGetBase
                  exGetBaseObject exGetDefinedRange deadTransfer pA A 0 4
                  (Some [false; false; false; false]) eq_refl eq_refl)).
Defined.

Lemma overwritten_store_is_dead_witness :
  DSEEntry.tryKillStore exAlias exGetBase exGetBaseObject exGetDefinedRange
    (DSE.PStep storeAll (DSE.PStep loadAll DSE.PEnd)) storeAll 32
  = (true, true).
Proof.
  apply (ProverFacts.overwritten_store_is_dead exAlias exGetBase exGetBaseObject
           exGetDefinedRange storeAll storeAll (DSE.PStep loadAll DSE.PEnd) 32
           A 0 A 0);
    try reflexivity; try (unfold two64; lia); vm_compute; congruence.
Defined.

End MoreWitnesses.
